(** * Clementine: the audio-CD song loader (src/devices/cddasongloader.cpp)

    A shallow embedding of [CddaSongLoader] and the properties of its disc
    scan.  The scan runs in a worker thread, talks to a GStreamer pipeline
    and reports to its observers through Qt signals.  Here the pipeline and
    the destructor running in another thread are an explicit [World]; the
    scan is a function of that world; and what the scan does (signals
    emitted, lines logged, waits begun, messages handled) is a trace of
    [Action]s written by a small writer-and-fault monad. *)

From Stdlib Require Import ZArith Lia Bool.
From stdpp Require Import base list strings pretty.

Local Open Scope string_scope.
Local Open Scope list_scope.
Local Open Scope Z_scope.

(** ** Machine integers

    C++ integers are [Z] with the wrap-around of each conversion written
    out. *)

Definition wrap_unsigned (bits x : Z) : Z := x mod 2 ^ bits.

Definition wrap_signed (bits x : Z) : Z :=
  (x + 2 ^ (bits - 1)) mod 2 ^ bits - 2 ^ (bits - 1).

(** [static_cast<int>], and the implicit conversions to [guint], [gint64],
    [quint64] and [qint64]. *)
Definition to_int (x : Z) : Z := wrap_signed 32 x.
Definition to_guint (x : Z) : Z := wrap_unsigned 32 x.
Definition to_gint64 (x : Z) : Z := wrap_signed 64 x.
Definition to_quint64 (x : Z) : Z := wrap_unsigned 64 x.
Definition to_qint64 (x : Z) : Z := wrap_signed 64 x.

Definition INT_MAX : Z := 2147483647.

(** ** Qt strings and URLs *)

(** A [QString] is a [string]; [QString::fromUtf8] is the identity. *)

Definition isEmpty (s : string) : bool :=
  match s with
  | EmptyString => true
  | String _ _ => false
  end.

(** [QString::arg(int)] and [QString::arg(qint64)]: the decimal numeral. *)
Definition arg_number (n : Z) : string := pretty n.

(** The loader's [url_]: [None] is the empty [QUrl], [Some p] a URL whose
    [path()] is [p]. *)
Definition QUrl := option string.

(** ** Songs

    [class Song] is declared in core/song.h, outside the files modelled
    here.  The record has the attributes cddasongloader.cpp sets.  The
    setters take [int] ([set_id], [set_track], [set_year]) and [qint64]
    ([set_length_nanosec]); the conversions are written at the calls. *)

Inductive FileType := Type_Unknown | Type_Cdda.

Record Song := {
  song_id : Z;
  song_valid : bool;
  song_filetype : FileType;
  song_url : string;
  song_title : string;
  song_track : Z;
  song_album : string;
  song_albumartist : string;
  song_genre : string;
  song_artist : string;
  song_length_nanosec : Z;
  song_year : Z
}.

(** Modelled from the spec: the default constructor [Song()] of core/song.h
    is missing.  The specification describes a freshly
    enumerated track as having a number, a placeholder title and zero
    duration (sections 4.1 and 8: "zero duration"); every other attribute
    is left unset: empty text, no number ([-1]), not valid, unknown type. *)
Definition Song_default : Song :=
  {| song_id := -1; song_valid := false; song_filetype := Type_Unknown;
     song_url := ""; song_title := ""; song_track := -1;
     song_album := ""; song_albumartist := ""; song_genre := "";
     song_artist := ""; song_length_nanosec := 0; song_year := -1 |}.

Definition set_id (v : Z) (s : Song) : Song :=
  {| song_id := v; song_valid := song_valid s; song_filetype := song_filetype s;
     song_url := song_url s; song_title := song_title s; song_track := song_track s;
     song_album := song_album s; song_albumartist := song_albumartist s; song_genre := song_genre s;
     song_artist := song_artist s; song_length_nanosec := song_length_nanosec s; song_year := song_year s |}.

Definition set_valid (v : bool) (s : Song) : Song :=
  {| song_id := song_id s; song_valid := v; song_filetype := song_filetype s;
     song_url := song_url s; song_title := song_title s; song_track := song_track s;
     song_album := song_album s; song_albumartist := song_albumartist s; song_genre := song_genre s;
     song_artist := song_artist s; song_length_nanosec := song_length_nanosec s; song_year := song_year s |}.

Definition set_filetype (v : FileType) (s : Song) : Song :=
  {| song_id := song_id s; song_valid := song_valid s; song_filetype := v;
     song_url := song_url s; song_title := song_title s; song_track := song_track s;
     song_album := song_album s; song_albumartist := song_albumartist s; song_genre := song_genre s;
     song_artist := song_artist s; song_length_nanosec := song_length_nanosec s; song_year := song_year s |}.

Definition set_url (v : string) (s : Song) : Song :=
  {| song_id := song_id s; song_valid := song_valid s; song_filetype := song_filetype s;
     song_url := v; song_title := song_title s; song_track := song_track s;
     song_album := song_album s; song_albumartist := song_albumartist s; song_genre := song_genre s;
     song_artist := song_artist s; song_length_nanosec := song_length_nanosec s; song_year := song_year s |}.

Definition set_title (v : string) (s : Song) : Song :=
  {| song_id := song_id s; song_valid := song_valid s; song_filetype := song_filetype s;
     song_url := song_url s; song_title := v; song_track := song_track s;
     song_album := song_album s; song_albumartist := song_albumartist s; song_genre := song_genre s;
     song_artist := song_artist s; song_length_nanosec := song_length_nanosec s; song_year := song_year s |}.

Definition set_track (v : Z) (s : Song) : Song :=
  {| song_id := song_id s; song_valid := song_valid s; song_filetype := song_filetype s;
     song_url := song_url s; song_title := song_title s; song_track := v;
     song_album := song_album s; song_albumartist := song_albumartist s; song_genre := song_genre s;
     song_artist := song_artist s; song_length_nanosec := song_length_nanosec s; song_year := song_year s |}.

Definition set_album (v : string) (s : Song) : Song :=
  {| song_id := song_id s; song_valid := song_valid s; song_filetype := song_filetype s;
     song_url := song_url s; song_title := song_title s; song_track := song_track s;
     song_album := v; song_albumartist := song_albumartist s; song_genre := song_genre s;
     song_artist := song_artist s; song_length_nanosec := song_length_nanosec s; song_year := song_year s |}.

Definition set_albumartist (v : string) (s : Song) : Song :=
  {| song_id := song_id s; song_valid := song_valid s; song_filetype := song_filetype s;
     song_url := song_url s; song_title := song_title s; song_track := song_track s;
     song_album := song_album s; song_albumartist := v; song_genre := song_genre s;
     song_artist := song_artist s; song_length_nanosec := song_length_nanosec s; song_year := song_year s |}.

Definition set_genre (v : string) (s : Song) : Song :=
  {| song_id := song_id s; song_valid := song_valid s; song_filetype := song_filetype s;
     song_url := song_url s; song_title := song_title s; song_track := song_track s;
     song_album := song_album s; song_albumartist := song_albumartist s; song_genre := v;
     song_artist := song_artist s; song_length_nanosec := song_length_nanosec s; song_year := song_year s |}.

Definition set_artist (v : string) (s : Song) : Song :=
  {| song_id := song_id s; song_valid := song_valid s; song_filetype := song_filetype s;
     song_url := song_url s; song_title := song_title s; song_track := song_track s;
     song_album := song_album s; song_albumartist := song_albumartist s; song_genre := song_genre s;
     song_artist := v; song_length_nanosec := song_length_nanosec s; song_year := song_year s |}.

Definition set_length_nanosec (v : Z) (s : Song) : Song :=
  {| song_id := song_id s; song_valid := song_valid s; song_filetype := song_filetype s;
     song_url := song_url s; song_title := song_title s; song_track := song_track s;
     song_album := song_album s; song_albumartist := song_albumartist s; song_genre := song_genre s;
     song_artist := song_artist s; song_length_nanosec := v; song_year := song_year s |}.

Definition set_year (v : Z) (s : Song) : Song :=
  {| song_id := song_id s; song_valid := song_valid s; song_filetype := song_filetype s;
     song_url := song_url s; song_title := song_title s; song_track := song_track s;
     song_album := song_album s; song_albumartist := song_albumartist s; song_genre := song_genre s;
     song_artist := song_artist s; song_length_nanosec := song_length_nanosec s; song_year := v |}.

Abbreviation SongList := (list Song).

(** [QList<T>::operator[](int i)] on a non-const list: Qt requires
    [0 <= i < size()] (it asserts it; beyond that the access is undefined).
    The access is a fault when the index is out of range. *)
Inductive Fault :=
| AssertFailed (condition : string)
| IndexOutOfRange (index size : Z).

Inductive Outcome (A : Type) :=
| Done (a : A)
| Crash (f : Fault).
Arguments Done {A} a.
Arguments Crash {A} f.

(** ** GStreamer: tag lists, tables of contents, bus messages *)

Inductive Tag :=
| GST_TAG_TRACK_NUMBER
| GST_TAG_ALBUM
| GST_TAG_ALBUM_ARTIST
| GST_TAG_GENRE
| GST_TAG_ARTIST
| GST_TAG_TITLE
| GST_TAG_DURATION
| GST_TAG_CDDA_MUSICBRAINZ_DISCID.

#[global] Instance Tag_eq_dec : EqDecision Tag.
Proof. solve_decision. Defined.

Inductive GValue :=
| VString (s : string)
| VUInt (n : Z)
| VUInt64 (n : Z).

Definition GstTagList := list (Tag * GValue).

Fixpoint tag_value (tags : GstTagList) (tag : Tag) : option GValue :=
  match tags with
  | [] => None
  | (t, v) :: rest => if decide (t = tag) then Some v else tag_value rest tag
  end.

(** [gst_tag_list_get_uint]: TRUE and the value when the tag is there as an
    unsigned integer. *)
Definition gst_tag_list_get_uint (tags : GstTagList) (tag : Tag) : option Z :=
  match tag_value tags tag with
  | Some (VUInt n) => Some (to_guint n)
  | _ => None
  end.

Definition gst_tag_list_get_uint64 (tags : GstTagList) (tag : Tag) : option Z :=
  match tag_value tags tag with
  | Some (VUInt64 n) => Some (to_quint64 n)
  | _ => None
  end.

(** [gst_tag_list_get_string]: GStreamer returns TRUE only with a string
    that is neither NULL nor empty. *)
Definition gst_tag_list_get_string (tags : GstTagList) (tag : Tag) : option string :=
  match tag_value tags tag with
  | Some (VString s) => if isEmpty s then None else Some s
  | _ => None
  end.

(** A table-of-contents entry: [gst_toc_entry_get_start_stop_times] gives
    the start and stop times ([gint64]) when they are known. *)
Record GstTocEntry := { start_stop_times : option (Z * Z) }.

Definition gst_toc_entry_get_start_stop_times (entry : GstTocEntry) : option (Z * Z) :=
  match start_stop_times entry with
  | Some (start, stop) => Some (to_gint64 start, to_gint64 stop)
  | None => None
  end.

Record GstToc := { gst_toc_get_entries : list GstTocEntry }.

(** The bus messages the scan can see.  Its filter never holds a bit
    other than [GST_MESSAGE_TOC] and [GST_MESSAGE_TAG], so messages of any
    other type are dropped inside [gst_bus_timed_pop_filtered] and are left
    out.  [toc] is what [gst_message_parse_toc] stores (it may be NULL). *)
Inductive GstMessage :=
| TocMessage (toc : option GstToc)
| TagMessage (tags : GstTagList).

Definition GST_MESSAGE_TAG : Z := Z.shiftl 1 4.
Definition GST_MESSAGE_TOC : Z := Z.shiftl 1 26.

Definition GST_MESSAGE_TYPE (msg : GstMessage) : Z :=
  match msg with
  | TocMessage _ => GST_MESSAGE_TOC
  | TagMessage _ => GST_MESSAGE_TAG
  end.

(** ** What a scan does: the trace *)

Inductive Signal :=
| SongsLoaded (songs : SongList)
| SongsDurationLoaded (songs : SongList)
| SongsMetadataLoaded (songs : SongList)
| MusicBrainzDiscIdLoaded (discid : string).

Inductive LogLevel := Error | Info | Debug.

Inductive Action :=
| Log (level : LogLevel) (text : string)
| LogTags (tags : GstTagList)
| Emit (signal : Signal)
| WaitBegin
| Handle (msg : GstMessage)
| Seek (track : Z)
| MayLoadCleared.

(** A computation writes a trace and ends with a value or with a fault;
    the trace written before a fault is kept. *)
Definition Run (A : Type) : Type := list Action * Outcome A.

#[global] Instance Run_ret : MRet Run := λ A a, ([], Done a).

#[global] Instance Run_bind : MBind Run := λ A B k m,
  match m with
  | (t, Done a) => let '(t', r) := k a in (t ++ t', r)
  | (t, Crash f) => (t, Crash f)
  end.

Definition tell (a : Action) : Run unit := ([a], Done tt).
Definition emit (s : Signal) : Run unit := tell (Emit s).
Definition qLog (level : LogLevel) (text : string) : Run unit := tell (Log level text).

Definition Q_ASSERT (cond : bool) (text : string) : Run unit :=
  if cond then mret tt else ([], Crash (AssertFailed text)).

Definition trace {A} (r : Run A) : list Action := r.1.
Definition outcome {A} (r : Run A) : Outcome A := r.2.

(** [songs[i]] on a non-const [QList]: a reference to the element. *)
Definition QList_at (songs : SongList) (i : Z) : Run Song :=
  match (if 0 <=? i then songs !! Z.to_nat i else None) with
  | Some song => mret song
  | None => ([], Crash (IndexOutOfRange i (Z.of_nat (length songs))))
  end.

(** ** The loader *)

Record CddaSongLoader := {
  url_ : QUrl;
  may_load_ : bool
}.

(** [GetUrlFromTrack].  The result stands for
    [CddaDevice::TrackStrToUrl(track)] (of cddadevice.h, outside the files
    modelled here) and is kept as the track string itself.  Place markers
    inside [url_.path()] are not modelled. *)
Definition GetUrlFromTrack (url_ : QUrl) (track_number : Z) : string :=
  match url_ with
  | None => "cdda://" +:+ arg_number track_number
  | Some path => "cdda://" +:+ path +:+ "/" +:+ arg_number track_number
  end.

(** One [if (gst_tag_list_get_string(tags, tag, &buffer))] block of
    [ParseSongTags]: the song and [has_loaded_tags] before and after. *)
Definition harvest_string (tags : GstTagList) (tag : Tag)
    (set : string → Song → Song) (acc : Song * bool) : Song * bool :=
  match gst_tag_list_get_string tags tag with
  | Some buffer => (set buffer acc.1, true)
  | None => acc
  end.

Definition harvest_duration (tags : GstTagList) (acc : Song * bool) : Song * bool :=
  match gst_tag_list_get_uint64 tags GST_TAG_DURATION with
  | Some duration => (set_length_nanosec (to_qint64 duration) acc.1, true)
  | None => acc
  end.

(** [QList::size()]. *)
Definition QList_size (songs : SongList) : Z := Z.of_nat (length songs).

(** The six blocks of [ParseSongTags] that read a field into [song], and
    [has_loaded_tags] after them. *)
Definition harvest (tags : GstTagList) (song : Song) : Song * bool :=
  let acc := (song, false) in
  let acc := harvest_string tags GST_TAG_ALBUM set_album acc in
  let acc := harvest_string tags GST_TAG_ALBUM_ARTIST set_albumartist acc in
  let acc := harvest_string tags GST_TAG_GENRE set_genre acc in
  let acc := harvest_string tags GST_TAG_ARTIST set_artist acc in
  let acc := harvest_string tags GST_TAG_TITLE set_title acc in
  harvest_duration tags acc.

(** The five setters that end [ParseSongTags]; [track_number] is a
    [guint], the setters and [GetUrlFromTrack] take an [int]. *)
Definition identify (url_ : QUrl) (track_number : Z) (song : Song) : Song :=
  let song := set_track (to_int track_number) song in
  let song := set_id (to_int track_number) song in
  let song := set_filetype Type_Cdda song in
  let song := set_valid true song in
  set_url (GetUrlFromTrack url_ (to_int track_number)) song.

Definition track_number_missing : string :=
  "Track tags do not contain track number!".

(** [ParseSongTags(songs, tags)]: the list after the call and the value
    returned.  [Song& song = songs[...]] is a reference into the list:
    the song is read, changed and stored back. *)
Definition ParseSongTags (url_ : QUrl) (songs : SongList) (tags : GstTagList)
    : Run (SongList * bool) :=
  match gst_tag_list_get_uint tags GST_TAG_TRACK_NUMBER with
  | None =>
      qLog Error track_number_missing;;
      mret (songs, false)
  | Some track_number =>
      Q_ASSERT (negb (track_number =? 0)) "track_number != 0u";;
      Q_ASSERT (to_int track_number <=? QList_size songs)
               "static_cast<int>(track_number) <= songs.size()";;
      let index := to_int (to_guint (track_number - 1)) in
      song ← QList_at songs index;
      tell (LogTags tags);;
      let '(song, has_loaded_tags) := harvest tags song in
      let song := identify url_ track_number song in
      mret (<[Z.to_nat index := song]> songs, has_loaded_tags)
  end.

(** The body of the loop that builds [initial_song_list]. *)
Definition initial_song (url_ : QUrl) (track_number : Z) : Song :=
  let song := Song_default in
  let song := set_id track_number song in
  let song := set_valid true song in
  let song := set_filetype Type_Cdda song in
  let song := set_url (GetUrlFromTrack url_ track_number) song in
  let song := set_title ("Track " +:+ arg_number track_number) song in
  set_track track_number song.

(** [for (int track_number = 1; track_number <= num_tracks; track_number++)]:
    one song per number from 1 to [num_tracks], none when [num_tracks < 1].
    The counter is an [int]; it stays in range for [num_tracks <= INT_MAX]. *)
Definition make_initial_song_list (url_ : QUrl) (num_tracks : Z) : SongList :=
  initial_song url_ <$> seqZ 1 num_tracks.

(** ** The scan: [LoadSongsFromCdda] *)

(** The variables the event loop reads and writes: the locals of
    [LoadSongsFromCdda] and the member [may_load_] as the scan thread
    finds it. *)
Record ScanState := {
  initial_song_list : SongList;
  tagged_song_list : SongList;
  msg_filter : Z;
  musicbrainz_discid : string;
  loaded_cd_tags : bool;
  may_load : bool
}.

Definition with_toc_done (songs : SongList) (st : ScanState) : ScanState :=
  {| initial_song_list := songs;
     tagged_song_list := tagged_song_list st;
     msg_filter := Z.lxor (msg_filter st) GST_MESSAGE_TOC;
     musicbrainz_discid := musicbrainz_discid st;
     loaded_cd_tags := loaded_cd_tags st;
     may_load := may_load st |}.

Definition with_discid (discid : string) (st : ScanState) : ScanState :=
  {| initial_song_list := initial_song_list st;
     tagged_song_list := tagged_song_list st;
     msg_filter := msg_filter st;
     musicbrainz_discid := discid;
     loaded_cd_tags := loaded_cd_tags st;
     may_load := may_load st |}.

Definition with_tags (songs : SongList) (loaded : bool) (st : ScanState) : ScanState :=
  {| initial_song_list := initial_song_list st;
     tagged_song_list := songs;
     msg_filter := msg_filter st;
     musicbrainz_discid := musicbrainz_discid st;
     loaded_cd_tags := loaded;
     may_load := may_load st |}.

Definition with_tag_done (st : ScanState) : ScanState :=
  {| initial_song_list := initial_song_list st;
     tagged_song_list := tagged_song_list st;
     msg_filter := Z.lxor (msg_filter st) GST_MESSAGE_TAG;
     musicbrainz_discid := musicbrainz_discid st;
     loaded_cd_tags := loaded_cd_tags st;
     may_load := may_load st |}.

Definition with_may_load (flag : bool) (st : ScanState) : ScanState :=
  {| initial_song_list := initial_song_list st;
     tagged_song_list := tagged_song_list st;
     msg_filter := msg_filter st;
     musicbrainz_discid := musicbrainz_discid st;
     loaded_cd_tags := loaded_cd_tags st;
     may_load := flag |}.

(** The body of the loop over the entries of an accepted table of
    contents. *)
Definition toc_entry_duration (entry : GstTocEntry) : Z :=
  match gst_toc_entry_get_start_stop_times entry with
  | Some (start, stop) => to_quint64 (stop - start)
  | None => 0
  end.

(** What one entry of an accepted table of contents does to its song. *)
Definition enrich (entry : GstTocEntry) (song : Song) : Song :=
  set_length_nanosec (to_qint64 (toc_entry_duration entry)) song.

(** [for (GList* node = entries; node != nullptr; node = node->next)] with
    the running index [i]: every entry writes
    [initial_song_list[i++].set_length_nanosec(duration)]. *)
Fixpoint set_durations (entries : list GstTocEntry) (i : Z) (songs : SongList)
    : Run SongList :=
  match entries with
  | [] => mret songs
  | entry :: next =>
      let duration := toc_entry_duration entry in
      song ← QList_at songs i;
      let songs := <[Z.to_nat i := set_length_nanosec (to_qint64 duration) song]> songs in
      set_durations next (i + 1) songs
  end.

Definition is_null {A} (l : list A) : bool :=
  match l with
  | [] => true
  | _ :: _ => false
  end.

(** The [GST_MESSAGE_TOC] branch.  A [GList] with no element is the NULL
    pointer, so [entries &&] asks for at least one entry.  Both sides of
    [<=] are lengths, below [2^31]; the comparison is theirs. *)
Definition handle_toc (toc : option GstToc) (st : ScanState) : Run ScanState :=
  match toc with
  | None => mret st
  | Some toc =>
      let entries := gst_toc_get_entries toc in
      if negb (is_null entries)
         && (QList_size (initial_song_list st) <=? Z.of_nat (length entries))
      then
        songs ← set_durations entries 0 (initial_song_list st);
        emit (SongsDurationLoaded songs);;
        mret (with_toc_done songs st)
      else mret st
  end.

(** The first step of the [GST_MESSAGE_TAG] branch: the disc identifier is
    taken from the tags while [musicbrainz_discid] is empty. *)
Definition read_discid (tags : GstTagList) (st : ScanState) : Run ScanState :=
  match (if isEmpty (musicbrainz_discid st)
         then gst_tag_list_get_string tags GST_TAG_CDDA_MUSICBRAINZ_DISCID
         else None) with
  | Some string_mb =>
      qLog Info ("MusicBrainz discid: " +:+ string_mb);;
      mret (with_discid string_mb st)
  | None => mret st
  end.

(** Its last step: seek to the next track, or stop listening for tags.
    [position] is what [gst_element_query_position] stores in
    [track_number]. *)
Definition next_track (num_tracks position : Z) (st : ScanState) : Run ScanState :=
  let track_number := to_gint64 (to_gint64 position + 1) in
  if track_number <? num_tracks
  then tell (Seek track_number);; mret st
  else mret (with_tag_done st).

(** The [GST_MESSAGE_TAG] branch. *)
Definition handle_tag (url_ : QUrl) (num_tracks : Z) (tags : GstTagList)
    (position : Z) (st : ScanState) : Run ScanState :=
  st ← read_discid tags st;
  '(songs, loaded) ← ParseSongTags url_ (tagged_song_list st) tags;
  next_track num_tracks position
             (with_tags songs (loaded_cd_tags st || loaded) st).

Definition loop_body (url_ : QUrl) (num_tracks : Z) (msg : GstMessage)
    (position : Z) (st : ScanState) : Run ScanState :=
  match msg with
  | TocMessage toc => handle_toc toc st
  | TagMessage tags => handle_tag url_ num_tracks tags position st
  end.

(** What happens around the scan thread while it is in its loop: a message
    is posted on the bus ([position] is the track position the element
    reports while that message is handled), or the destructor, in another
    thread, stores [false] in [may_load_] while the scan is blocked in the
    wait.  A store that falls between the return of a wait and the next
    test of the loop condition is seen by that same test, like one that
    fell inside the wait, and is written as the latter. *)
Inductive WorldEvent :=
| Posted (msg : GstMessage) (position : Z)
| Teardown.

(** [gst_bus_timed_pop_filtered] keeps a message whose type has a bit of
    the filter and drops the others. *)
Definition passes_filter (msg : GstMessage) (filter : Z) : bool :=
  negb (Z.land (GST_MESSAGE_TYPE msg) filter =? 0).

(** [may_load_ && msg_filter], the part of the loop condition that is
    tested before the wait. *)
Definition loop_condition (st : ScanState) : bool :=
  may_load st && negb (msg_filter st =? 0).

(** The scan blocked in [gst_bus_timed_pop_filtered], and the iterations
    that follow.  With nothing left to come the wait times out, the pop
    returns NULL and the loop ends. *)
Fixpoint wait_events (url_ : QUrl) (num_tracks : Z) (events : list WorldEvent)
    (st : ScanState) : Run ScanState :=
  match events with
  | [] => mret st
  | Teardown :: later =>
      tell MayLoadCleared;;
      wait_events url_ num_tracks later (with_may_load false st)
  | Posted msg position :: later =>
      if passes_filter msg (msg_filter st) then
        tell (Handle msg);;
        st ← loop_body url_ num_tracks msg position st;
        if loop_condition st
        then tell WaitBegin;; wait_events url_ num_tracks later st
        else mret st
      else wait_events url_ num_tracks later st
  end.

(** [while (may_load_ && msg_filter && (msg = gst_bus_timed_pop_filtered(...)))]. *)
Definition event_loop (url_ : QUrl) (num_tracks : Z) (events : list WorldEvent)
    (st : ScanState) : Run ScanState :=
  if loop_condition st
  then tell WaitBegin;; wait_events url_ num_tracks events st
  else mret st.

(** The world of one scan: GStreamer's answers, the indeterminate value the
    local [loaded_cd_tags] starts with (it has no initialiser), and what
    the destructor does meanwhile. *)
Record World := {
  cdiocddasrc_created : bool;      (* gst_element_factory_make gives an element *)
  state_ready_fails : bool;        (* set_state(READY) == GST_STATE_CHANGE_FAILURE *)
  state_paused_fails : bool;       (* set_state(PAUSED) == GST_STATE_CHANGE_FAILURE *)
  track_count : option Z;          (* gst_element_query_duration in track format *)
  loaded_cd_tags_initially : bool;
  teardown_during_setup : bool;    (* may_load_ cleared before the loop's first test *)
  timeline : list WorldEvent
}.

(** A [GError]: its code and message. *)
Definition GError := (Z * string)%type.

Definition when (cond : bool) (r : Run unit) : Run unit :=
  if cond then r else mret tt.

(** The locals as the loop finds them first.  [loaded_cd_tags] is
    declared without an initialiser. *)
Definition start_state (songs : SongList) (w : World) : ScanState :=
  {| initial_song_list := songs;
     tagged_song_list := songs;
     msg_filter := Z.lor GST_MESSAGE_TOC GST_MESSAGE_TAG;
     musicbrainz_discid := "";
     loaded_cd_tags := loaded_cd_tags_initially w;
     may_load := negb (teardown_during_setup w) |}.

(** The two statements that follow the loop. *)
Definition emit_results (st : ScanState) : Run unit :=
  when (loaded_cd_tags st) (emit (SongsMetadataLoaded (tagged_song_list st)));;
  when (negb (isEmpty (musicbrainz_discid st)))
       (emit (MusicBrainzDiscIdLoaded (musicbrainz_discid st))).

Definition track_count_query_failed : string :=
  "Error while querying cdda GstElement for track count".

(** [LoadSongsFromCdda()].  It returns [void]; [Done tt] is a return and
    [Crash] a failed assertion or an access out of range.  [error] is
    never handed to GStreamer and stays [nullptr].  The calls that only
    configure or release GStreamer objects (the device and paranoia-mode
    properties, the pipeline and its sink, the unrefs) leave no trace and
    are not written. *)
Definition LoadSongsFromCdda (this : CddaSongLoader) (w : World) : Run unit :=
  if negb (may_load_ this) then mret tt else
  let error : option GError := None in
  match error with
  | Some (code, message) => qLog Error (arg_number code +:+ message)
  | None => mret tt
  end;;
  if negb (cdiocddasrc_created w) then mret tt else
  if state_ready_fails w || state_paused_fails w then mret tt else
  match track_count w with
  | None => qLog Error track_count_query_failed
  | Some num_tracks =>
      let initial_song_list := make_initial_song_list (url_ this) num_tracks in
      emit (SongsLoaded initial_song_list);;
      st ← event_loop (url_ this) num_tracks (timeline w)
                      (start_state initial_song_list w);
      emit_results st
  end.

(** ** The answer of the metadata lookup: [AudioCDTagsLoaded] *)

Module MusicBrainzClient.
(** [MusicBrainzClient::Result], of musicbrainzclient.h: the attributes
    read by [AudioCDTagsLoaded]. *)
Record Result := {
  title_ : string;
  duration_msec_ : Z;
  year_ : Z
}.
Definition ResultList := list Result.
End MusicBrainzClient.

(** Modelled from the spec: [kNsecPerMsec] of core/timeconstants.h is
    missing; the specification has the lookup give durations in
    milliseconds and tracks hold them in nanoseconds. *)
Definition kNsecPerMsec : Z := 1000000.

(** The body of the loop over [results], at [track_number]. *)
Definition song_of_result (url_ : QUrl) (artist album : string)
    (ret : MusicBrainzClient.Result) (track_number : Z) : Song :=
  let song := Song_default in
  let song := set_artist artist song in
  let song := set_album album song in
  let song := set_title (MusicBrainzClient.title_ ret) song in
  let song := set_length_nanosec
                (to_qint64 (MusicBrainzClient.duration_msec_ ret * kNsecPerMsec)) song in
  let song := set_track track_number song in
  let song := set_year (MusicBrainzClient.year_ ret) song in
  let song := set_id track_number song in
  let song := set_filetype Type_Cdda song in
  let song := set_valid true song in
  set_url (GetUrlFromTrack url_ track_number) song.

(** [for (const MusicBrainzClient::Result& ret : results)] with the counter
    [track_number], which starts at 1 and is advanced by [track_number++]. *)
Fixpoint songs_of_results (url_ : QUrl) (artist album : string)
    (results : MusicBrainzClient.ResultList) (track_number : Z) : SongList :=
  match results with
  | [] => []
  | ret :: rest =>
      song_of_result url_ artist album ret track_number
      :: songs_of_results url_ artist album rest (track_number + 1)
  end.

(** [AudioCDTagsLoaded(artist, album, results)].  The release of the
    sender, [musicbrainz_client->deleteLater()], is not written. *)
Definition AudioCDTagsLoaded (this : CddaSongLoader) (artist album : string)
    (results : MusicBrainzClient.ResultList) : Run unit :=
  if is_null results then mret tt else
  let songs := songs_of_results (url_ this) artist album results 1 in
  emit (SongsMetadataLoaded songs).

(** ** Reading a trace *)

Definition signal_of (a : Action) : option Signal :=
  match a with
  | Emit s => Some s
  | _ => None
  end.

(** The signals of a trace, in the order of their emission. *)
Definition signals (t : list Action) : list Signal := omap signal_of t.

Definition duration_list_of (s : Signal) : option SongList :=
  match s with
  | SongsDurationLoaded songs => Some songs
  | _ => None
  end.

(** The duration-enriched lists among the signals, in order. *)
Definition duration_lists (sigs : list Signal) : list SongList :=
  omap duration_list_of sigs.

(** The two enriched lists. *)
Definition is_enriched (s : Signal) : bool :=
  match s with
  | SongsDurationLoaded _ | SongsMetadataLoaded _ => true
  | _ => false
  end.

Definition log_of (a : Action) : option (LogLevel * string) :=
  match a with
  | Log level text => Some (level, text)
  | _ => None
  end.

(** The lines logged, with their levels. *)
Definition logged (t : list Action) : list (LogLevel * string) := omap log_of t.

Definition error_of (a : Action) : option string :=
  match a with
  | Log Error text => Some text
  | _ => None
  end.

(** The lines logged at level [Error]. *)
Definition errors (t : list Action) : list string := omap error_of t.

Definition info_of (a : Action) : option string :=
  match a with
  | Log Info text => Some text
  | _ => None
  end.

(** The lines logged at level [Info].  The scan has one such line, written
    where [musicbrainz_discid] is assigned. *)
Definition infos (t : list Action) : list string := omap info_of t.

Definition handled_of (a : Action) : option GstMessage :=
  match a with
  | Handle msg => Some msg
  | _ => None
  end.

(** The messages the loop body ran on, in order. *)
Definition handled (t : list Action) : list GstMessage := omap handled_of t.

(** A trace of the loop's own bookkeeping: lines logged and seeks, with
    no signal, no wait, no message and no store to [may_load_]. *)
Definition quiet_action (a : Action) : Prop :=
  match a with
  | Log _ _ | LogTags _ | Seek _ => True
  | _ => False
  end.

Definition quiet (t : list Action) : Prop := Forall quiet_action t.

(** What the loop body can write: anything but a wait, a message taken
    from the bus, or the store to [may_load_]. *)
Definition body_action (a : Action) : Prop :=
  match a with
  | WaitBegin | Handle _ | MayLoadCleared => False
  | _ => True
  end.

(** ** The vocabulary of the statements *)

(** The values of an [int]. *)
Definition in_int_range (z : Z) : Prop := - 2147483648 ≤ z ≤ INT_MAX.

(** The filter holds the two bits it starts with, or fewer. *)
Definition filter_wf (filter : Z) : Prop :=
  filter = Z.lor GST_MESSAGE_TOC GST_MESSAGE_TAG ∨ filter = GST_MESSAGE_TOC ∨
  filter = GST_MESSAGE_TAG ∨ filter = 0.

Definition listens_toc (filter : Z) : bool := Z.testbit filter 26.

(** The scan gets as far as its loop: the flag is set, the element is
    created, both state changes succeed and the track count is known. *)
Definition reaches_loop (this : CddaSongLoader) (w : World) (N : Z) : Prop :=
  may_load_ this = true ∧ cdiocddasrc_created w = true ∧
  state_ready_fails w = false ∧ state_paused_fails w = false ∧
  track_count w = Some N.

(** What the loop does once the body has returned in state [st]: test the
    condition, and wait again or leave. *)
Definition continue (url_ : QUrl) (num_tracks : Z) (later : list WorldEvent)
    (st : ScanState) : Run ScanState :=
  if loop_condition st
  then tell WaitBegin;; wait_events url_ num_tracks later st
  else mret st.

(** The signals that follow the loop, from the state it ends in. *)
Definition closing_signals (st : ScanState) : list Signal :=
  (if loaded_cd_tags st then [SongsMetadataLoaded (tagged_song_list st)] else [])
  ++ (if isEmpty (musicbrainz_discid st) then []
      else [MusicBrainzDiscIdLoaded (musicbrainz_discid st)]).

(** The times of an entry are [gint64] values whose difference is one. *)
Definition times_fit (entry : GstTocEntry) : Prop :=
  match start_stop_times entry with
  | Some (start, stop) =>
      - 2 ^ 63 ≤ start < 2 ^ 63 ∧ - 2 ^ 63 ≤ stop < 2 ^ 63 ∧
      - 2 ^ 63 ≤ stop - start < 2 ^ 63
  | None => True
  end.

(** The duration an entry stands for: stop minus start, or 0 when the
    entry has no times. *)
Definition entry_duration (entry : GstTocEntry) : Z :=
  match start_stop_times entry with
  | Some (start, stop) => stop - start
  | None => 0
  end.

(** The disc identifier a message carries, as the scan reads it. *)
Definition discid_field (msg : GstMessage) : option string :=
  match msg with
  | TagMessage tags => gst_tag_list_get_string tags GST_TAG_CDDA_MUSICBRAINZ_DISCID
  | TocMessage _ => None
  end.

(** The first disc identifier among the messages, in order. *)
Definition first_discid (msgs : list GstMessage) : option string :=
  head (omap discid_field msgs).

(** [musicbrainz_discid] after a tag event, from its value before. *)
Definition discid_after (tags : GstTagList) (discid : string) : string :=
  if isEmpty discid
  then default "" (gst_tag_list_get_string tags GST_TAG_CDDA_MUSICBRAINZ_DISCID)
  else discid.

(** [musicbrainz_discid] after a run of the loop that handled [msgs], from
    its value before. *)
Definition discid_after_all (msgs : list GstMessage) (discid : string) : string :=
  if isEmpty discid then default "" (first_discid msgs) else discid.

(** The line logged when [musicbrainz_discid] is assigned, if it is. *)
Definition discid_log (seen : option string) : list string :=
  match seen with
  | Some d => ["MusicBrainz discid: " +:+ d]
  | None => []
  end.

Definition is_tag_message (msg : GstMessage) : bool :=
  match msg with
  | TagMessage _ => true
  | TocMessage _ => false
  end.

Definition has_string (tags : GstTagList) (tag : Tag) : bool :=
  match gst_tag_list_get_string tags tag with
  | Some _ => true
  | None => false
  end.

(** The tags hold one of the six fields [ParseSongTags] reads into a
    song. *)
Definition carries_metadata (tags : GstTagList) : bool :=
  has_string tags GST_TAG_ALBUM || has_string tags GST_TAG_ALBUM_ARTIST
  || has_string tags GST_TAG_GENRE || has_string tags GST_TAG_ARTIST
  || has_string tags GST_TAG_TITLE
  || match gst_tag_list_get_uint64 tags GST_TAG_DURATION with
     | Some _ => true
     | None => false
     end.

(** A tag event from which [ParseSongTags], if it returns, has read a
    field: it names its track and carries one of the six. *)
Definition harvests (msg : GstMessage) : bool :=
  match msg with
  | TagMessage tags =>
      match gst_tag_list_get_uint tags GST_TAG_TRACK_NUMBER with
      | Some _ => carries_metadata tags
      | None => false
      end
  | TocMessage _ => false
  end.

(** ** Sample drives, discs and events *)

Definition default_drive : CddaSongLoader := {| url_ := None; may_load_ := true |}.

(** A loader whose destructor has run. *)
Definition destroyed_loader : CddaSongLoader := {| url_ := None; may_load_ := false |}.

(** A disc of [n] tracks on a working drive, with the events [events]. *)
Definition disc (n : Z) (events : list WorldEvent) : World :=
  {| cdiocddasrc_created := true;
     state_ready_fails := false;
     state_paused_fails := false;
     track_count := Some n;
     loaded_cd_tags_initially := false;
     teardown_during_setup := false;
     timeline := events |}.

(** The same, with [true] found in [loaded_cd_tags] when the loop starts. *)
Definition disc_with_stale_flag (n : Z) (events : list WorldEvent) : World :=
  {| cdiocddasrc_created := true;
     state_ready_fails := false;
     state_paused_fails := false;
     track_count := Some n;
     loaded_cd_tags_initially := true;
     teardown_during_setup := false;
     timeline := events |}.

(** A drive on which [gst_element_set_state(cdda_, GST_STATE_READY)]
    fails: no disc, or no such device. *)
Definition no_disc : World :=
  {| cdiocddasrc_created := true;
     state_ready_fails := true;
     state_paused_fails := false;
     track_count := None;
     loaded_cd_tags_initially := false;
     teardown_during_setup := false;
     timeline := [] |}.

(** A drive whose element reaches the paused state and does not answer the
    track-count query. *)
Definition no_track_count : World :=
  {| cdiocddasrc_created := true;
     state_ready_fails := false;
     state_paused_fails := false;
     track_count := None;
     loaded_cd_tags_initially := false;
     teardown_during_setup := false;
     timeline := [] |}.

Definition entry (start stop : Z) : GstTocEntry :=
  {| start_stop_times := Some (start, stop) |}.

(** [GST_SECOND], in nanoseconds. *)
Definition second : Z := 1000000000.

(** Three tracks of 180, 210 and 195 seconds. *)
Definition three_track_toc : GstToc :=
  {| gst_toc_get_entries :=
       [entry 0 (180 * second); entry (180 * second) (390 * second);
        entry (390 * second) (585 * second)] |}.

Definition two_entry_toc : GstToc :=
  {| gst_toc_get_entries := [entry 0 (180 * second);
                             entry (180 * second) (390 * second)] |}.

Definition empty_toc : GstToc := {| gst_toc_get_entries := [] |}.

(** The CD-TEXT of one track, with the disc identifier. *)
Definition cd_text (track : Z) (title discid : string) : GstTagList :=
  [(GST_TAG_TRACK_NUMBER, VUInt track); (GST_TAG_TITLE, VString title);
   (GST_TAG_CDDA_MUSICBRAINZ_DISCID, VString discid)].

(** A tag event that names no track, and one that names track 0. *)
Definition tags_without_number : GstTagList := [(GST_TAG_TITLE, VString "Intro")].
Definition tags_of_track_zero : GstTagList :=
  [(GST_TAG_TRACK_NUMBER, VUInt 0); (GST_TAG_TITLE, VString "Intro")].

(** Two tag events, each with a disc identifier of its own. *)
Definition two_discids : list WorldEvent :=
  [Posted (TagMessage (cd_text 1 "One" "first-id")) 0;
   Posted (TagMessage (cd_text 2 "Two" "second-id")) 1].

(** The destructor runs while the scan waits for its first message; the
    tags of both tracks follow. *)
Definition teardown_during_first_wait : list WorldEvent :=
  Teardown :: two_discids.

(** The tags of the first track arrive, then the destructor runs. *)
Definition teardown_after_first_tags : list WorldEvent :=
  [Posted (TagMessage (cd_text 1 "One" "first-id")) 0; Teardown].

Definition lookup_result (title : string) (msec year : Z) : MusicBrainzClient.Result :=
  {| MusicBrainzClient.title_ := title;
     MusicBrainzClient.duration_msec_ := msec;
     MusicBrainzClient.year_ := year |}.


(** ** More vocabulary: tag events in range *)

(** The value a string field of the event gives an attribute: the field,
    or the attribute as it was. *)
Definition merged (tags : GstTagList) (tag : Tag) (before : string) : string :=
  default before (gst_tag_list_get_string tags tag).

Definition merged_duration (tags : GstTagList) (before : Z) : Z :=
  default before (to_qint64 <$> gst_tag_list_get_uint64 tags GST_TAG_DURATION).

(** ** More vocabulary: the lists of a scan *)

(** The song at index [i] is the song of track [i + 1]: it has that track
    number and id, the URL of that track, the CD type and is valid. *)
Definition numbered (url_ : QUrl) (songs : SongList) : Prop :=
  ∀ (i : nat) song, songs !! i = Some song →
    song_track song = Z.of_nat i + 1 ∧ song_id song = Z.of_nat i + 1 ∧
    song_url song = GetUrlFromTrack url_ (Z.of_nat i + 1) ∧
    song_filetype song = Type_Cdda ∧ song_valid song = true.

Definition song_list_of (s : Signal) : option SongList :=
  match s with
  | SongsLoaded songs | SongsDurationLoaded songs | SongsMetadataLoaded songs =>
      Some songs
  | MusicBrainzDiscIdLoaded _ => None
  end.

(** The song lists a trace emits, whatever the signal. *)
Definition emitted_lists (t : list Action) : list SongList :=
  omap song_list_of (signals t).

(** The tags of an event read into the song its track number names. *)
Definition read_tags (url_ : QUrl) (songs : SongList) (tags : GstTagList) : SongList :=
  match gst_tag_list_get_uint tags GST_TAG_TRACK_NUMBER with
  | Some n =>
      match songs !! Z.to_nat (n - 1) with
      | Some song =>
          <[Z.to_nat (n - 1) := identify url_ n (harvest tags song).1]> songs
      | None => songs
      end
  | None => songs
  end.

(** What a handled message does to the tag-enriched list: a table of
    contents has no part in it. *)
Definition read_message (url_ : QUrl) (songs : SongList) (msg : GstMessage)
    : SongList :=
  match msg with
  | TagMessage tags => read_tags url_ songs tags
  | TocMessage _ => songs
  end.

(** A message fits a disc of [N] tracks: a table of contents has no more
    entries than the disc has tracks, a tag event names no track or one
    of the disc. *)
Definition fits_disc (N : Z) (msg : GstMessage) : bool :=
  match msg with
  | TocMessage None => true
  | TocMessage (Some toc) =>
      Z.of_nat (length (gst_toc_get_entries toc)) <=? Z.max 0 N
  | TagMessage tags =>
      match gst_tag_list_get_uint tags GST_TAG_TRACK_NUMBER with
      | Some n => (1 <=? n) && (n <=? N)
      | None => true
      end
  end.

(** The lists of the loop are those of a disc of [N] tracks. *)
Definition lists_of_disc (url_ : QUrl) (N : Z) (st : ScanState) : Prop :=
  length (initial_song_list st) = Z.to_nat N ∧
  length (tagged_song_list st) = Z.to_nat N ∧
  numbered url_ (initial_song_list st) ∧
  numbered url_ (tagged_song_list st).

(** The run returned, and did not stop at a fault. *)
Definition returned {A} (r : Run A) : bool :=
  match outcome r with
  | Done _ => true
  | Crash _ => false
  end.

(** ** More vocabulary: seeks *)

Definition seek_of (a : Action) : option Z :=
  match a with
  | Seek track => Some track
  | _ => None
  end.

(** The tracks the scan seeks to, in order. *)
Definition seeks (t : list Action) : list Z := omap seek_of t.

Definition listens_tag (filter : Z) : bool := Z.testbit filter 4.

(** The tag events among the handled messages. *)
Definition handled_tags (t : list Action) : list GstMessage :=
  filter (λ msg, is_tag_message msg = true) (handled t).
(** * Properties *)

(** ** The trace monad *)

Section run_monad.
Context {A B : Type}.
Implicit Types (m : Run A) (k : A → Run B).

Lemma bind_unfold m k :
  m ≫= k =
  match outcome m with
  | Done a => (trace m ++ trace (k a), outcome (k a))
  | Crash f => (trace m, Crash f)
  end.
Proof.
  destruct m as [t [a|f]]; simpl; [|reflexivity].
  unfold mbind, Run_bind. destruct (k a); reflexivity.
Qed.

Lemma bind_done m k t a :
  m = (t, Done a) → m ≫= k = (t ++ trace (k a), outcome (k a)).
Proof. intros ->. apply bind_unfold. Qed.

Lemma bind_crash m k t f :
  m = (t, Crash f) → m ≫= k = (t, Crash f).
Proof. intros ->. reflexivity. Qed.

Lemma bind_ret (a : A) k : mret a ≫= k = k a.
Proof.
  rewrite bind_unfold. simpl. destruct (k a); reflexivity.
Qed.
End run_monad.

Lemma tell_then {B} (a : Action) (r : Run B) :
  (tell a;; r) = (a :: trace r, outcome r).
Proof. unfold tell. rewrite bind_unfold. reflexivity. Qed.

Lemma signals_app (t1 t2 : list Action) :
  signals (t1 ++ t2) = signals t1 ++ signals t2.
Proof. apply omap_app. Qed.

Lemma handled_app (t1 t2 : list Action) :
  handled (t1 ++ t2) = handled t1 ++ handled t2.
Proof. apply omap_app. Qed.

(** ** Indexing and the duration loop *)

Lemma QList_at_middle (pre rest : SongList) (song : Song) :
  QList_at (pre ++ song :: rest) (Z.of_nat (length pre)) = ([], Done song).
Proof.
  unfold QList_at.
  destruct (Z.leb_spec 0 (Z.of_nat (length pre))) as [_|]; [|exfalso; lia].
  rewrite Nat2Z.id, list_lookup_middle by reflexivity. reflexivity.
Qed.

Lemma QList_at_out_of_range (songs : SongList) (i : Z) :
  i < 0 ∨ QList_size songs ≤ i →
  QList_at songs i = ([], Crash (IndexOutOfRange i (QList_size songs))).
Proof.
  intros H. unfold QList_at, QList_size in *.
  destruct (Z.leb_spec 0 i); [|reflexivity].
  rewrite lookup_ge_None_2 by lia. reflexivity.
Qed.

Lemma set_durations_fits (entries : list GstTocEntry) :
  ∀ pre songs : SongList,
    (length entries ≤ length songs)%nat →
    set_durations entries (Z.of_nat (length pre)) (pre ++ songs) =
    ([], Done (pre ++ zip_with enrich entries songs ++ drop (length entries) songs)).
Proof.
  induction entries as [|entry next IH]; intros pre songs Hlen.
  - reflexivity.
  - destruct songs as [|song rest]; simpl in Hlen; [lia|].
    cbn [set_durations].
    rewrite (bind_done _ _ [] song) by apply QList_at_middle.
    rewrite Nat2Z.id.
    replace (<[length pre:=_]> (pre ++ song :: rest))
      with ((pre ++ [enrich entry song]) ++ rest).
    2:{ rewrite insert_app_r_alt, Nat.sub_diag, <- app_assoc by lia.
        reflexivity. }
    replace (Z.of_nat (length pre) + 1)
      with (Z.of_nat (length (pre ++ [enrich entry song])))
      by (rewrite length_app; simpl; lia).
    rewrite IH by lia. simpl. rewrite <- app_assoc. reflexivity.
Qed.

Lemma set_durations_overrun (entries : list GstTocEntry) :
  ∀ pre songs : SongList,
    (length songs < length entries)%nat →
    set_durations entries (Z.of_nat (length pre)) (pre ++ songs) =
    ([], Crash (IndexOutOfRange (Z.of_nat (length pre + length songs))
                                (Z.of_nat (length pre + length songs)))).
Proof.
  induction entries as [|entry next IH]; intros pre songs Hlen;
    [simpl in Hlen; lia|].
  cbn [set_durations]. destruct songs as [|song rest].
  - rewrite app_nil_r. simpl. rewrite Nat.add_0_r.
    erewrite bind_crash; [reflexivity|].
    apply QList_at_out_of_range. unfold QList_size. lia.
  - rewrite (bind_done _ _ [] song) by apply QList_at_middle.
    rewrite Nat2Z.id.
    replace (<[length pre:=_]> (pre ++ song :: rest))
      with ((pre ++ [enrich entry song]) ++ rest).
    2:{ rewrite insert_app_r_alt, Nat.sub_diag, <- app_assoc by lia.
        reflexivity. }
    replace (Z.of_nat (length pre) + 1)
      with (Z.of_nat (length (pre ++ [enrich entry song])))
      by (rewrite length_app; simpl; lia).
    simpl in Hlen. rewrite IH by lia. simpl.
    rewrite length_app. simpl.
    replace (length pre + 1 + length rest)%nat
      with (length pre + S (length rest))%nat by lia.
    reflexivity.
Qed.

Lemma ParseSongTags_cases (url_ : QUrl) (songs : list Song) (tags : GstTagList) :
  (gst_tag_list_get_uint tags GST_TAG_TRACK_NUMBER = None ∧
   ParseSongTags url_ songs tags =
   ([Log Error track_number_missing], Done (songs, false)))
  ∨ (∃ f, ParseSongTags url_ songs tags = ([], Crash f))
  ∨ (∃ track_number index song,
       gst_tag_list_get_uint tags GST_TAG_TRACK_NUMBER = Some track_number ∧
       songs !! index = Some song ∧
       ParseSongTags url_ songs tags =
       ([LogTags tags],
        Done (<[index := identify url_ track_number (harvest tags song).1]> songs,
              (harvest tags song).2))).
Proof.
  unfold ParseSongTags.
  destruct (gst_tag_list_get_uint tags GST_TAG_TRACK_NUMBER) as [tn|];
    [|left; split; reflexivity].
  right.
  destruct (negb (tn =? 0)); [|left; eexists; reflexivity].
  destruct (to_int tn <=? QList_size songs); [|left; eexists; reflexivity].
  cbn [Q_ASSERT]. rewrite !bind_ret.
  unfold QList_at.
  destruct (0 <=? to_int (to_guint (tn - 1)));
    [|left; eexists; reflexivity].
  destruct (songs !! Z.to_nat (to_int (to_guint (tn - 1)))) as [song|] eqn:Hsong;
    [|left; eexists; reflexivity].
  right. exists tn, (Z.to_nat (to_int (to_guint (tn - 1)))), song.
  rewrite bind_ret, tell_then.
  destruct (harvest tags song) as [song' has]. repeat split; auto.
Qed.

Lemma quiet_signals (t : list Action) : quiet t → signals t = [].
Proof.
  induction 1 as [|a t Ha _ IH]; [reflexivity|].
  destruct a; try contradiction; exact IH.
Qed.

Lemma quiet_handled (t : list Action) : quiet t → handled t = [].
Proof.
  induction 1 as [|a t Ha _ IH]; [reflexivity|].
  destruct a; try contradiction; exact IH.
Qed.

Lemma quiet_no_wait (t : list Action) : quiet t → WaitBegin ∉ t.
Proof.
  intros H Hin. unfold quiet in H. rewrite Forall_forall in H.
  exact (H _ Hin).
Qed.

Lemma quiet_no_teardown (t : list Action) : quiet t → MayLoadCleared ∉ t.
Proof.
  intros H Hin. unfold quiet in H. rewrite Forall_forall in H.
  exact (H _ Hin).
Qed.

Lemma ParseSongTags_quiet (url_ : QUrl) (songs : list Song) (tags : GstTagList) :
  quiet (trace (ParseSongTags url_ songs tags)).
Proof.
  destruct (ParseSongTags_cases url_ songs tags)
    as [[_ ->]|[[f ->]|(tn & i & song & _ & _ & ->)]];
    repeat constructor.
Qed.

Lemma handle_toc_rejected (toc : GstToc) (st : ScanState) :
  gst_toc_get_entries toc = [] ∨
  (length (gst_toc_get_entries toc) < length (initial_song_list st))%nat →
  handle_toc (Some toc) st = ([], Done st).
Proof.
  intros H. unfold handle_toc.
  destruct (gst_toc_get_entries toc) as [|e es] eqn:He; [reflexivity|].
  destruct H as [H|H]; [congruence|]. rewrite ?He in H.
  cbn [is_null negb andb]. unfold QList_size.
  destruct (Z.leb_spec (Z.of_nat (length (initial_song_list st)))
                       (Z.of_nat (length (e :: es))));
    [exfalso; lia|reflexivity].
Qed.

Lemma handle_toc_accepted (toc : GstToc) (st : ScanState) :
  gst_toc_get_entries toc ≠ [] →
  length (gst_toc_get_entries toc) = length (initial_song_list st) →
  handle_toc (Some toc) st =
  let songs := zip_with enrich (gst_toc_get_entries toc) (initial_song_list st) in
  ([Emit (SongsDurationLoaded songs)], Done (with_toc_done songs st)).
Proof.
  intros Hne Hlen. unfold handle_toc.
  destruct (gst_toc_get_entries toc) as [|e es] eqn:He; [congruence|].
  rewrite ?He in Hlen.
  cbn [is_null negb andb]. unfold QList_size.
  destruct (Z.leb_spec (Z.of_nat (length (initial_song_list st)))
                       (Z.of_nat (length (e :: es))));
    [|exfalso; simpl in *; lia].
  pose proof (set_durations_fits (e :: es) [] (initial_song_list st)
                ltac:(rewrite Hlen; reflexivity)) as Hfit.
  rewrite (bind_done _ _ _ _ Hfit).
  rewrite Hlen, drop_all, app_nil_r.
  unfold emit. rewrite tell_then. reflexivity.
Qed.

Lemma handle_toc_overrun (toc : GstToc) (st : ScanState) :
  (length (initial_song_list st) < length (gst_toc_get_entries toc))%nat →
  handle_toc (Some toc) st =
  ([], Crash (IndexOutOfRange (QList_size (initial_song_list st))
                              (QList_size (initial_song_list st)))).
Proof.
  intros Hlen. unfold handle_toc.
  destruct (gst_toc_get_entries toc) as [|e es] eqn:He;
    [rewrite ?He in Hlen; simpl in Hlen; lia|].
  rewrite ?He in Hlen.
  cbn [is_null negb andb]. unfold QList_size.
  destruct (Z.leb_spec (Z.of_nat (length (initial_song_list st)))
                       (Z.of_nat (length (e :: es))));
    [|exfalso; simpl in *; lia].
  rewrite (bind_crash _ _ _ _
             (set_durations_overrun (e :: es) [] (initial_song_list st) Hlen)).
  reflexivity.
Qed.

(** Every table-of-contents event is rejected, accepted or runs past the
    end of the list. *)
Lemma handle_toc_cases (toc : option GstToc) (st : ScanState) :
  handle_toc toc st = ([], Done st)
  ∨ (∃ songs, handle_toc toc st =
              ([Emit (SongsDurationLoaded songs)], Done (with_toc_done songs st)))
  ∨ (∃ f, handle_toc toc st = ([], Crash f)).
Proof.
  destruct toc as [toc|]; [|left; reflexivity].
  destruct (gst_toc_get_entries toc) as [|e es] eqn:He.
  { left. apply handle_toc_rejected. left. exact He. }
  destruct (lt_eq_lt_dec (length (gst_toc_get_entries toc))
                         (length (initial_song_list st))) as [[Hlt|Heq]|Hgt].
  - left. apply handle_toc_rejected. right. exact Hlt.
  - right. left. eexists. apply handle_toc_accepted; [congruence|exact Heq].
  - right. right. eexists. apply handle_toc_overrun. exact Hgt.
Qed.

Lemma read_discid_cases (tags : GstTagList) (st : ScanState) :
  (read_discid tags st = ([], Done st) ∧
   (isEmpty (musicbrainz_discid st) = false ∨
    gst_tag_list_get_string tags GST_TAG_CDDA_MUSICBRAINZ_DISCID = None))
  ∨ (∃ d, isEmpty (musicbrainz_discid st) = true ∧
          gst_tag_list_get_string tags GST_TAG_CDDA_MUSICBRAINZ_DISCID = Some d ∧
          read_discid tags st =
          ([Log Info ("MusicBrainz discid: " +:+ d)], Done (with_discid d st))).
Proof.
  unfold read_discid.
  destruct (isEmpty (musicbrainz_discid st)); [|left; auto].
  destruct (gst_tag_list_get_string tags GST_TAG_CDDA_MUSICBRAINZ_DISCID) as [d|];
    [right|left; auto].
  exists d. split; [reflexivity|]. split; reflexivity.
Qed.

Lemma next_track_cases (num_tracks position : Z) (st : ScanState) :
  (∃ k, next_track num_tracks position st = ([Seek k], Done st))
  ∨ next_track num_tracks position st = ([], Done (with_tag_done st)).
Proof.
  unfold next_track.
  destruct (to_gint64 (to_gint64 position + 1) <? num_tracks); [left|right; reflexivity].
  eexists. rewrite tell_then. reflexivity.
Qed.

(** The loop body as a whole: what it writes, and where it leaves the
    state when it returns. *)
Lemma handle_tag_unfold (url_ : QUrl) (num_tracks : Z) (tags : GstTagList)
    (position : Z) (st : ScanState) :
  ∃ t0 st0, read_discid tags st = (t0, Done st0) ∧
    handle_tag url_ num_tracks tags position st =
    match outcome (ParseSongTags url_ (tagged_song_list st0) tags) with
    | Done (songs, loaded) =>
        let r := next_track num_tracks position
                   (with_tags songs (loaded_cd_tags st0 || loaded) st0) in
        (t0 ++ trace (ParseSongTags url_ (tagged_song_list st0) tags) ++ trace r,
         outcome r)
    | Crash f =>
        (t0 ++ trace (ParseSongTags url_ (tagged_song_list st0) tags), Crash f)
    end.
Proof.
  unfold handle_tag.
  destruct (read_discid_cases tags st) as [[H _]|(d & _ & _ & H)];
    rewrite H; eexists _, _; (split; [reflexivity|]);
    rewrite (bind_done _ _ _ _ eq_refl), bind_unfold.
  - destruct (outcome (ParseSongTags url_ (tagged_song_list st) tags))
      as [[songs loaded]|f]; reflexivity.
  - destruct (outcome (ParseSongTags url_ (tagged_song_list (with_discid d st)) tags))
      as [[songs loaded]|f]; reflexivity.
Qed.

Lemma infos_app (t1 t2 : list Action) : infos (t1 ++ t2) = infos t1 ++ infos t2.
Proof. apply omap_app. Qed.

Lemma isEmpty_true (s : string) : isEmpty s = true → s = "".
Proof. destruct s; [reflexivity|discriminate]. Qed.

Lemma ParseSongTags_infos (url_ : QUrl) (songs : list Song) (tags : GstTagList) :
  infos (trace (ParseSongTags url_ songs tags)) = [].
Proof.
  destruct (ParseSongTags_cases url_ songs tags)
    as [[_ ->]|[[f ->]|(tn & i & song & _ & _ & ->)]]; reflexivity.
Qed.

Lemma next_track_trace (num_tracks position : Z) (st : ScanState) :
  quiet (trace (next_track num_tracks position st)) ∧
  infos (trace (next_track num_tracks position st)) = [].
Proof.
  destruct (next_track_cases num_tracks position st) as [[k ->]| ->];
    split; repeat constructor.
Qed.

(** What the tag branch writes, however it ends: bookkeeping only, and one
    [Info] line exactly when it assigns the disc identifier. *)
Lemma handle_tag_trace (url_ : QUrl) (num_tracks : Z) (tags : GstTagList)
    (position : Z) (st : ScanState) :
  quiet (trace (handle_tag url_ num_tracks tags position st)) ∧
  infos (trace (handle_tag url_ num_tracks tags position st)) =
  (if isEmpty (musicbrainz_discid st)
   then match gst_tag_list_get_string tags GST_TAG_CDDA_MUSICBRAINZ_DISCID with
        | Some d => ["MusicBrainz discid: " +:+ d]
        | None => []
        end
   else []).
Proof.
  destruct (handle_tag_unfold url_ num_tracks tags position st)
    as (t0 & st0 & H0 & ->).
  assert (quiet t0 ∧
          infos t0 =
          (if isEmpty (musicbrainz_discid st)
           then match gst_tag_list_get_string tags GST_TAG_CDDA_MUSICBRAINZ_DISCID with
                | Some d => ["MusicBrainz discid: " +:+ d]
                | None => []
                end
           else [])) as [Hq0 Hi0].
  { destruct (read_discid_cases tags st) as [[H [He|Hn]]|(d & He & Hd & H)];
      rewrite H in H0; inversion H0; subst; clear H0.
    - rewrite He. split; constructor.
    - rewrite Hn. destruct (isEmpty _); split; constructor.
    - rewrite He, Hd. split; repeat constructor. }
  pose proof (ParseSongTags_quiet url_ (tagged_song_list st0) tags) as Hqp.
  pose proof (ParseSongTags_infos url_ (tagged_song_list st0) tags) as Hip.
  destruct (outcome (ParseSongTags url_ (tagged_song_list st0) tags))
    as [[songs loaded]|f]; cbn [trace outcome fst snd].
  - destruct (next_track_trace num_tracks position
                (with_tags songs (loaded_cd_tags st0 || loaded) st0)) as [Hqn Hin].
    split.
    + unfold quiet in *. rewrite !Forall_app. auto.
    + rewrite !infos_app, Hip, Hin, !app_nil_r. exact Hi0.
  - split.
    + unfold quiet in *. rewrite !Forall_app. auto.
    + rewrite !infos_app, Hip, !app_nil_r. exact Hi0.
Qed.

(** Where the tag branch leaves the state when it returns. *)
Lemma handle_tag_done (url_ : QUrl) (num_tracks : Z) (tags : GstTagList)
    (position : Z) (st st1 : ScanState) (tb : list Action) :
  handle_tag url_ num_tracks tags position st = (tb, Done st1) →
  initial_song_list st1 = initial_song_list st ∧
  may_load st1 = may_load st ∧
  (msg_filter st1 = msg_filter st ∨
   msg_filter st1 = Z.lxor (msg_filter st) GST_MESSAGE_TAG) ∧
  musicbrainz_discid st1 = discid_after tags (musicbrainz_discid st) ∧
  ∃ loaded,
    outcome (ParseSongTags url_ (tagged_song_list st) tags)
    = Done (tagged_song_list st1, loaded) ∧
    loaded_cd_tags st1 = loaded_cd_tags st || loaded.
Proof.
  destruct (handle_tag_unfold url_ num_tracks tags position st)
    as (t0 & st0 & H0 & ->).
  assert (initial_song_list st0 = initial_song_list st ∧
          tagged_song_list st0 = tagged_song_list st ∧
          may_load st0 = may_load st ∧ msg_filter st0 = msg_filter st ∧
          loaded_cd_tags st0 = loaded_cd_tags st ∧
          musicbrainz_discid st0 = discid_after tags (musicbrainz_discid st))
    as (Hi & Ht & Hm & Hf & Hl & Hd).
  { unfold discid_after.
    destruct (read_discid_cases tags st) as [[H [He|Hn]]|(d & He & Hg & H)];
      rewrite H in H0; inversion H0; subst; clear H0; repeat split.
    - rewrite He. reflexivity.
    - rewrite Hn. destruct (isEmpty (musicbrainz_discid st0)) eqn:He;
        [apply isEmpty_true in He; exact He|reflexivity].
    - rewrite He, Hg. reflexivity. }
  rewrite Ht.
  destruct (outcome (ParseSongTags url_ (tagged_song_list st) tags))
    as [[songs loaded]|f]; [|discriminate].
  intros H. cbn zeta in H.
  destruct (next_track_cases num_tracks position
              (with_tags songs (loaded_cd_tags st0 || loaded) st0))
    as [[k Hn]|Hn]; rewrite Hn in H; inversion H; subst; clear H;
    cbn; rewrite ?Hi, ?Hm, ?Hf, ?Hl, ?Hd; repeat split; eauto.
Qed.

(** ** The event loop, case by case *)

Section event_loop.
Variables (url_ : QUrl) (num_tracks : Z).

Lemma wait_events_teardown (later : list WorldEvent) (st : ScanState) :
  wait_events url_ num_tracks (Teardown :: later) st =
  let r := wait_events url_ num_tracks later (with_may_load false st) in
  (MayLoadCleared :: trace r, outcome r).
Proof. cbn [wait_events]. apply tell_then. Qed.

Lemma wait_events_dropped (msg : GstMessage) (position : Z)
    (later : list WorldEvent) (st : ScanState) :
  passes_filter msg (msg_filter st) = false →
  wait_events url_ num_tracks (Posted msg position :: later) st =
  wait_events url_ num_tracks later st.
Proof. intros H. cbn [wait_events]. rewrite H. reflexivity. Qed.

Lemma wait_events_crash (msg : GstMessage) (position : Z)
    (later : list WorldEvent) (st : ScanState) (tb : list Action) (f : Fault) :
  passes_filter msg (msg_filter st) = true →
  loop_body url_ num_tracks msg position st = (tb, Crash f) →
  wait_events url_ num_tracks (Posted msg position :: later) st =
  (Handle msg :: tb, Crash f).
Proof.
  intros Hp Hb. cbn [wait_events]. rewrite Hp, tell_then.
  rewrite (bind_crash _ _ _ _ Hb). reflexivity.
Qed.

Lemma wait_events_last (msg : GstMessage) (position : Z)
    (later : list WorldEvent) (st st1 : ScanState) (tb : list Action) :
  passes_filter msg (msg_filter st) = true →
  loop_body url_ num_tracks msg position st = (tb, Done st1) →
  loop_condition st1 = false →
  wait_events url_ num_tracks (Posted msg position :: later) st =
  (Handle msg :: tb, Done st1).
Proof.
  intros Hp Hb Hc. cbn [wait_events]. rewrite Hp, tell_then.
  rewrite (bind_done _ _ _ _ Hb), Hc. simpl. rewrite app_nil_r. reflexivity.
Qed.

Lemma wait_events_next (msg : GstMessage) (position : Z)
    (later : list WorldEvent) (st st1 : ScanState) (tb : list Action) :
  passes_filter msg (msg_filter st) = true →
  loop_body url_ num_tracks msg position st = (tb, Done st1) →
  loop_condition st1 = true →
  wait_events url_ num_tracks (Posted msg position :: later) st =
  let r := wait_events url_ num_tracks later st1 in
  (Handle msg :: tb ++ WaitBegin :: trace r, outcome r).
Proof.
  intros Hp Hb Hc. cbn [wait_events]. rewrite Hp, tell_then.
  rewrite (bind_done _ _ _ _ Hb), Hc, tell_then. reflexivity.
Qed.

(** Induction over a run of the loop: the wait times out, the flag is
    cleared during the wait, or a message is handled and the body
    faults, ends the loop or leads to the next wait.  Dropped messages
    leave no case. *)
Lemma wait_events_induction (P : ScanState → Run ScanState → Prop) :
  (∀ st, P st ([], Done st)) →
  (∀ st later,
      let r := wait_events url_ num_tracks later (with_may_load false st) in
      P (with_may_load false st) r →
      P st (MayLoadCleared :: trace r, outcome r)) →
  (∀ st msg position tb f,
      passes_filter msg (msg_filter st) = true →
      loop_body url_ num_tracks msg position st = (tb, Crash f) →
      P st (Handle msg :: tb, Crash f)) →
  (∀ st msg position tb st1,
      passes_filter msg (msg_filter st) = true →
      loop_body url_ num_tracks msg position st = (tb, Done st1) →
      loop_condition st1 = false →
      P st (Handle msg :: tb, Done st1)) →
  (∀ st msg position tb st1 later,
      let r := wait_events url_ num_tracks later st1 in
      passes_filter msg (msg_filter st) = true →
      loop_body url_ num_tracks msg position st = (tb, Done st1) →
      loop_condition st1 = true →
      P st1 r →
      P st (Handle msg :: tb ++ WaitBegin :: trace r, outcome r)) →
  ∀ events st, P st (wait_events url_ num_tracks events st).
Proof.
  intros Htimeout Hteardown Hcrash Hlast Hnext.
  intros events. induction events as [|[msg position|] later IH]; intros st.
  - apply Htimeout.
  - destruct (passes_filter msg (msg_filter st)) eqn:Hp.
    + destruct (loop_body url_ num_tracks msg position st) as [tb [st1|f]] eqn:Hb.
      * destruct (loop_condition st1) eqn:Hc.
        -- rewrite (wait_events_next _ _ _ _ _ _ Hp Hb Hc).
           eapply Hnext; eauto.
        -- rewrite (wait_events_last _ _ _ _ _ _ Hp Hb Hc).
           eapply Hlast; eauto.
      * rewrite (wait_events_crash _ _ _ _ _ _ Hp Hb). eapply Hcrash; eauto.
    + rewrite (wait_events_dropped _ _ _ _ Hp). apply IH.
  - rewrite wait_events_teardown. apply Hteardown, IH.
Qed.
End event_loop.

(** ** The message filter *)

Lemma filter_toc_done (f : Z) (toc : option GstToc) :
  filter_wf f → passes_filter (TocMessage toc) f = true →
  listens_toc f = true ∧
  filter_wf (Z.lxor f GST_MESSAGE_TOC) ∧
  listens_toc (Z.lxor f GST_MESSAGE_TOC) = false.
Proof.
  intros [->|[->|[->| ->]]] H; vm_compute in H; try discriminate;
    (split; [reflexivity|]); (split; [|reflexivity]);
    unfold filter_wf; vm_compute; auto.
Qed.

Lemma filter_tag_done (f : Z) (tags : GstTagList) :
  filter_wf f → passes_filter (TagMessage tags) f = true →
  filter_wf (Z.lxor f GST_MESSAGE_TAG) ∧
  listens_toc (Z.lxor f GST_MESSAGE_TAG) = listens_toc f.
Proof.
  intros [->|[->|[->| ->]]] H; vm_compute in H; try discriminate;
    (split; [|reflexivity]); unfold filter_wf; vm_compute; auto.
Qed.

Lemma filter_wf_start : filter_wf (Z.lor GST_MESSAGE_TOC GST_MESSAGE_TAG).
Proof. left. reflexivity. Qed.

(** ** One iteration *)

Lemma quiet_body (t : list Action) : quiet t → Forall body_action t.
Proof.
  intros H. eapply Forall_impl; [exact H|].
  intros [] Ha; try contradiction; exact I.
Qed.

Section iteration.
Variables (url_ : QUrl) (num_tracks : Z).
Implicit Types (st : ScanState) (msg : GstMessage).

Lemma loop_body_actions msg position st :
  Forall body_action (trace (loop_body url_ num_tracks msg position st)).
Proof.
  destruct msg as [toc|tags]; cbn [loop_body].
  - destruct (handle_toc_cases toc st) as [->|[[songs ->]|[f ->]]];
      repeat constructor.
  - apply quiet_body, handle_tag_trace.
Qed.

Lemma loop_body_crash_quiet msg position st tb f :
  loop_body url_ num_tracks msg position st = (tb, Crash f) → quiet tb.
Proof.
  destruct msg as [toc|tags]; cbn [loop_body]; intros H.
  - destruct (handle_toc_cases toc st) as [H'|[[songs H']|[f' H']]];
      rewrite H' in H; inversion H; constructor.
  - pose proof (handle_tag_trace url_ num_tracks tags position st) as [Hq _].
    rewrite H in Hq. exact Hq.
Qed.

(** An iteration that returns is either quiet, and leaves the first list
    and the table-of-contents bit alone, or accepts a table of contents. *)
Lemma loop_body_step msg position st tb st1 :
  filter_wf (msg_filter st) →
  passes_filter msg (msg_filter st) = true →
  loop_body url_ num_tracks msg position st = (tb, Done st1) →
  filter_wf (msg_filter st1) ∧
  may_load st1 = may_load st ∧
  ((quiet tb ∧ initial_song_list st1 = initial_song_list st ∧
    listens_toc (msg_filter st1) = listens_toc (msg_filter st))
   ∨ (∃ toc songs,
        msg = TocMessage toc ∧ tb = [Emit (SongsDurationLoaded songs)] ∧
        handle_toc toc st = (tb, Done st1) ∧
        st1 = with_toc_done songs st ∧
        listens_toc (msg_filter st) = true ∧
        listens_toc (msg_filter st1) = false)).
Proof.
  intros Hwf Hp. destruct msg as [toc|tags]; cbn [loop_body]; intros H.
  - destruct (handle_toc_cases toc st) as [H'|[[songs H']|[f' H']]];
      pose proof H as Hcopy; rewrite H' in H; inversion H; subst; clear H.
    + split; [exact Hwf|]. split; [reflexivity|]. left.
      repeat split. constructor.
    + destruct (filter_toc_done _ _ Hwf Hp) as (Hl & Hwf' & Hl').
      split; [exact Hwf'|]. split; [reflexivity|]. right.
      exists toc, songs. repeat split; auto.
  - pose proof (handle_tag_trace url_ num_tracks tags position st) as [Hq _].
    rewrite H in Hq. cbn in Hq.
    destruct (handle_tag_done _ _ _ _ _ _ _ H) as (Hi & Hm & Hf & _).
    destruct (filter_tag_done _ _ Hwf Hp) as (Hwf' & Hl').
    destruct Hf as [Hf|Hf]; rewrite Hf.
    + split; [exact Hwf|]. split; [exact Hm|]. left. auto.
    + split; [exact Hwf'|]. split; [exact Hm|]. left. auto.
Qed.
End iteration.

(** ** The scan as a whole *)

Lemma scan_unfold (this : CddaSongLoader) (w : World) (N : Z) :
  reaches_loop this w N →
  LoadSongsFromCdda this w =
  let songs := make_initial_song_list (url_ this) N in
  let loop := event_loop (url_ this) N (timeline w) (start_state songs w) in
  match outcome loop with
  | Done st =>
      (Emit (SongsLoaded songs) :: trace loop ++ trace (emit_results st), Done tt)
  | Crash f => (Emit (SongsLoaded songs) :: trace loop, Crash f)
  end.
Proof.
  intros (H1 & H2 & H3 & H4 & H5). unfold LoadSongsFromCdda.
  rewrite H1, H2, H3, H4, H5. cbn [negb orb]. rewrite bind_ret.
  unfold emit at 1. rewrite tell_then, bind_unfold. cbn zeta.
  destruct (outcome (event_loop _ _ _ _)) as [st|f]; [|reflexivity].
  cbn [trace outcome fst snd]. f_equal.
  unfold emit_results, when, emit, tell.
  destruct (loaded_cd_tags st), (negb (isEmpty (musicbrainz_discid st)));
    reflexivity.
Qed.

Lemma scan_stopped (this : CddaSongLoader) (w : World) :
  (∀ N, ¬ reaches_loop this w N) →
  LoadSongsFromCdda this w = ([], Done tt) ∨
  (track_count w = None ∧
   LoadSongsFromCdda this w = ([Log Error track_count_query_failed], Done tt)).
Proof.
  intros H. unfold LoadSongsFromCdda, reaches_loop in *.
  destruct (may_load_ this); [|left; reflexivity].
  cbn [negb]. rewrite bind_ret.
  destruct (cdiocddasrc_created w); [|left; reflexivity].
  destruct (state_ready_fails w); [left; reflexivity|].
  destruct (state_paused_fails w); [left; reflexivity|].
  destruct (track_count w) as [N|]; [|right; split; reflexivity].
  exfalso. apply (H N). repeat split.
Qed.

Lemma reaches_loop_dec (this : CddaSongLoader) (w : World) :
  (∃ N, reaches_loop this w N) ∨ (∀ N, ¬ reaches_loop this w N).
Proof.
  unfold reaches_loop.
  destruct (may_load_ this); [|right; intros N (? & _); discriminate].
  destruct (cdiocddasrc_created w); [|right; intros N (_ & ? & _); discriminate].
  destruct (state_ready_fails w); [right; intros N (_ & _ & ? & _); discriminate|].
  destruct (state_paused_fails w);
    [right; intros N (_ & _ & _ & ? & _); discriminate|].
  destruct (track_count w) as [N|];
    [left; exists N; repeat split|right; intros N (_ & _ & _ & _ & ?); discriminate].
Qed.

Lemma emit_results_signals (st : ScanState) :
  signals (trace (emit_results st)) = closing_signals st.
Proof.
  unfold emit_results, closing_signals, when, emit, tell.
  destruct (loaded_cd_tags st), (isEmpty (musicbrainz_discid st)); reflexivity.
Qed.

(** ** The signals of the loop *)

Section loop_signals.
Variables (url_ : QUrl) (num_tracks : Z).

(** The loop emits the duration-enriched list at most once, and only
    while it listens for a table of contents. *)
Lemma wait_events_signals (events : list WorldEvent) (st : ScanState) :
  filter_wf (msg_filter st) →
  signals (trace (wait_events url_ num_tracks events st)) = [] ∨
  (listens_toc (msg_filter st) = true ∧
   ∃ songs, signals (trace (wait_events url_ num_tracks events st))
            = [SongsDurationLoaded songs]).
Proof.
  revert events st.
  apply (wait_events_induction url_ num_tracks
           (λ st r, filter_wf (msg_filter st) →
                    signals (trace r) = [] ∨
                    (listens_toc (msg_filter st) = true ∧
                     ∃ songs, signals (trace r) = [SongsDurationLoaded songs]))).
  - intros st _. left. reflexivity.
  - intros st later r IH Hwf. exact (IH Hwf).
  - intros st msg position tb f Hp Hb _. left.
    cbn. apply quiet_signals. eapply loop_body_crash_quiet, Hb.
  - intros st msg position tb st1 Hp Hb _ Hwf.
    destruct (loop_body_step _ _ _ _ _ _ _ Hwf Hp Hb)
      as (_ & _ & [(Hq & _)|(toc & songs & _ & -> & _ & _ & Hl & _)]).
    + left. cbn. apply quiet_signals, Hq.
    + right. split; [exact Hl|]. exists songs. reflexivity.
  - intros st msg position tb st1 later r Hp Hb _ IH Hwf.
    destruct (loop_body_step _ _ _ _ _ _ _ Hwf Hp Hb)
      as (Hwf1 & _ & [(Hq & _ & Hl)|(toc & songs & _ & -> & _ & _ & Hl & Hl1)]).
    + change (signals (trace (Handle msg :: tb ++ WaitBegin :: trace r, outcome r)))
        with (signals (tb ++ WaitBegin :: trace r)).
      rewrite signals_app, (quiet_signals _ Hq). cbn [app].
      change (signals (WaitBegin :: trace r)) with (signals (trace r)).
      rewrite <- Hl. exact (IH Hwf1).
    + right. split; [exact Hl|]. exists songs.
      destruct (IH Hwf1) as [Hr|[Hc _]]; [|congruence].
      change (signals (trace (Handle msg :: [Emit (SongsDurationLoaded songs)]
                                ++ WaitBegin :: trace r, outcome r)))
        with (SongsDurationLoaded songs :: signals (trace r)).
      rewrite Hr. reflexivity.
Qed.

Lemma event_loop_signals (events : list WorldEvent) (st : ScanState) :
  filter_wf (msg_filter st) →
  signals (trace (event_loop url_ num_tracks events st)) = [] ∨
  ∃ songs, signals (trace (event_loop url_ num_tracks events st))
           = [SongsDurationLoaded songs].
Proof.
  intros Hwf. unfold event_loop.
  destruct (loop_condition st); [|left; reflexivity].
  rewrite tell_then.
  change (signals (trace (WaitBegin :: trace (wait_events url_ num_tracks events st),
                          outcome (wait_events url_ num_tracks events st))))
    with (signals (trace (wait_events url_ num_tracks events st))).
  destruct (wait_events_signals events st Hwf) as [H|[_ H]]; auto.
Qed.
End loop_signals.

(** The signals of a scan, in order: none; or the first list, then the
    duration-enriched list if the loop emitted it, then what follows the
    loop if the loop returned. *)
Lemma scan_signals (this : CddaSongLoader) (w : World) :
  signals (trace (LoadSongsFromCdda this w)) = [] ∨
  ∃ N durations closing,
    reaches_loop this w N ∧
    signals (trace (LoadSongsFromCdda this w)) =
    SongsLoaded (make_initial_song_list (url_ this) N) :: durations ++ closing ∧
    (durations = [] ∨ ∃ songs, durations = [SongsDurationLoaded songs]) ∧
    (closing = [] ∨
     ∃ st, outcome (event_loop (url_ this) N (timeline w)
                      (start_state (make_initial_song_list (url_ this) N) w))
           = Done st ∧ closing = closing_signals st).
Proof.
  destruct (reaches_loop_dec this w) as [[N HN]|Hno].
  - right. exists N. rewrite (scan_unfold _ _ _ HN). cbn zeta.
    pose proof (event_loop_signals (url_ this) N (timeline w)
                  (start_state (make_initial_song_list (url_ this) N) w)
                  filter_wf_start) as Hloop.
    destruct (outcome (event_loop _ _ _ _)) as [st|f] eqn:Hout.
    + eexists _, (closing_signals st). split; [exact HN|].
      split; [|split; [exact Hloop|right; exists st; auto]].
      cbn [trace fst]. change (signals (Emit ?s :: ?t)) with (s :: signals t).
      rewrite signals_app, emit_results_signals. reflexivity.
    + eexists _, []. split; [exact HN|].
      split; [|split; [exact Hloop|left; reflexivity]].
      cbn [trace fst]. change (signals (Emit ?s :: ?t)) with (s :: signals t).
      rewrite app_nil_r. reflexivity.
  - left. destruct (scan_stopped _ _ Hno) as [->|[_ ->]]; reflexivity.
Qed.

Lemma reaches_loop_inj (this : CddaSongLoader) (w : World) (N N' : Z) :
  reaches_loop this w N → reaches_loop this w N' → N = N'.
Proof. intros (_ & _ & _ & _ & H) (_ & _ & _ & _ & H'). congruence. Qed.

Lemma closing_signals_cases (st : ScanState) :
  closing_signals st = [] ∨
  closing_signals st = [SongsMetadataLoaded (tagged_song_list st)] ∨
  closing_signals st = [MusicBrainzDiscIdLoaded (musicbrainz_discid st)] ∨
  closing_signals st = [SongsMetadataLoaded (tagged_song_list st);
                        MusicBrainzDiscIdLoaded (musicbrainz_discid st)].
Proof.
  unfold closing_signals.
  destruct (loaded_cd_tags st), (isEmpty (musicbrainz_discid st)); cbn; auto.
Qed.

Lemma initial_song_fields (url_ : QUrl) (k : Z) :
  song_track (initial_song url_ k) = k ∧ song_id (initial_song url_ k) = k ∧
  song_title (initial_song url_ k) = "Track " +:+ arg_number k ∧
  song_length_nanosec (initial_song url_ k) = 0.
Proof. repeat split. Qed.

Lemma make_initial_song_list_lookup (url_ : QUrl) (N k : Z) :
  1 ≤ k ≤ N →
  make_initial_song_list url_ N !! Z.to_nat (k - 1) = Some (initial_song url_ k).
Proof.
  intros Hk. unfold make_initial_song_list.
  rewrite list_lookup_fmap, lookup_seqZ_lt by lia.
  cbn. f_equal. f_equal. lia.
Qed.

Lemma make_initial_song_list_length (url_ : QUrl) (N : Z) :
  length (make_initial_song_list url_ N) = Z.to_nat N.
Proof. unfold make_initial_song_list. rewrite length_fmap. apply length_seqZ. Qed.

(** ** The first list *)

(** ** The songs of a lookup *)

Lemma wrap_signed_64_small (x : Z) :
  - 2 ^ 63 ≤ x < 2 ^ 63 → wrap_signed 64 x = x.
Proof.
  intros H. unfold wrap_signed. change (64 - 1) with 63.
  rewrite Z.mod_small; lia.
Qed.

Lemma songs_of_results_lookup (url_ : QUrl) (artist album : string)
    (results : MusicBrainzClient.ResultList) :
  ∀ (first : Z) (i : nat),
    songs_of_results url_ artist album results first !! i =
    (λ ret, song_of_result url_ artist album ret (first + Z.of_nat i))
      <$> results !! i.
Proof.
  induction results as [|ret rest IH]; intros first i; [reflexivity|].
  destruct i as [|i]; cbn [songs_of_results].
  - cbn. rewrite Z.add_0_r. reflexivity.
  - rewrite !lookup_cons, (IH (first + 1) i).
    replace (first + 1 + Z.of_nat i) with (first + Z.of_nat (S i)) by lia.
    reflexivity.
Qed.

Lemma songs_of_results_length (url_ : QUrl) (artist album : string)
    (results : MusicBrainzClient.ResultList) :
  ∀ first, length (songs_of_results url_ artist album results first)
           = length results.
Proof.
  induction results as [|ret rest IH]; intros first; [reflexivity|].
  cbn. rewrite IH. reflexivity.
Qed.

(** ** Track numbers out of range *)

Lemma errors_app (t1 t2 : list Action) : errors (t1 ++ t2) = errors t1 ++ errors t2.
Proof. apply omap_app. Qed.

Lemma read_discid_fields (tags : GstTagList) (st st0 : ScanState) (t0 : list Action) :
  read_discid tags st = (t0, Done st0) →
  tagged_song_list st0 = tagged_song_list st ∧
  initial_song_list st0 = initial_song_list st ∧
  loaded_cd_tags st0 = loaded_cd_tags st ∧
  errors t0 = [].
Proof.
  destruct (read_discid_cases tags st) as [[H _]|(d & _ & _ & H)];
    rewrite H; intros Heq; inversion Heq; subst; repeat split.
Qed.

Lemma gst_tag_list_get_uint_range (tags : GstTagList) (tag : Tag) (n : Z) :
  gst_tag_list_get_uint tags tag = Some n → 0 ≤ n < 2 ^ 32.
Proof.
  unfold gst_tag_list_get_uint, to_guint, wrap_unsigned.
  destruct (tag_value tags tag) as [[s|m|m]|]; try discriminate.
  intros H. inversion H. apply Z.mod_pos_bound. lia.
Qed.

Lemma wait_events_continue (url_ : QUrl) (num_tracks : Z) (msg : GstMessage)
    (position : Z) (later : list WorldEvent) (st st1 : ScanState) (tb : list Action) :
  passes_filter msg (msg_filter st) = true →
  loop_body url_ num_tracks msg position st = (tb, Done st1) →
  wait_events url_ num_tracks (Posted msg position :: later) st =
  (Handle msg :: tb ++ trace (continue url_ num_tracks later st1),
   outcome (continue url_ num_tracks later st1)).
Proof.
  intros Hp Hb. unfold continue. destruct (loop_condition st1) eqn:Hc.
  - rewrite (wait_events_next _ _ _ _ _ _ _ _ Hp Hb Hc), tell_then. reflexivity.
  - rewrite (wait_events_last _ _ _ _ _ _ _ _ Hp Hb Hc). cbn.
    rewrite app_nil_r. reflexivity.
Qed.

(** A track number that is 0 or beyond the list stops [ParseSongTags]: at
    one of its two assertions, or, for a number that is negative as an
    [int], at the index check of the list. *)
Lemma ParseSongTags_out_of_range (url_ : QUrl) (songs : list Song)
    (tags : GstTagList) (track_number : Z) :
  gst_tag_list_get_uint tags GST_TAG_TRACK_NUMBER = Some track_number →
  track_number = 0 ∨ QList_size songs < track_number →
  ∃ f, ParseSongTags url_ songs tags = ([], Crash f).
Proof.
  intros Hget Hbad. pose proof (gst_tag_list_get_uint_range _ _ _ Hget) as Hrange.
  unfold ParseSongTags. rewrite Hget.
  destruct (Z.eqb_spec track_number 0) as [->|Hnz]; [eexists; reflexivity|].
  destruct Hbad as [?|Hbig]; [contradiction|].
  destruct (Z.leb_spec (to_int track_number) (QList_size songs)) as [Hle|];
    [|eexists; reflexivity].
  cbn [negb Q_ASSERT]. rewrite !bind_ret.
  erewrite bind_crash; [eexists; reflexivity|].
  apply QList_at_out_of_range.
  unfold to_int, to_guint, wrap_signed, wrap_unsigned, QList_size in *.
  change (2 ^ (32 - 1)) with 2147483648 in *.
  change (2 ^ 32) with 4294967296 in *.
  rewrite (Z.mod_small (track_number - 1)) by lia.
  assert (2147483648 ≤ track_number) as Hneg.
  { destruct (Z_lt_le_dec track_number 2147483648) as [Hlt|]; [|assumption].
    rewrite Z.mod_small in Hle by lia. lia. }
  destruct (Z.eq_dec track_number 2147483648) as [->|Hne].
  - right.
    replace ((2147483648 - 1 + 2147483648) mod 4294967296) with 4294967295
      by reflexivity.
    lia.
  - left.
    replace ((track_number - 1 + 2147483648) mod 4294967296)
      with (track_number - 1 - 2147483648); [lia|].
    apply Z.mod_unique with (q := 1); lia.
Qed.

(** ** Tables of contents in the loop *)

Lemma body_actions_handled (t : list Action) :
  Forall body_action t → handled t = [].
Proof.
  induction 1 as [|a t Ha _ IH]; [reflexivity|].
  destruct a; try contradiction; exact IH.
Qed.

Lemma enrich_fit (entry : GstTocEntry) (song : Song) :
  times_fit entry →
  enrich entry song = set_length_nanosec (entry_duration entry) song.
Proof.
  unfold times_fit, entry_duration, enrich, toc_entry_duration,
    gst_toc_entry_get_start_stop_times.
  destruct (start_stop_times entry) as [[start stop]|]; [|reflexivity].
  intros (Hstart & Hstop & Hdiff). f_equal.
  unfold to_gint64.
  rewrite (wrap_signed_64_small start), (wrap_signed_64_small stop) by assumption.
  unfold to_qint64, to_quint64, wrap_signed, wrap_unsigned.
  change (64 - 1) with 63.
  rewrite Z.add_mod_idemp_l by lia.
  rewrite Z.mod_small; lia.
Qed.

Section toc_in_loop.
Variables (url_ : QUrl) (num_tracks : Z).

(** Once the filter has dropped the table-of-contents bit, no such
    message is handled. *)
Lemma wait_events_no_toc (events : list WorldEvent) (st : ScanState) :
  filter_wf (msg_filter st) →
  listens_toc (msg_filter st) = false →
  ∀ toc, TocMessage toc ∉ handled (trace (wait_events url_ num_tracks events st)).
Proof.
  revert events st.
  apply (wait_events_induction url_ num_tracks
           (λ st r, filter_wf (msg_filter st) →
                    listens_toc (msg_filter st) = false →
                    ∀ toc, TocMessage toc ∉ handled (trace r))).
  - intros st _ _ toc Hin. inversion Hin.
  - intros st later r IH Hwf Hl toc. exact (IH Hwf Hl toc).
  - intros st msg position tb f Hp Hb Hwf Hl toc Hin.
    change (handled (trace (Handle msg :: tb, Crash f)))
      with (msg :: handled tb) in Hin.
    rewrite (quiet_handled tb) in Hin by (eapply loop_body_crash_quiet, Hb).
    apply list_elem_of_singleton in Hin. subst msg.
    destruct (filter_toc_done _ _ Hwf Hp) as (Hl' & _). congruence.
  - intros st msg position tb st1 Hp Hb _ Hwf Hl toc Hin.
    pose proof (loop_body_actions url_ num_tracks msg position st) as Hact.
    rewrite Hb in Hact. cbn [trace fst] in Hact.
    change (handled (trace (Handle msg :: tb, Done st1)))
      with (msg :: handled tb) in Hin.
    rewrite (body_actions_handled _ Hact) in Hin.
    apply list_elem_of_singleton in Hin. subst msg.
    destruct (filter_toc_done _ _ Hwf Hp) as (Hl' & _). congruence.
  - intros st msg position tb st1 later r Hp Hb _ IH Hwf Hl toc Hin.
    pose proof (loop_body_actions url_ num_tracks msg position st) as Hact.
    rewrite Hb in Hact. cbn [trace fst] in Hin, Hact.
    change (handled (Handle msg :: tb ++ WaitBegin :: trace r))
      with (msg :: handled (tb ++ WaitBegin :: trace r)) in Hin.
    rewrite handled_app, (body_actions_handled _ Hact) in Hin.
    change (handled (WaitBegin :: trace r)) with (handled (trace r)) in Hin.
    apply elem_of_cons in Hin as [<-|Hin].
    + destruct (filter_toc_done _ _ Hwf Hp) as (Hl' & _). congruence.
    + destruct (loop_body_step _ _ _ _ _ _ _ Hwf Hp Hb)
        as (Hwf1 & _ & [(_ & _ & Hl1)|(? & ? & _ & _ & _ & _ & Hl' & _)]);
        [|congruence].
      rewrite <- Hl1 in Hl. exact (IH Hwf1 Hl toc Hin).
Qed.

(** A handled table of contents with one entry per song, and at least
    one, is the one that is accepted: its list is the one list
    emitted. *)
Lemma wait_events_toc_accepted (events : list WorldEvent) (st : ScanState) :
  filter_wf (msg_filter st) →
  ∀ toc,
    TocMessage (Some toc) ∈ handled (trace (wait_events url_ num_tracks events st)) →
    gst_toc_get_entries toc ≠ [] →
    length (gst_toc_get_entries toc) = length (initial_song_list st) →
    signals (trace (wait_events url_ num_tracks events st)) =
    [SongsDurationLoaded
       (zip_with enrich (gst_toc_get_entries toc) (initial_song_list st))].
Proof.
  revert events st.
  apply (wait_events_induction url_ num_tracks
           (λ st r, filter_wf (msg_filter st) →
              ∀ toc,
                TocMessage (Some toc) ∈ handled (trace r) →
                gst_toc_get_entries toc ≠ [] →
                length (gst_toc_get_entries toc) = length (initial_song_list st) →
                signals (trace r) =
                [SongsDurationLoaded
                   (zip_with enrich (gst_toc_get_entries toc)
                             (initial_song_list st))])).
  - intros st _ toc Hin. inversion Hin.
  - intros st later r IH Hwf toc Hin Hne Hlen. exact (IH Hwf toc Hin Hne Hlen).
  - intros st msg position tb f Hp Hb Hwf toc Hin Hne Hlen. exfalso.
    change (handled (trace (Handle msg :: tb, Crash f)))
      with (msg :: handled tb) in Hin.
    rewrite (quiet_handled tb) in Hin by (eapply loop_body_crash_quiet, Hb).
    apply list_elem_of_singleton in Hin. subst msg. cbn [loop_body] in Hb.
    rewrite (handle_toc_accepted _ _ Hne Hlen) in Hb. discriminate.
  - intros st msg position tb st1 Hp Hb _ Hwf toc Hin Hne Hlen.
    pose proof (loop_body_actions url_ num_tracks msg position st) as Hact.
    rewrite Hb in Hact. cbn [trace fst] in Hact.
    change (handled (trace (Handle msg :: tb, Done st1)))
      with (msg :: handled tb) in Hin.
    rewrite (body_actions_handled _ Hact) in Hin.
    apply list_elem_of_singleton in Hin. subst msg. cbn [loop_body] in Hb.
    rewrite (handle_toc_accepted _ _ Hne Hlen) in Hb. cbn zeta in Hb.
    inversion Hb; subst. reflexivity.
  - intros st msg position tb st1 later r Hp Hb _ IH Hwf toc Hin Hne Hlen.
    pose proof (loop_body_actions url_ num_tracks msg position st) as Hact.
    rewrite Hb in Hact. cbn [trace fst] in Hin, Hact |- *.
    change (handled (Handle msg :: tb ++ WaitBegin :: trace r))
      with (msg :: handled (tb ++ WaitBegin :: trace r)) in Hin.
    rewrite handled_app, (body_actions_handled _ Hact) in Hin.
    change (handled (WaitBegin :: trace r)) with (handled (trace r)) in Hin.
    change (signals (Handle msg :: tb ++ WaitBegin :: trace r))
      with (signals (tb ++ WaitBegin :: trace r)).
    rewrite signals_app.
    change (signals (WaitBegin :: trace r)) with (signals (trace r)).
    destruct (loop_body_step _ _ _ _ _ _ _ Hwf Hp Hb)
      as (Hwf1 & _ & [(Hq & Hi & _)|(toc' & songs & -> & -> & Htoc & -> & _ & Hl1)]).
    + rewrite (quiet_signals _ Hq). cbn [app].
      apply elem_of_cons in Hin as [<-|Hin].
      * exfalso. cbn [loop_body] in Hb.
        rewrite (handle_toc_accepted _ _ Hne Hlen) in Hb. cbn zeta in Hb.
        inversion Hb; subst. inversion Hq as [|? ? Hbad]. exact Hbad.
      * rewrite <- Hi. apply (IH Hwf1 toc Hin Hne). rewrite Hi. exact Hlen.
    + apply elem_of_cons in Hin as [Heq|Hin].
      * inversion Heq; subst toc'.
        rewrite (handle_toc_accepted _ _ Hne Hlen) in Htoc. cbn zeta in Htoc.
        inversion Htoc as [[Hsongs Hst]].
        destruct (wait_events_signals url_ num_tracks later _ Hwf1)
          as [Hnil|[Hc _]]; [|congruence].
        fold r in Hnil. rewrite Hnil. reflexivity.
      * exfalso.
        exact (wait_events_no_toc later _ Hwf1 Hl1 (Some toc) Hin).
Qed.
End toc_in_loop.

Lemma emit_results_handled (st : ScanState) : handled (trace (emit_results st)) = [].
Proof.
  unfold emit_results, when, emit, tell.
  destruct (loaded_cd_tags st), (negb (isEmpty (musicbrainz_discid st))); reflexivity.
Qed.

Lemma closing_signals_no_durations (st : ScanState) :
  duration_lists (closing_signals st) = [].
Proof.
  destruct (closing_signals_cases st) as [H|[H|[H|H]]]; rewrite H; reflexivity.
Qed.

Lemma scan_handled (this : CddaSongLoader) (w : World) (N : Z) :
  reaches_loop this w N →
  handled (trace (LoadSongsFromCdda this w)) =
  handled (trace (event_loop (url_ this) N (timeline w)
                    (start_state (make_initial_song_list (url_ this) N) w))).
Proof.
  intros H. rewrite (scan_unfold _ _ _ H). cbn zeta.
  destruct (outcome (event_loop _ _ _ _)) as [st|f]; cbn [trace fst].
  - change (handled (Emit ?s :: ?t)) with (handled t).
    rewrite handled_app, emit_results_handled, app_nil_r. reflexivity.
  - reflexivity.
Qed.

Lemma scan_duration_lists (this : CddaSongLoader) (w : World) (N : Z) :
  reaches_loop this w N →
  duration_lists (signals (trace (LoadSongsFromCdda this w))) =
  duration_lists
    (signals (trace (event_loop (url_ this) N (timeline w)
                       (start_state (make_initial_song_list (url_ this) N) w)))).
Proof.
  intros H. rewrite (scan_unfold _ _ _ H). cbn zeta.
  destruct (outcome (event_loop _ _ _ _)) as [st|f]; cbn [trace fst].
  - change (signals (Emit ?s :: ?t)) with (s :: signals t).
    rewrite signals_app, emit_results_signals.
    change (duration_lists (SongsLoaded ?l :: ?t)) with (duration_lists t).
    unfold duration_lists. rewrite omap_app.
    fold (duration_lists (closing_signals st)).
    rewrite closing_signals_no_durations, app_nil_r. reflexivity.
  - reflexivity.
Qed.

Lemma event_loop_running (url_ : QUrl) (num_tracks : Z) (events : list WorldEvent)
    (st : ScanState) :
  handled (trace (event_loop url_ num_tracks events st)) ≠ [] →
  handled (trace (event_loop url_ num_tracks events st))
  = handled (trace (wait_events url_ num_tracks events st)) ∧
  signals (trace (event_loop url_ num_tracks events st))
  = signals (trace (wait_events url_ num_tracks events st)).
Proof.
  unfold event_loop. destruct (loop_condition st); [|intros H; contradiction].
  rewrite tell_then. intros _. split; reflexivity.
Qed.

(** ** Harvested fields in the loop *)

Lemma harvest_flag (tags : GstTagList) (song : Song) :
  (harvest tags song).2 = carries_metadata tags.
Proof.
  unfold harvest, harvest_string, harvest_duration, carries_metadata, has_string.
  destruct (gst_tag_list_get_string tags GST_TAG_ALBUM),
    (gst_tag_list_get_string tags GST_TAG_ALBUM_ARTIST),
    (gst_tag_list_get_string tags GST_TAG_GENRE),
    (gst_tag_list_get_string tags GST_TAG_ARTIST),
    (gst_tag_list_get_string tags GST_TAG_TITLE),
    (gst_tag_list_get_uint64 tags GST_TAG_DURATION); reflexivity.
Qed.

Lemma ParseSongTags_returned (url_ : QUrl) (songs songs' : list Song)
    (tags : GstTagList) (loaded : bool) :
  outcome (ParseSongTags url_ songs tags) = Done (songs', loaded) →
  loaded = harvests (TagMessage tags).
Proof.
  cbn [harvests].
  destruct (ParseSongTags_cases url_ songs tags)
    as [[Hn ->]|[[f ->]|(tn & i & song & Hn & _ & ->)]];
    rewrite ?Hn; intros H; inversion H; subst; [reflexivity|].
  apply harvest_flag.
Qed.

Section harvest_in_loop.
Variables (url_ : QUrl) (num_tracks : Z).

Lemma loop_body_loaded (msg : GstMessage) (position : Z) (st st1 : ScanState)
    (tb : list Action) :
  loop_body url_ num_tracks msg position st = (tb, Done st1) →
  loaded_cd_tags st1 = loaded_cd_tags st || harvests msg.
Proof.
  destruct msg as [toc|tags]; cbn [loop_body]; intros H.
  - cbn [harvests]. rewrite orb_false_r.
    destruct (handle_toc_cases toc st) as [H'|[[songs H']|[f H']]];
      rewrite H' in H; inversion H; reflexivity.
  - destruct (handle_tag_done _ _ _ _ _ _ _ H) as (_ & _ & _ & _ & loaded & Hp & ->).
    rewrite (ParseSongTags_returned _ _ _ _ _ Hp). reflexivity.
Qed.

Lemma wait_events_loaded (events : list WorldEvent) (st : ScanState) :
  ∀ st', outcome (wait_events url_ num_tracks events st) = Done st' →
    loaded_cd_tags st' =
    loaded_cd_tags st
    || existsb harvests (handled (trace (wait_events url_ num_tracks events st))).
Proof.
  revert events st.
  apply (wait_events_induction url_ num_tracks
           (λ st r, ∀ st', outcome r = Done st' →
              loaded_cd_tags st' =
              loaded_cd_tags st || existsb harvests (handled (trace r)))).
  - intros st st' H. inversion H; subst. cbn. rewrite orb_false_r. reflexivity.
  - intros st later r IH st' H. exact (IH st' H).
  - intros st msg position tb f _ _ st' H. discriminate.
  - intros st msg position tb st1 _ Hb _ st' H. inversion H; subst.
    pose proof (loop_body_actions url_ num_tracks msg position st) as Hact.
    rewrite Hb in Hact. cbn [trace fst] in Hact.
    change (handled (trace (Handle msg :: tb, Done st')))
      with (msg :: handled tb).
    rewrite (body_actions_handled _ Hact). cbn [existsb].
    rewrite orb_false_r. exact (loop_body_loaded _ _ _ _ _ Hb).
  - intros st msg position tb st1 later r _ Hb _ IH st' H.
    pose proof (loop_body_actions url_ num_tracks msg position st) as Hact.
    rewrite Hb in Hact. cbn [trace fst outcome snd] in Hact, H |- *.
    change (handled (Handle msg :: tb ++ WaitBegin :: trace r))
      with (msg :: handled (tb ++ WaitBegin :: trace r)).
    rewrite handled_app, (body_actions_handled _ Hact).
    change (handled (WaitBegin :: trace r)) with (handled (trace r)).
    cbn [app existsb].
    rewrite (IH st' H), (loop_body_loaded _ _ _ _ _ Hb), orb_assoc. reflexivity.
Qed.
End harvest_in_loop.

Lemma closing_signals_tag_list (st : ScanState) :
  (∃ songs, SongsMetadataLoaded songs ∈ closing_signals st) ↔
  loaded_cd_tags st = true.
Proof.
  unfold closing_signals.
  destruct (loaded_cd_tags st), (isEmpty (musicbrainz_discid st)); cbn; split;
    try (intros _; eexists; apply elem_of_cons; left; reflexivity);
    try reflexivity; try discriminate;
    intros [songs Hin];
    repeat (apply elem_of_cons in Hin as [Hin|Hin]; [discriminate|]);
    inversion Hin.
Qed.

Lemma tag_list_emitted_iff_harvested (this : CddaSongLoader) (w : World) :
  loaded_cd_tags_initially w = false →
  outcome (LoadSongsFromCdda this w) = Done tt →
  (∃ songs, SongsMetadataLoaded songs ∈ signals (trace (LoadSongsFromCdda this w)))
  ↔ existsb harvests (handled (trace (LoadSongsFromCdda this w))) = true.
Proof.
  intros Hinit.
  destruct (reaches_loop_dec this w) as [[N HN]|Hno].
  - rewrite (scan_handled _ _ _ HN), (scan_unfold _ _ _ HN). cbn zeta.
    set (st0 := start_state (make_initial_song_list (url_ this) N) w).
    pose proof (event_loop_signals (url_ this) N (timeline w) st0 filter_wf_start)
      as Hsig.
    assert (∀ st', outcome (event_loop (url_ this) N (timeline w) st0) = Done st' →
              loaded_cd_tags st' =
              existsb harvests (handled (trace (event_loop (url_ this) N (timeline w) st0))))
      as Hloaded.
    { unfold event_loop. destruct (loop_condition st0).
      - rewrite tell_then. intros st' H.
        rewrite (wait_events_loaded _ _ _ _ st' H). cbn [loaded_cd_tags st0 start_state].
        rewrite Hinit. reflexivity.
      - intros st' H. inversion H; subst. exact Hinit. }
    destruct (outcome (event_loop (url_ this) N (timeline w) st0)) as [st'|f];
      [|discriminate].
    intros _. cbn [trace fst]. rewrite <- (Hloaded st' eq_refl).
    rewrite <- closing_signals_tag_list.
    change (signals (Emit ?s :: ?t)) with (s :: signals t).
    rewrite signals_app, emit_results_signals.
    split; intros [songs Hin]; exists songs.
    + apply elem_of_cons in Hin as [Hin|Hin]; [discriminate|].
      apply elem_of_app in Hin as [Hin|Hin]; [|exact Hin].
      destruct Hsig as [Hn|[l Hn]]; rewrite Hn in Hin;
        [inversion Hin|apply list_elem_of_singleton in Hin; discriminate].
    + rewrite elem_of_cons, elem_of_app. auto.
  - intros _. destruct (scan_stopped _ _ Hno) as [->|[_ ->]]; cbn;
      (split; [intros [songs Hin]; inversion Hin|discriminate]).
Qed.

(** ** The disc identifier in the loop *)

Lemma gst_tag_list_get_string_nonempty (tags : GstTagList) (tag : Tag) (s : string) :
  gst_tag_list_get_string tags tag = Some s → isEmpty s = false.
Proof.
  unfold gst_tag_list_get_string.
  destruct (tag_value tags tag) as [[v|n|n]|]; try discriminate.
  destruct (isEmpty v) eqn:He; [discriminate|]. intros H. inversion H; subst.
  exact He.
Qed.

Lemma first_discid_cons (msg : GstMessage) (msgs : list GstMessage) :
  first_discid (msg :: msgs) =
  match discid_field msg with
  | Some d => Some d
  | None => first_discid msgs
  end.
Proof. unfold first_discid. cbn. destruct (discid_field msg); reflexivity. Qed.

Section discid_in_loop.
Variables (url_ : QUrl) (num_tracks : Z).

(** One iteration: the line it logs and the identifier it leaves. *)
Lemma loop_body_discid (msg : GstMessage) (position : Z) (st : ScanState) :
  infos (trace (loop_body url_ num_tracks msg position st)) =
  (if isEmpty (musicbrainz_discid st) then discid_log (discid_field msg) else []) ∧
  ∀ tb st1,
    loop_body url_ num_tracks msg position st = (tb, Done st1) →
    musicbrainz_discid st1 = discid_after_all [msg] (musicbrainz_discid st).
Proof.
  unfold discid_after_all. rewrite first_discid_cons.
  destruct msg as [toc|tags]; cbn [loop_body discid_field].
  - split.
    + destruct (handle_toc_cases toc st) as [->|[[songs ->]|[f ->]]];
        destruct (isEmpty _); reflexivity.
    + intros tb st1 H.
      assert (musicbrainz_discid st1 = musicbrainz_discid st) as ->.
      { destruct (handle_toc_cases toc st) as [H'|[[songs H']|[f H']]];
          rewrite H' in H; inversion H; reflexivity. }
      destruct (isEmpty (musicbrainz_discid st)) eqn:He; [|reflexivity].
      apply isEmpty_true, He.
  - split.
    + apply handle_tag_trace.
    + intros tb st1 H.
      destruct (handle_tag_done _ _ _ _ _ _ _ H) as (_ & _ & _ & -> & _).
      unfold discid_after.
      destruct (gst_tag_list_get_string tags GST_TAG_CDDA_MUSICBRAINZ_DISCID);
        reflexivity.
Qed.

(** A run of the loop: the lines it logs and the identifier it leaves, from
    the first identifier among the messages it handled. *)
Lemma wait_events_discid (events : list WorldEvent) (st : ScanState) :
  infos (trace (wait_events url_ num_tracks events st)) =
  (if isEmpty (musicbrainz_discid st)
   then discid_log (first_discid (handled (trace (wait_events url_ num_tracks events st))))
   else []) ∧
  ∀ st', outcome (wait_events url_ num_tracks events st) = Done st' →
    musicbrainz_discid st' =
    discid_after_all (handled (trace (wait_events url_ num_tracks events st)))
                     (musicbrainz_discid st).
Proof.
  revert events st.
  apply (wait_events_induction url_ num_tracks
           (λ st r,
              infos (trace r) =
              (if isEmpty (musicbrainz_discid st)
               then discid_log (first_discid (handled (trace r))) else []) ∧
              ∀ st', outcome r = Done st' →
                musicbrainz_discid st' =
                discid_after_all (handled (trace r)) (musicbrainz_discid st))).
  - intros st. split.
    + destruct (isEmpty _); reflexivity.
    + intros st' H. inversion H; subst. unfold discid_after_all. cbn.
      destruct (isEmpty (musicbrainz_discid st')) eqn:He; [|reflexivity].
      apply isEmpty_true, He.
  - intros st later r IH. exact IH.
  - intros st msg position tb f Hp Hb.
    destruct (loop_body_discid msg position st) as [Hi _]. rewrite Hb in Hi.
    split; [|discriminate].
    change (infos (trace (Handle msg :: tb, Crash f))) with (infos tb).
    change (handled (trace (Handle msg :: tb, Crash f))) with (msg :: handled tb).
    rewrite (quiet_handled tb) by (eapply loop_body_crash_quiet, Hb).
    rewrite first_discid_cons. cbn [trace fst] in Hi. rewrite Hi.
    destruct (discid_field msg); reflexivity.
  - intros st msg position tb st1 Hp Hb _.
    destruct (loop_body_discid msg position st) as [Hi Hd]. rewrite Hb in Hi.
    pose proof (loop_body_actions url_ num_tracks msg position st) as Hact.
    rewrite Hb in Hact. cbn [trace fst] in Hact, Hi.
    change (infos (trace (Handle msg :: tb, Done st1))) with (infos tb).
    change (handled (trace (Handle msg :: tb, Done st1))) with (msg :: handled tb).
    rewrite (body_actions_handled _ Hact). split.
    + rewrite first_discid_cons, Hi. destruct (discid_field msg); reflexivity.
    + intros st' H. inversion H; subst. exact (Hd _ _ Hb).
  - intros st msg position tb st1 later r Hp Hb _ [IHi IHd].
    destruct (loop_body_discid msg position st) as [Hi Hd]. rewrite Hb in Hi.
    specialize (Hd _ _ Hb).
    pose proof (loop_body_actions url_ num_tracks msg position st) as Hact.
    rewrite Hb in Hact. cbn [trace fst outcome snd] in Hact, Hi |- *.
    change (infos (Handle msg :: tb ++ WaitBegin :: trace r))
      with (infos (tb ++ WaitBegin :: trace r)).
    change (handled (Handle msg :: tb ++ WaitBegin :: trace r))
      with (msg :: handled (tb ++ WaitBegin :: trace r)).
    rewrite infos_app, handled_app, (body_actions_handled _ Hact), Hi.
    change (infos (WaitBegin :: trace r)) with (infos (trace r)).
    change (handled (WaitBegin :: trace r)) with (handled (trace r)).
    cbn [app]. rewrite IHi.
    unfold discid_after_all in *. rewrite first_discid_cons in *.
    cbn [first_discid omap list_omap head] in Hd.
    change (first_discid []) with (@None string) in Hd.
    destruct (isEmpty (musicbrainz_discid st)) eqn:He.
    + destruct (discid_field msg) as [d|] eqn:Hf.
      * assert (isEmpty d = false) as Hd'.
        { destruct msg as [toc|tags]; [discriminate|].
          eapply gst_tag_list_get_string_nonempty, Hf. }
        simpl in Hd. rewrite Hd in *. rewrite Hd'. split; [reflexivity|].
        intros st' H. rewrite (IHd st' H), Hd'. reflexivity.
      * simpl in Hd. rewrite Hd in *. cbn [isEmpty discid_log app].
        split; [reflexivity|]. intros st' H. rewrite (IHd st' H). reflexivity.
    + rewrite Hd in *. rewrite He. split; [reflexivity|].
      intros st' H. rewrite (IHd st' H), He. reflexivity.
Qed.
End discid_in_loop.

Lemma first_discid_nonempty (msgs : list GstMessage) (d : string) :
  first_discid msgs = Some d → isEmpty d = false.
Proof.
  induction msgs as [|msg msgs IH]; [discriminate|].
  rewrite first_discid_cons. destruct (discid_field msg) as [d'|] eqn:Hf; [|exact IH].
  intros H. inversion H; subst. destruct msg as [toc|tags]; [discriminate|].
  eapply gst_tag_list_get_string_nonempty, Hf.
Qed.

Lemma emit_results_infos (st : ScanState) : infos (trace (emit_results st)) = [].
Proof.
  unfold emit_results, when, emit, tell.
  destruct (loaded_cd_tags st), (negb (isEmpty (musicbrainz_discid st))); reflexivity.
Qed.

Lemma closing_signals_discid (st : ScanState) (d : string) :
  MusicBrainzDiscIdLoaded d ∈ closing_signals st ↔
  isEmpty (musicbrainz_discid st) = false ∧ d = musicbrainz_discid st.
Proof.
  unfold closing_signals.
  destruct (loaded_cd_tags st), (isEmpty (musicbrainz_discid st)); cbn;
    rewrite ?elem_of_cons, ?elem_of_nil; split;
    try (intros [H|[H|[]]]; inversion H; auto);
    try (intros [H|[]]; inversion H; auto);
    try (intros []; fail); try (intros [H _]; discriminate);
    intros [_ ->]; auto.
Qed.

Lemma event_loop_discid (url_ : QUrl) (num_tracks : Z) (events : list WorldEvent)
    (st : ScanState) :
  isEmpty (musicbrainz_discid st) = true →
  infos (trace (event_loop url_ num_tracks events st)) =
  discid_log (first_discid (handled (trace (event_loop url_ num_tracks events st)))) ∧
  ∀ st', outcome (event_loop url_ num_tracks events st) = Done st' →
    musicbrainz_discid st' =
    default "" (first_discid (handled (trace (event_loop url_ num_tracks events st)))).
Proof.
  intros He. unfold event_loop. destruct (loop_condition st).
  - rewrite tell_then.
    destruct (wait_events_discid url_ num_tracks events st) as [Hi Hd].
    unfold discid_after_all in Hd. rewrite He in Hi, Hd. split; [exact Hi|exact Hd].
  - split; [reflexivity|]. intros st' H. inversion H; subst.
    apply isEmpty_true, He.
Qed.

(** ** The flag in the loop *)

Section cancellation.
Variables (url_ : QUrl) (num_tracks : Z).

(** What an iteration that returns keeps: the flag as the scan sees it,
    a [loaded_cd_tags] that is set, an identifier that is set. *)
Lemma loop_body_keeps (msg : GstMessage) (position : Z) (st st1 : ScanState)
    (tb : list Action) :
  loop_body url_ num_tracks msg position st = (tb, Done st1) →
  may_load st1 = may_load st ∧
  (loaded_cd_tags st = true → loaded_cd_tags st1 = true) ∧
  (isEmpty (musicbrainz_discid st) = false →
   musicbrainz_discid st1 = musicbrainz_discid st).
Proof.
  destruct msg as [toc|tags]; cbn [loop_body]; intros H.
  - destruct (handle_toc_cases toc st) as [H'|[[songs H']|[f H']]];
      rewrite H' in H; inversion H; subst; auto.
  - destruct (handle_tag_done _ _ _ _ _ _ _ H)
      as (_ & Hm & _ & Hd & loaded & _ & Hl).
    split; [exact Hm|]. split.
    + intros Ht. rewrite Hl, Ht. reflexivity.
    + intros He. rewrite Hd. unfold discid_after. rewrite He. reflexivity.
Qed.

(** A wait that is in progress with the flag already cleared: it may still
    deliver one message, which is handled, and no wait follows. *)
Lemma wait_events_cancelled (events : list WorldEvent) (st : ScanState) :
  may_load st = false →
  (WaitBegin ∉ trace (wait_events url_ num_tracks events st)) ∧
  (length (handled (trace (wait_events url_ num_tracks events st))) ≤ 1)%nat.
Proof.
  revert events st.
  apply (wait_events_induction url_ num_tracks
           (λ st r, may_load st = false →
                    (WaitBegin ∉ trace r) ∧ (length (handled (trace r)) ≤ 1)%nat)).
  - intros st _. split; [apply not_elem_of_nil|cbn; lia].
  - intros st later r IH _. destruct (IH eq_refl) as [Hw Hh]. split.
    + cbn [trace fst]. rewrite not_elem_of_cons. split; [discriminate|exact Hw].
    + exact Hh.
  - intros st msg position tb f Hp Hb _.
    pose proof (loop_body_crash_quiet _ _ _ _ _ _ _ Hb) as Hq. split.
    + cbn [trace fst]. rewrite not_elem_of_cons.
      split; [discriminate|apply quiet_no_wait, Hq].
    + change (handled (trace (Handle msg :: tb, Crash f)))
        with (msg :: handled tb).
      rewrite (quiet_handled _ Hq). cbn. lia.
  - intros st msg position tb st1 Hp Hb _ _.
    pose proof (loop_body_actions url_ num_tracks msg position st) as Hact.
    rewrite Hb in Hact. cbn [trace fst] in Hact. split.
    + cbn [trace fst]. rewrite not_elem_of_cons. split; [discriminate|].
      intros Hin. rewrite Forall_forall in Hact. exact (Hact _ Hin).
    + change (handled (trace (Handle msg :: tb, Done st1)))
        with (msg :: handled tb).
      rewrite (body_actions_handled _ Hact). cbn. lia.
  - intros st msg position tb st1 later r Hp Hb Hc _ Hm. exfalso.
    destruct (loop_body_keeps _ _ _ _ _ Hb) as (Hm1 & _).
    unfold loop_condition in Hc. rewrite Hm1, Hm in Hc. discriminate.
Qed.

(** In a run of the loop, what follows the store to the flag holds no
    new wait and at most one handled message. *)
Lemma wait_events_after_teardown (events : list WorldEvent) (st : ScanState) :
  ∀ before after,
    trace (wait_events url_ num_tracks events st) = before ++ MayLoadCleared :: after →
    (WaitBegin ∉ after) ∧ (length (handled after) ≤ 1)%nat.
Proof.
  revert events st.
  apply (wait_events_induction url_ num_tracks
           (λ st r, ∀ before after,
                trace r = before ++ MayLoadCleared :: after →
                (WaitBegin ∉ after) ∧ (length (handled after) ≤ 1)%nat)).
  - intros st before after H. destruct before; discriminate.
  - intros st later r IH before after H. cbn [trace fst] in H.
    destruct before as [|a before]; cbn [app] in H; inversion H; subst.
    + apply wait_events_cancelled. reflexivity.
    + eapply IH. eassumption.
  - intros st msg position tb f Hp Hb before after H. exfalso.
    pose proof (loop_body_crash_quiet _ _ _ _ _ _ _ Hb) as Hq.
    assert (MayLoadCleared ∈ Handle msg :: tb) as Hin.
    { cbn [trace fst] in H. rewrite H, elem_of_app, elem_of_cons. auto. }
    apply elem_of_cons in Hin as [Hin|Hin]; [discriminate|].
    exact (quiet_no_teardown _ Hq Hin).
  - intros st msg position tb st1 Hp Hb _ before after H. exfalso.
    pose proof (loop_body_actions url_ num_tracks msg position st) as Hact.
    rewrite Hb in Hact. cbn [trace fst] in Hact, H.
    assert (MayLoadCleared ∈ Handle msg :: tb) as Hin.
    { rewrite H, elem_of_app, elem_of_cons. auto. }
    apply elem_of_cons in Hin as [Hin|Hin]; [discriminate|].
    rewrite Forall_forall in Hact. exact (Hact _ Hin).
  - intros st msg position tb st1 later r Hp Hb _ IH before after H.
    pose proof (loop_body_actions url_ num_tracks msg position st) as Hact.
    rewrite Hb in Hact. cbn [trace fst] in Hact, H.
    assert (∀ (pre : list Action) before,
              Forall body_action pre →
              pre ++ WaitBegin :: trace r = before ++ MayLoadCleared :: after →
              ∃ before', trace r = before' ++ MayLoadCleared :: after) as Hsplit.
    { clear. induction pre as [|a pre IHpre]; intros before Hpre Heq.
      - destruct before as [|b before]; [discriminate|].
        inversion Heq. eauto.
      - inversion Hpre as [|? ? Ha Hpre']; subst.
        destruct before as [|b before]; cbn [app] in Heq; inversion Heq; subst.
        + contradiction.
        + eapply IHpre; eassumption. }
    destruct before as [|b before]; cbn [app] in H; inversion H as [[Hb' Hrest]].
    destruct (Hsplit tb before Hact Hrest) as [before' Hr].
    exact (IH before' after Hr).
Qed.

(** A run of the loop that returns keeps a [loaded_cd_tags] that was set
    and an identifier that was set, whatever happened to the flag. *)
Lemma wait_events_keeps (events : list WorldEvent) (st : ScanState) :
  ∀ st', outcome (wait_events url_ num_tracks events st) = Done st' →
    (loaded_cd_tags st = true → loaded_cd_tags st' = true) ∧
    (isEmpty (musicbrainz_discid st) = false →
     musicbrainz_discid st' = musicbrainz_discid st).
Proof.
  revert events st.
  apply (wait_events_induction url_ num_tracks
           (λ st r, ∀ st', outcome r = Done st' →
              (loaded_cd_tags st = true → loaded_cd_tags st' = true) ∧
              (isEmpty (musicbrainz_discid st) = false →
               musicbrainz_discid st' = musicbrainz_discid st))).
  - intros st st' H. inversion H; subst. auto.
  - intros st later r IH st' H. exact (IH st' H).
  - intros st msg position tb f _ _ st' H. discriminate.
  - intros st msg position tb st1 _ Hb _ st' H. inversion H; subst.
    destruct (loop_body_keeps _ _ _ _ _ Hb) as (_ & Hl & Hd). auto.
  - intros st msg position tb st1 later r _ Hb _ IH st' H.
    destruct (loop_body_keeps _ _ _ _ _ Hb) as (_ & Hl & Hd).
    destruct (IH st' H) as [Hl' Hd']. split.
    + intros Ht. apply Hl', Hl, Ht.
    + intros He. rewrite Hd' by (rewrite (Hd He); exact He). exact (Hd He).
Qed.
End cancellation.

Lemma split_middle {A} (x : A) (l1 t l3 before after : list A) :
  x ∉ l1 → x ∉ l3 →
  l1 ++ t ++ l3 = before ++ x :: after →
  ∃ pre after', t = pre ++ x :: after' ∧ after = after' ++ l3.
Proof.
  intros H1 H3. revert before. induction l1 as [|a l1 IH]; intros before Heq.
  - clear H1. cbn [app] in Heq. revert before Heq.
    induction t as [|b t IHt]; intros before Heq.
    + exfalso. apply H3. cbn [app] in Heq.
      rewrite Heq, elem_of_app, elem_of_cons. auto.
    + destruct before as [|c before]; cbn [app] in Heq;
        injection Heq as Hhead Htail; subst.
      * exists [], t. auto.
      * destruct (IHt before Htail) as (pre & after' & -> & ->).
        exists (c :: pre), after'. auto.
  - apply not_elem_of_cons in H1 as [Hxa H1].
    destruct before as [|c before]; cbn [app] in Heq;
      injection Heq as Hhead Htail; subst.
    + contradiction.
    + exact (IH H1 before Htail).
Qed.

Lemma emit_results_actions (st : ScanState) :
  Forall body_action (trace (emit_results st)).
Proof.
  unfold emit_results, when, emit, tell.
  destruct (loaded_cd_tags st), (negb (isEmpty (musicbrainz_discid st)));
    repeat constructor.
Qed.

(** In a scan, what follows the store to the flag holds no new wait and at
    most one handled message. *)
Lemma scan_after_teardown (this : CddaSongLoader) (w : World) :
  ∀ before after,
    trace (LoadSongsFromCdda this w) = before ++ MayLoadCleared :: after →
    (WaitBegin ∉ after) ∧ (length (handled after) ≤ 1)%nat.
Proof.
  intros before after H.
  destruct (reaches_loop_dec this w) as [[N HN]|Hno].
  - rewrite (scan_unfold _ _ _ HN) in H. cbn zeta in H.
    set (st0 := start_state (make_initial_song_list (url_ this) N) w) in *.
    assert (∃ closing,
              Forall body_action closing ∧
              Emit (SongsLoaded (make_initial_song_list (url_ this) N))
              :: trace (event_loop (url_ this) N (timeline w) st0) ++ closing
              = before ++ MayLoadCleared :: after) as (closing & Hc & H').
    { destruct (outcome (event_loop (url_ this) N (timeline w) st0)) as [st'|f];
        cbn [trace fst] in H.
      - exists (trace (emit_results st')). split; [apply emit_results_actions|exact H].
      - exists []. split; [constructor|]. rewrite app_nil_r. exact H. }
    clear H. rewrite Forall_forall in Hc.
    assert (MayLoadCleared ∉ closing) as Hnot by (intros Hin; exact (Hc _ Hin)).
    unfold event_loop in H'. destruct (loop_condition st0).
    + rewrite tell_then in H'. cbn [trace fst] in H'.
      destruct (split_middle MayLoadCleared
                  [Emit (SongsLoaded (make_initial_song_list (url_ this) N)); WaitBegin]
                  (trace (wait_events (url_ this) N (timeline w) st0))
                  closing before after) as (pre & after' & Ht & ->).
      * intros Hin. repeat (apply elem_of_cons in Hin as [Hin|Hin]; [discriminate|]).
        inversion Hin.
      * exact Hnot.
      * exact H'.
      * destruct (wait_events_after_teardown _ _ _ _ _ _ Ht) as [Hw Hh]. split.
        -- rewrite not_elem_of_app. split; [exact Hw|].
           intros Hin. exact (Hc _ Hin).
        -- rewrite handled_app, (body_actions_handled closing), app_nil_r;
             [exact Hh|]. rewrite Forall_forall. exact Hc.
    + exfalso.
      destruct (split_middle MayLoadCleared
                  [Emit (SongsLoaded (make_initial_song_list (url_ this) N))]
                  [] closing before after) as (pre & after' & Ht & _).
      * intros Hin. apply list_elem_of_singleton in Hin. discriminate.
      * exact Hnot.
      * exact H'.
      * destruct pre; discriminate.
  - exfalso. destruct (scan_stopped _ _ Hno) as [Hr|[_ Hr]]; rewrite Hr in H;
      cbn [trace fst] in H;
      repeat (destruct before as [|? before]; cbn [app] in H; try discriminate).
Qed.

(** * The claims *)

(** ** C1: the durations of the table of contents *)

(** C1, as the code has it.  In a scan that handles a table-of-contents
    event with one entry per track, and at least one, the duration-enriched
    list is emitted exactly once, and its track [k] is the track [k] of the
    first list with its duration set to stop minus start of entry [k] (0
    for an entry without times).  A table-of-contents event with fewer
    entries than tracks, or with none, returns at once: nothing is emitted
    and the state, durations included, is as before. *)
Theorem toc_event_durations (this : CddaSongLoader) (w : World) (N : Z)
    (toc : GstToc) (st : ScanState) :
  (reaches_loop this w N →
   TocMessage (Some toc) ∈ handled (trace (LoadSongsFromCdda this w)) →
   gst_toc_get_entries toc ≠ [] →
   Z.of_nat (length (gst_toc_get_entries toc)) = N →
   Forall times_fit (gst_toc_get_entries toc) →
   ∃ songs,
     duration_lists (signals (trace (LoadSongsFromCdda this w))) = [songs] ∧
     length songs = length (gst_toc_get_entries toc) ∧
     ∀ k, 1 ≤ k ≤ N →
       ∃ entry,
         gst_toc_get_entries toc !! Z.to_nat (k - 1) = Some entry ∧
         songs !! Z.to_nat (k - 1)
         = Some (set_length_nanosec (entry_duration entry)
                                    (initial_song (url_ this) k)) ∧
         song_length_nanosec (set_length_nanosec (entry_duration entry)
                                (initial_song (url_ this) k))
         = entry_duration entry) ∧
  ((gst_toc_get_entries toc = [] ∨
    (length (gst_toc_get_entries toc) < length (initial_song_list st))%nat) →
   handle_toc (Some toc) st = ([], Done st)).
Proof.
  split; [|apply handle_toc_rejected].
  intros Hreach Hin Hne Hlen Hfit.
  set (songs := make_initial_song_list (url_ this) N).
  assert (length (gst_toc_get_entries toc) = length songs) as Hlen'.
  { unfold songs. rewrite make_initial_song_list_length. lia. }
  rewrite (scan_handled _ _ _ Hreach) in Hin.
  rewrite (scan_duration_lists _ _ _ Hreach).
  destruct (event_loop_running (url_ this) N (timeline w) (start_state songs w))
    as [Hh Hs].
  { intros Hnil. fold songs in Hin. rewrite Hnil in Hin. inversion Hin. }
  fold songs in Hin |- *. rewrite Hh in Hin. rewrite Hs.
  rewrite (wait_events_toc_accepted _ _ _ (start_state songs w)
             filter_wf_start toc Hin Hne Hlen').
  eexists. split; [reflexivity|]. split.
  - rewrite length_zip_with_l_eq by exact Hlen'. reflexivity.
  - intros k Hk.
    destruct (lookup_lt_is_Some_2 (gst_toc_get_entries toc) (Z.to_nat (k - 1)))
      as [entry Hentry]; [lia|].
    exists entry. split; [exact Hentry|]. split; [|reflexivity].
    cbn [initial_song_list start_state].
    rewrite lookup_zip_with, Hentry. unfold songs.
    rewrite (make_initial_song_list_lookup _ _ _ Hk). cbn.
    rewrite enrich_fit; [reflexivity|].
    rewrite Forall_forall in Hfit. apply Hfit.
    eapply list_elem_of_lookup_2, Hentry.
Qed.

Lemma toc_event_durations_witness :
  let run := LoadSongsFromCdda default_drive
               (disc 3 [Posted (TocMessage (Some three_track_toc)) 0]) in
  (∃ songs,
     duration_lists (signals (trace run)) = [songs] ∧
     length songs = 3%nat ∧
     ∀ k, 1 ≤ k ≤ 3 →
       ∃ entry,
         gst_toc_get_entries three_track_toc !! Z.to_nat (k - 1) = Some entry ∧
         songs !! Z.to_nat (k - 1)
         = Some (set_length_nanosec (entry_duration entry) (initial_song None k)) ∧
         song_length_nanosec (set_length_nanosec (entry_duration entry)
                                (initial_song None k))
         = entry_duration entry) ∧
  handle_toc (Some two_entry_toc)
    (start_state (make_initial_song_list None 3) (disc 3 []))
  = ([], Done (start_state (make_initial_song_list None 3) (disc 3 []))).
Proof.
  intros run. split.
  - apply (proj1 (toc_event_durations default_drive
                    (disc 3 [Posted (TocMessage (Some three_track_toc)) 0]) 3
                    three_track_toc
                    (start_state (make_initial_song_list None 3) (disc 3 [])))).
    + repeat split.
    + apply list_elem_of_singleton. reflexivity.
    + discriminate.
    + reflexivity.
    + repeat constructor; vm_compute; congruence.
  - apply (proj2 (toc_event_durations default_drive (disc 3 []) 3 two_entry_toc
                    (start_state (make_initial_song_list None 3) (disc 3 [])))).
    right. vm_compute. lia.
Defined.

(** The claim as it was stated accepts every table of contents with at
    least as many entries as tracks, and has its list emitted.  On a disc
    without tracks a table of contents without entries has as many entries
    as tracks and is not accepted, for want of a first entry; and with one
    track and two entries the duration loop leaves the list before
    anything is emitted. *)
Lemma toc_with_enough_entries_not_emitted :
  (0 ≤ Z.of_nat (length (gst_toc_get_entries empty_toc)) ∧
   TocMessage (Some empty_toc)
   ∈ handled (trace (LoadSongsFromCdda default_drive
                       (disc 0 [Posted (TocMessage (Some empty_toc)) 0]))) ∧
   duration_lists
     (signals (trace (LoadSongsFromCdda default_drive
                        (disc 0 [Posted (TocMessage (Some empty_toc)) 0])))) = []) ∧
  (1 ≤ Z.of_nat (length (gst_toc_get_entries two_entry_toc)) ∧
   TocMessage (Some two_entry_toc)
   ∈ handled (trace (LoadSongsFromCdda default_drive
                       (disc 1 [Posted (TocMessage (Some two_entry_toc)) 0]))) ∧
   duration_lists
     (signals (trace (LoadSongsFromCdda default_drive
                        (disc 1 [Posted (TocMessage (Some two_entry_toc)) 0])))) = []).
Proof.
  repeat split; try (cbn; lia); apply list_elem_of_singleton; reflexivity.
Qed.

(** ** C2: tag events and their track number *)

(** C2, as the code has it.  A tag event without a track number changes
    no song: [ParseSongTags] logs an error and returns [false], the branch
    returns, both lists and [loaded_cd_tags] are as before, the error is
    the only one logged, and the loop goes on to its next test.  A track
    number that is 0 or exceeds the number of songs is not a failed event:
    the branch stops at an assertion, or at the index check of the list,
    and the scan with it. *)
Theorem tag_event_track_number (url_ : QUrl) (num_tracks : Z) (tags : GstTagList)
    (position : Z) (st : ScanState) :
  (gst_tag_list_get_uint tags GST_TAG_TRACK_NUMBER = None →
   ParseSongTags url_ (tagged_song_list st) tags
   = ([Log Error track_number_missing], Done (tagged_song_list st, false)) ∧
   ∃ tb st1,
     handle_tag url_ num_tracks tags position st = (tb, Done st1) ∧
     tagged_song_list st1 = tagged_song_list st ∧
     initial_song_list st1 = initial_song_list st ∧
     loaded_cd_tags st1 = loaded_cd_tags st ∧
     errors tb = [track_number_missing] ∧
     ∀ later, passes_filter (TagMessage tags) (msg_filter st) = true →
       wait_events url_ num_tracks (Posted (TagMessage tags) position :: later) st
       = (Handle (TagMessage tags) :: tb
            ++ trace (continue url_ num_tracks later st1),
          outcome (continue url_ num_tracks later st1))) ∧
  (∀ track_number,
     gst_tag_list_get_uint tags GST_TAG_TRACK_NUMBER = Some track_number →
     (track_number = 0 ∨ QList_size (tagged_song_list st) < track_number) →
     ∃ f, ParseSongTags url_ (tagged_song_list st) tags = ([], Crash f) ∧
          outcome (handle_tag url_ num_tracks tags position st) = Crash f).
Proof.
  destruct (handle_tag_unfold url_ num_tracks tags position st)
    as (t0 & st0 & H0 & Hrun).
  destruct (read_discid_fields _ _ _ _ H0) as (Ht0 & Hi0 & Hl0 & He0).
  rewrite Ht0 in Hrun. split.
  - intros Hnone.
    assert (ParseSongTags url_ (tagged_song_list st) tags
            = ([Log Error track_number_missing], Done (tagged_song_list st, false)))
      as Hparse.
    { unfold ParseSongTags. rewrite Hnone. reflexivity. }
    split; [exact Hparse|].
    rewrite Hparse in Hrun. cbn [outcome trace fst snd] in Hrun. cbn zeta in Hrun.
    destruct (next_track_cases num_tracks position
                (with_tags (tagged_song_list st) (loaded_cd_tags st0 || false) st0))
      as [[k Hn]|Hn]; rewrite Hn in Hrun; cbn [outcome trace fst snd] in Hrun;
      eexists _, _; (split; [exact Hrun|]);
      (split; [reflexivity|]); (split; [exact Hi0|]);
      (split; [cbn; rewrite orb_false_r; exact Hl0|]);
      (split; [rewrite !errors_app, He0; reflexivity|]);
      intros later Hp; (apply wait_events_continue; [exact Hp|exact Hrun]).
  - intros tn Hget Hbad.
    destruct (ParseSongTags_out_of_range url_ _ _ _ Hget Hbad) as [f Hf].
    exists f. split; [exact Hf|]. rewrite Hrun, Hf. reflexivity.
Qed.

Lemma tag_event_track_number_witness :
  let st := start_state (make_initial_song_list None 1) (disc 1 []) in
  (ParseSongTags None (tagged_song_list st) tags_without_number
   = ([Log Error track_number_missing], Done (tagged_song_list st, false)) ∧
   ∃ tb st1,
     handle_tag None 1 tags_without_number 0 st = (tb, Done st1) ∧
     tagged_song_list st1 = tagged_song_list st ∧
     initial_song_list st1 = initial_song_list st ∧
     loaded_cd_tags st1 = loaded_cd_tags st ∧
     errors tb = [track_number_missing] ∧
     ∀ later, passes_filter (TagMessage tags_without_number) (msg_filter st) = true →
       wait_events None 1 (Posted (TagMessage tags_without_number) 0 :: later) st
       = (Handle (TagMessage tags_without_number) :: tb
            ++ trace (continue None 1 later st1),
          outcome (continue None 1 later st1))) ∧
  (∃ f, ParseSongTags None (tagged_song_list st) tags_of_track_zero = ([], Crash f) ∧
        outcome (handle_tag None 1 tags_of_track_zero 0 st) = Crash f).
Proof.
  intros st. split.
  - exact (proj1 (tag_event_track_number None 1 tags_without_number 0 st) eq_refl).
  - exact (proj2 (tag_event_track_number None 1 tags_of_track_zero 0 st)
             0 eq_refl (or_introl eq_refl)).
Defined.

(** The claim as it was stated has a tag event for track 0 fail quietly
    and the loop go on.  On a disc of one track such an event trips the
    first assertion of [ParseSongTags], and the scan ends there. *)
Lemma track_zero_trips_the_assertion :
  gst_tag_list_get_uint tags_of_track_zero GST_TAG_TRACK_NUMBER = Some 0 ∧
  LoadSongsFromCdda default_drive
    (disc 1 [Posted (TagMessage tags_of_track_zero) 0;
             Posted (TocMessage (Some {| gst_toc_get_entries := [entry 0 second] |})) 0])
  = ([Emit (SongsLoaded (make_initial_song_list None 1)); WaitBegin;
      Handle (TagMessage tags_of_track_zero)],
     Crash (AssertFailed "track_number != 0u")).
Proof. split; reflexivity. Qed.

(** ** C3: the tag-enriched list after the loop *)

(** C3 fails on the code.  [loaded_cd_tags] has no initialiser.  On a disc
    of three tracks whose table of contents arrives and whose tags never
    do, a scan that finds [true] in it handles no tag event and still
    emits the tag-enriched signal, with the untouched first list. *)
Theorem stale_flag_emits_tag_list :
  let run := LoadSongsFromCdda default_drive
               (disc_with_stale_flag 3 [Posted (TocMessage (Some three_track_toc)) 0]) in
  outcome run = Done tt ∧
  Forall (λ msg, is_tag_message msg = false) (handled (trace run)) ∧
  signals (trace run) =
  [SongsLoaded (make_initial_song_list None 3);
   SongsDurationLoaded (zip_with enrich (gst_toc_get_entries three_track_toc)
                                 (make_initial_song_list None 3));
   SongsMetadataLoaded (make_initial_song_list None 3)].
Proof. split; [reflexivity|]. split; [repeat constructor|reflexivity]. Qed.

(** ** C4: the duration loop and the bounds of the list *)

(** C4 fails on the code.  One track, a table of contents of two entries:
    the event is accepted ([1 <= 2]), the loop runs over both entries, and
    the second one indexes the one-element list at 1. *)
Theorem extra_toc_entry_indexes_past_the_end :
  length (make_initial_song_list None 1) = 1%nat ∧
  length (gst_toc_get_entries two_entry_toc) = 2%nat ∧
  set_durations (gst_toc_get_entries two_entry_toc) 0 (make_initial_song_list None 1)
  = ([], Crash (IndexOutOfRange 1 1)) ∧
  LoadSongsFromCdda default_drive
    (disc 1 [Posted (TocMessage (Some two_entry_toc)) 0])
  = ([Emit (SongsLoaded (make_initial_song_list None 1)); WaitBegin;
      Handle (TocMessage (Some two_entry_toc))],
     Crash (IndexOutOfRange 1 1)).
Proof. repeat split. Qed.

(** ** C5: the first track list *)

(** C5.  For a disc on which the track-count query reports [N] tracks, the
    first signal of the scan is the initial track list; it has exactly [N]
    entries, entry [k] (counting from 1) has track number and id [k], the
    placeholder title "Track k" and zero duration, and no other initial
    list is emitted. *)
Theorem initial_track_list (this : CddaSongLoader) (w : World) (N : Z) :
  reaches_loop this w N →
  0 ≤ N ≤ INT_MAX →
  ∃ songs later,
    signals (trace (LoadSongsFromCdda this w)) = SongsLoaded songs :: later ∧
    (∀ other, SongsLoaded other ∉ later) ∧
    Z.of_nat (length songs) = N ∧
    ∀ k, 1 ≤ k ≤ N →
      ∃ song, songs !! Z.to_nat (k - 1) = Some song ∧
        song_track song = k ∧ song_id song = k ∧
        song_title song = "Track " +:+ arg_number k ∧
        song_length_nanosec song = 0.
Proof.
  intros Hreach HN.
  destruct (scan_signals this w) as [Hnone|(N' & durations & closing & Hr & Hs & Hd & Hc)].
  { rewrite (scan_unfold _ _ _ Hreach) in Hnone. cbn zeta in Hnone.
    destruct (outcome (event_loop _ _ _ _)); discriminate. }
  rewrite <- (reaches_loop_inj _ _ _ _ Hreach Hr) in *. clear Hr.
  exists (make_initial_song_list (url_ this) N), (durations ++ closing).
  split; [exact Hs|]. split; [|split].
  - intros other Hin. apply elem_of_app in Hin as [Hin|Hin].
    + destruct Hd as [->|[songs ->]]; [inversion Hin|].
      apply list_elem_of_singleton in Hin. discriminate.
    + destruct Hc as [->|(st & _ & ->)]; [inversion Hin|].
      destruct (closing_signals_cases st) as [H|[H|[H|H]]]; rewrite H in Hin;
        repeat (apply elem_of_cons in Hin as [Hin|Hin]; [discriminate|]);
        inversion Hin.
  - rewrite make_initial_song_list_length. lia.
  - intros k Hk. exists (initial_song (url_ this) k).
    split; [apply make_initial_song_list_lookup, Hk|].
    apply initial_song_fields.
Qed.

Lemma initial_track_list_witness :
  ∃ songs later,
    signals (trace (LoadSongsFromCdda default_drive
                      (disc 3 [Posted (TocMessage (Some three_track_toc)) 0])))
    = SongsLoaded songs :: later ∧
    (∀ other, SongsLoaded other ∉ later) ∧
    Z.of_nat (length songs) = 3 ∧
    ∀ k, 1 ≤ k ≤ 3 →
      ∃ song, songs !! Z.to_nat (k - 1) = Some song ∧
        song_track song = k ∧ song_id song = k ∧
        song_title song = "Track " +:+ arg_number k ∧
        song_length_nanosec song = 0.
Proof.
  apply (initial_track_list default_drive
           (disc 3 [Posted (TocMessage (Some three_track_toc)) 0]) 3).
  - repeat split.
  - unfold INT_MAX. lia.
Defined.

(** ** C6: the order of the signals *)

(** C6.  In every scan, a duration-enriched or tag-enriched list is
    preceded by the initial track list, which is the first signal of the
    scan; and a duration-enriched list comes before a tag-enriched one
    whenever both are emitted. *)
Theorem signals_in_order (this : CddaSongLoader) (w : World)
    (i j : nat) (a b : Signal) :
  signals (trace (LoadSongsFromCdda this w)) !! i = Some a →
  signals (trace (LoadSongsFromCdda this w)) !! j = Some b →
  (is_enriched b = true →
   (0 < j)%nat ∧
   ∃ songs, signals (trace (LoadSongsFromCdda this w)) !! 0%nat
            = Some (SongsLoaded songs)) ∧
  (∀ durations tagged,
     a = SongsDurationLoaded durations → b = SongsMetadataLoaded tagged →
     (i < j)%nat).
Proof.
  destruct (scan_signals this w)
    as [->|(N & durations & closing & _ & -> & Hd & Hc)];
    [intros H; inversion H|].
  assert (closing = [] ∨ ∃ st, closing = closing_signals st) as Hc'.
  { destruct Hc as [->|(st & _ & ->)]; eauto. }
  clear Hc. intros Ha Hb. split.
  - intros He. split; [|eexists; reflexivity].
    destruct j; [|lia]. cbn in Hb. inversion Hb; subst. discriminate.
  - intros ds ts -> ->.
    destruct Hd as [->|[songs ->]];
      (destruct Hc' as [->|[st ->]];
       [|destruct (closing_signals_cases st) as [H|[H|[H|H]]]; rewrite H in *]);
      cbn in Ha, Hb;
      repeat (destruct i as [|i]; cbn in Ha; try discriminate);
      repeat (destruct j as [|j]; cbn in Hb; try discriminate);
      lia.
Qed.

Lemma signals_in_order_witness :
  let run := LoadSongsFromCdda default_drive
               (disc 1 [Posted (TocMessage (Some {| gst_toc_get_entries := [entry 0 second] |})) 0;
                        Posted (TagMessage (cd_text 1 "Intro" "disc-1")) 0]) in
  signals (trace run) !! 1%nat
  = Some (SongsDurationLoaded [set_length_nanosec second (initial_song None 1)]) ∧
  signals (trace run) !! 2%nat
  = Some (SongsMetadataLoaded
            [identify None 1 (set_title "Intro" (initial_song None 1))]) ∧
  (∃ songs, signals (trace run) !! 0%nat = Some (SongsLoaded songs)) ∧
  (1 < 2)%nat.
Proof.
  intros run.
  destruct (signals_in_order default_drive
              (disc 1 [Posted (TocMessage (Some {| gst_toc_get_entries := [entry 0 second] |})) 0;
                       Posted (TagMessage (cd_text 1 "Intro" "disc-1")) 0])
              1 2 _ _ eq_refl eq_refl) as [Hfirst Horder].
  split; [reflexivity|]. split; [reflexivity|]. split.
  - exact (proj2 (Hfirst eq_refl)).
  - exact (Horder _ _ eq_refl eq_refl).
Defined.

(** ** C7: the disc identifier *)

(** C7.  In every scan the disc identifier is assigned at most once: the
    one line the assignment logs is there exactly when a handled tag event
    carries a disc-identifier field, and names the value of the first such
    event; the identifier emitted after the loop is that same value, and
    none is emitted when no handled event carried one.  From any state of
    the loop, an identifier that is set stays as it is whatever events
    follow, and one that is empty becomes the first one carried. *)
Theorem disc_identifier_set_once (this : CddaSongLoader) (w : World) :
  let run := LoadSongsFromCdda this w in
  let seen := first_discid (handled (trace run)) in
  infos (trace run) = discid_log seen ∧
  (length (infos (trace run)) ≤ 1)%nat ∧
  (∀ d, MusicBrainzDiscIdLoaded d ∈ signals (trace run) ↔
        outcome run = Done tt ∧ seen = Some d) ∧
  (∀ url_ num_tracks events st st',
     outcome (wait_events url_ num_tracks events st) = Done st' →
     musicbrainz_discid st' =
     if isEmpty (musicbrainz_discid st)
     then default "" (first_discid
                        (handled (trace (wait_events url_ num_tracks events st))))
     else musicbrainz_discid st).
Proof.
  intros run seen.
  assert (infos (trace run) = discid_log seen ∧
          (∀ d, MusicBrainzDiscIdLoaded d ∈ signals (trace run) ↔
                outcome run = Done tt ∧ seen = Some d)) as [Hi Hs].
  { subst run seen.
    destruct (reaches_loop_dec this w) as [[N HN]|Hno].
    - rewrite (scan_handled _ _ _ HN), (scan_unfold _ _ _ HN). cbn zeta.
      set (st0 := start_state (make_initial_song_list (url_ this) N) w).
      destruct (event_loop_discid (url_ this) N (timeline w) st0 eq_refl) as [Hi Hd].
      pose proof (event_loop_signals (url_ this) N (timeline w) st0 filter_wf_start)
        as Hsig.
      destruct (outcome (event_loop (url_ this) N (timeline w) st0)) as [st'|f];
        cbn [trace outcome fst snd].
      + specialize (Hd st' eq_refl). split.
        * change (infos (Emit ?s :: ?t)) with (infos t).
          rewrite infos_app, emit_results_infos, app_nil_r. exact Hi.
        * intros d. change (signals (Emit ?s :: ?t)) with (s :: signals t).
          rewrite signals_app, emit_results_signals, elem_of_cons, elem_of_app,
            closing_signals_discid.
          split.
          -- intros [H|[H|[He ->]]]; [discriminate| |].
             ++ destruct Hsig as [Hn|[songs Hn]]; rewrite Hn in H;
                  [inversion H|apply list_elem_of_singleton in H; discriminate].
             ++ split; [reflexivity|]. rewrite Hd in *.
                destruct (first_discid _) as [d|]; [reflexivity|discriminate].
          -- intros [_ Hseen]. right. right. rewrite Hd, Hseen. cbn.
             split; [|reflexivity]. eapply first_discid_nonempty, Hseen.
      + split; [exact Hi|]. intros d.
        change (signals (Emit ?s :: ?t)) with (s :: signals t).
        rewrite elem_of_cons. split; [|intros [? _]; discriminate].
        intros [H|H]; [discriminate|].
        destruct Hsig as [Hn|[songs Hn]]; rewrite Hn in H;
          [inversion H|apply list_elem_of_singleton in H; discriminate].
    - destruct (scan_stopped _ _ Hno) as [->|[_ ->]]; cbn;
        (split; [reflexivity|]); intros d; rewrite elem_of_nil;
        (split; [intros []|intros [_ ?]; discriminate]). }
  split; [exact Hi|]. split; [|split; [exact Hs|]].
  - rewrite Hi. destruct seen; cbn; lia.
  - intros url_ num_tracks events st st' H.
    destruct (wait_events_discid url_ num_tracks events st) as [_ Hd].
    exact (Hd st' H).
Qed.

Lemma disc_identifier_set_once_witness :
  let run := LoadSongsFromCdda default_drive (disc 2 two_discids) in
  infos (trace run) = ["MusicBrainz discid: first-id"] ∧
  MusicBrainzDiscIdLoaded "first-id" ∈ signals (trace run) ∧
  (∃ st', outcome (wait_events None 2 two_discids
                     (start_state (make_initial_song_list None 2) (disc 2 [])))
          = Done st' ∧ musicbrainz_discid st' = "first-id").
Proof.
  intros run.
  destruct (disc_identifier_set_once default_drive (disc 2 two_discids))
    as (Hinfos & _ & Hsignal & Hloop).
  split; [exact Hinfos|]. split.
  - apply Hsignal. split; reflexivity.
  - eexists. split; [reflexivity|].
    exact (Hloop None 2 two_discids
             (start_state (make_initial_song_list None 2) (disc 2 [])) _ eq_refl).
Defined.

Example first_discid_wins :
  signals (trace (LoadSongsFromCdda default_drive (disc 2 two_discids)))
  = [SongsLoaded (make_initial_song_list None 2);
     SongsMetadataLoaded
       [identify None 1 (set_title "One" (initial_song None 1));
        identify None 2 (set_title "Two" (initial_song None 2))];
     MusicBrainzDiscIdLoaded "first-id"] ∧
  infos (trace (LoadSongsFromCdda default_drive (disc 2 two_discids)))
  = ["MusicBrainz discid: first-id"].
Proof. split; reflexivity. Qed.

(** ** C8: the answer of the metadata lookup *)

(** C8.  When the lookup returns no result, [AudioCDTagsLoaded] emits
    nothing.  When it returns results, it emits one tag-enriched list and
    nothing else; the list has one song per result, in the order of the
    results; the song of the result at position [i] (from 0) has track
    number and id [i + 1], the title and year of the result, the artist
    and album given, and the duration of the result in milliseconds times
    1000000. *)
Theorem metadata_lookup_applied (this : CddaSongLoader) (artist album : string)
    (results : MusicBrainzClient.ResultList) :
  Forall (λ ret, in_int_range (MusicBrainzClient.duration_msec_ ret)) results →
  match results with
  | [] => AudioCDTagsLoaded this artist album results = ([], Done tt)
  | _ :: _ =>
      ∃ songs,
        AudioCDTagsLoaded this artist album results
        = ([Emit (SongsMetadataLoaded songs)], Done tt) ∧
        length songs = length results ∧
        ∀ (i : nat) ret, results !! i = Some ret →
          ∃ song, songs !! i = Some song ∧
            song_track song = Z.of_nat i + 1 ∧
            song_id song = Z.of_nat i + 1 ∧
            song_title song = MusicBrainzClient.title_ ret ∧
            song_year song = MusicBrainzClient.year_ ret ∧
            song_artist song = artist ∧
            song_album song = album ∧
            song_length_nanosec song
            = MusicBrainzClient.duration_msec_ ret * 1000000
  end.
Proof.
  intros Hrange. destruct results as [|ret0 rest]; [reflexivity|].
  eexists. split; [reflexivity|]. split; [apply songs_of_results_length|].
  intros i ret Hi. rewrite songs_of_results_lookup, Hi. cbn [fmap option_fmap option_map].
  eexists. split; [reflexivity|].
  cbn. repeat split; try lia.
  unfold to_qint64, kNsecPerMsec. apply wrap_signed_64_small.
  rewrite Forall_forall in Hrange.
  specialize (Hrange ret (list_elem_of_lookup_2 _ _ _ Hi)).
  unfold in_int_range, INT_MAX in Hrange. lia.
Qed.

Lemma metadata_lookup_applied_witness :
  ∃ songs,
    AudioCDTagsLoaded default_drive "Artist" "Album"
      [lookup_result "One" 180000 1999; lookup_result "Two" 210000 1999]
    = ([Emit (SongsMetadataLoaded songs)], Done tt) ∧
    length songs = 2%nat ∧
    ∀ (i : nat) ret,
      [lookup_result "One" 180000 1999; lookup_result "Two" 210000 1999] !! i
      = Some ret →
      ∃ song, songs !! i = Some song ∧
        song_track song = Z.of_nat i + 1 ∧
        song_id song = Z.of_nat i + 1 ∧
        song_title song = MusicBrainzClient.title_ ret ∧
        song_year song = MusicBrainzClient.year_ ret ∧
        song_artist song = "Artist" ∧
        song_album song = "Album" ∧
        song_length_nanosec song
        = MusicBrainzClient.duration_msec_ ret * 1000000.
Proof.
  apply (metadata_lookup_applied default_drive "Artist" "Album"
           [lookup_result "One" 180000 1999; lookup_result "Two" 210000 1999]).
  repeat constructor; unfold in_int_range, INT_MAX; cbn; lia.
Defined.

(** ** C9: a scan that cannot start *)

(** C9, as the code has it.  When the element cannot be created, a state
    change fails or the track count cannot be queried, the scan returns
    without a fault, emits no signal, waits for no event and handles none.
    It logs an error when it is the track-count query that fails, and
    nothing when it is a state change. *)
Theorem scan_stops_on_failure (this : CddaSongLoader) (w : World) :
  (cdiocddasrc_created w = false ∨ state_ready_fails w = true ∨
   state_paused_fails w = true ∨ track_count w = None) →
  outcome (LoadSongsFromCdda this w) = Done tt ∧
  signals (trace (LoadSongsFromCdda this w)) = [] ∧
  handled (trace (LoadSongsFromCdda this w)) = [] ∧
  (WaitBegin ∉ trace (LoadSongsFromCdda this w)) ∧
  (may_load_ this = true → cdiocddasrc_created w = true →
   state_ready_fails w = false → state_paused_fails w = false →
   logged (trace (LoadSongsFromCdda this w)) = [(Error, track_count_query_failed)]) ∧
  (cdiocddasrc_created w = true →
   (state_ready_fails w = true ∨ state_paused_fails w = true) →
   logged (trace (LoadSongsFromCdda this w)) = []).
Proof.
  intros Hfail.
  assert (∀ N, ¬ reaches_loop this w N) as Hno.
  { intros N (_ & H2 & H3 & H4 & H5).
    destruct Hfail as [H|[H|[H|H]]]; congruence. }
  destruct (scan_stopped this w Hno) as [Hrun|[Hcount Hrun]].
  - rewrite Hrun. repeat split; try reflexivity.
    + intros Hin. inversion Hin.
    + intros Hm H2 H3 H4. exfalso.
      destruct Hfail as [H|[H|[H|H]]]; try congruence.
      revert Hrun. unfold LoadSongsFromCdda.
      rewrite Hm, H2, H3, H4, H. cbn. discriminate.
  - rewrite Hrun. repeat split; try reflexivity.
    + intros Hin. apply list_elem_of_singleton in Hin. discriminate.
    + intros H2 H34. exfalso. revert Hrun. unfold LoadSongsFromCdda.
      destruct (may_load_ this); [|discriminate]. rewrite H2.
      destruct H34 as [->| ->]; [discriminate|].
      destruct (state_ready_fails w); discriminate.
Qed.

Lemma scan_stops_on_failure_witness :
  (outcome (LoadSongsFromCdda default_drive no_disc) = Done tt ∧
   signals (trace (LoadSongsFromCdda default_drive no_disc)) = [] ∧
   logged (trace (LoadSongsFromCdda default_drive no_disc)) = []) ∧
  (outcome (LoadSongsFromCdda default_drive no_track_count) = Done tt ∧
   signals (trace (LoadSongsFromCdda default_drive no_track_count)) = [] ∧
   logged (trace (LoadSongsFromCdda default_drive no_track_count))
   = [(Error, track_count_query_failed)]).
Proof.
  split.
  - destruct (scan_stops_on_failure default_drive no_disc
                (or_intror (or_introl eq_refl)))
      as (Hout & Hsig & _ & _ & _ & Hlog).
    split; [exact Hout|]. split; [exact Hsig|].
    exact (Hlog eq_refl (or_introl eq_refl)).
  - destruct (scan_stops_on_failure default_drive no_track_count
                (or_intror (or_intror (or_intror eq_refl))))
      as (Hout & Hsig & _ & _ & Hlog & _).
    split; [exact Hout|]. split; [exact Hsig|].
    exact (Hlog eq_refl eq_refl eq_refl eq_refl).
Defined.

(** The claim as it was stated asks for a logged condition in each case.
    A failed state change leaves nothing in the log. *)
Lemma failed_state_change_logs_nothing :
  state_ready_fails no_disc = true ∧
  LoadSongsFromCdda default_drive no_disc = ([], Done tt) ∧
  logged (trace (LoadSongsFromCdda default_drive no_disc)) = [].
Proof. repeat split. Qed.

(** ** C10: the flag [may_load_] *)

(** C10, as the code has it.  A scan started with the flag cleared does
    nothing.  A loop test that finds the flag cleared ends the loop: no
    wait begins and no event is handled.  A wait that is in progress when
    the flag is cleared is not interrupted: in any scan, what follows the
    store holds no new wait and at most one handled event, the one that
    wait delivers.  What was harvested is kept through the rest of the loop
    and is emitted after it: the signals of a scan whose loop returns end
    with the tag-enriched list, if [loaded_cd_tags] is set, and the disc
    identifier, if there is one, whatever the flag. *)
Theorem cancellation_is_cooperative (this : CddaSongLoader) (w : World) (N : Z)
    (events : list WorldEvent) (st : ScanState) :
  (may_load_ this = false → LoadSongsFromCdda this w = ([], Done tt)) ∧
  (may_load st = false → event_loop (url_ this) N events st = ([], Done st)) ∧
  (∀ before after,
     trace (LoadSongsFromCdda this w) = before ++ MayLoadCleared :: after →
     (WaitBegin ∉ after) ∧ (length (handled after) ≤ 1)%nat) ∧
  (∀ st', outcome (wait_events (url_ this) N events st) = Done st' →
     (loaded_cd_tags st = true → loaded_cd_tags st' = true) ∧
     (isEmpty (musicbrainz_discid st) = false →
      musicbrainz_discid st' = musicbrainz_discid st)) ∧
  (reaches_loop this w N →
   ∀ st', outcome (event_loop (url_ this) N (timeline w)
                     (start_state (make_initial_song_list (url_ this) N) w))
          = Done st' →
     ∃ earlier,
       signals (trace (LoadSongsFromCdda this w)) = earlier ++ closing_signals st').
Proof.
  split; [|split; [|split; [|split]]].
  - intros H. unfold LoadSongsFromCdda. rewrite H. reflexivity.
  - intros H. unfold event_loop, loop_condition. rewrite H. reflexivity.
  - apply scan_after_teardown.
  - apply wait_events_keeps.
  - intros HN st' Hout. rewrite (scan_unfold _ _ _ HN). cbn zeta.
    rewrite Hout. cbn [trace fst].
    change (signals (Emit ?s :: ?t)) with (s :: signals t).
    rewrite signals_app, emit_results_signals.
    eexists (_ :: _). reflexivity.
Qed.

Lemma cancellation_is_cooperative_witness :
  let w := disc 2 teardown_after_first_tags in
  let st := with_may_load false (start_state (make_initial_song_list None 2) w) in
  LoadSongsFromCdda destroyed_loader w = ([], Done tt) ∧
  event_loop None 2 two_discids st = ([], Done st) ∧
  ((WaitBegin ∉ [Emit (SongsMetadataLoaded
                         [identify None 1 (set_title "One" (initial_song None 1));
                          initial_song None 2]);
                 Emit (MusicBrainzDiscIdLoaded "first-id")]) ∧
   (length (handled
              [Emit (SongsMetadataLoaded
                       [identify None 1 (set_title "One" (initial_song None 1));
                        initial_song None 2]);
               Emit (MusicBrainzDiscIdLoaded "first-id")]) ≤ 1)%nat) ∧
  (∃ earlier,
     signals (trace (LoadSongsFromCdda default_drive w))
     = earlier ++ [SongsMetadataLoaded
                     [identify None 1 (set_title "One" (initial_song None 1));
                      initial_song None 2];
                   MusicBrainzDiscIdLoaded "first-id"]) ∧
  (∃ st', outcome (wait_events None 2 [Teardown; Posted (TagMessage (cd_text 2 "Two" "second-id")) 1]
                     (with_discid "first-id" (with_tags (tagged_song_list st) true st)))
          = Done st' ∧
          loaded_cd_tags st' = true ∧ musicbrainz_discid st' = "first-id").
Proof.
  intros w st. split; [|split; [|split; [|split]]]; cycle 4.
  - eexists. split; [reflexivity|].
    destruct (proj1 (proj2 (proj2 (proj2
                (cancellation_is_cooperative default_drive w 2
                   [Teardown; Posted (TagMessage (cd_text 2 "Two" "second-id")) 1]
                   (with_discid "first-id" (with_tags (tagged_song_list st) true st))))))
                _ eq_refl) as [Hl Hd].
    split; [exact (Hl eq_refl)|exact (Hd eq_refl)].
  - exact (proj1 (cancellation_is_cooperative destroyed_loader w 2 two_discids st)
             eq_refl).
  - exact (proj1 (proj2 (cancellation_is_cooperative default_drive w 2 two_discids st))
             eq_refl).
  - exact (proj1 (proj2 (proj2
             (cancellation_is_cooperative default_drive w 2 two_discids st)))
             [Emit (SongsLoaded (make_initial_song_list None 2)); WaitBegin;
              Handle (TagMessage (cd_text 1 "One" "first-id"));
              Log Info "MusicBrainz discid: first-id";
              LogTags (cd_text 1 "One" "first-id"); Seek 1; WaitBegin]
             _ eq_refl).
  - exact (proj2 (proj2 (proj2 (proj2
             (cancellation_is_cooperative default_drive w 2 two_discids st))))
             ltac:(repeat split) _ eq_refl).
Defined.

(** The claim as it was stated has no event handled once the flag is
    cleared.  When the destructor clears it while the scan waits for its
    first message, the tag event that the wait then delivers is still
    handled, after the store; the loop ends at its next test. *)
Lemma event_handled_after_flag_cleared :
  ∃ after,
    trace (LoadSongsFromCdda default_drive (disc 2 teardown_during_first_wait))
    = [Emit (SongsLoaded (make_initial_song_list None 2)); WaitBegin]
      ++ MayLoadCleared :: after ∧
    handled after = [TagMessage (cd_text 1 "One" "first-id")].
Proof. eexists. split; reflexivity. Qed.

(** * Further properties of the loader *)

(** ** [GetUrlFromTrack] *)





(** ** [ParseSongTags] on a track number in range *)

Lemma to_int_small (x : Z) : - 2147483648 ≤ x ≤ INT_MAX → to_int x = x.
Proof.
  unfold to_int, wrap_signed, INT_MAX. intros H.
  change (2 ^ (32 - 1)) with 2147483648. change (2 ^ 32) with 4294967296.
  rewrite Z.mod_small; lia.
Qed.

Lemma to_guint_small (x : Z) : 0 ≤ x < 4294967296 → to_guint x = x.
Proof.
  unfold to_guint, wrap_unsigned. change (2 ^ 32) with 4294967296.
  apply Z.mod_small.
Qed.

Lemma ParseSongTags_in_range (url_ : QUrl) (songs : list Song) (tags : GstTagList)
    (track_number : Z) :
  gst_tag_list_get_uint tags GST_TAG_TRACK_NUMBER = Some track_number →
  1 ≤ track_number ≤ QList_size songs →
  QList_size songs ≤ INT_MAX →
  ∃ song,
    songs !! Z.to_nat (track_number - 1) = Some song ∧
    to_int track_number = track_number ∧
    ParseSongTags url_ songs tags =
    ([LogTags tags],
     Done (<[Z.to_nat (track_number - 1) :=
               identify url_ track_number (harvest tags song).1]> songs,
           (harvest tags song).2)).
Proof.
  intros Hget Hin Hmax. unfold QList_size, INT_MAX in *.
  destruct (lookup_lt_is_Some_2 songs (Z.to_nat (track_number - 1)))
    as [song Hsong]; [lia|].
  exists song. split; [exact Hsong|].
  assert (to_int track_number = track_number) as Hint
    by (apply to_int_small; unfold INT_MAX; lia).
  split; [exact Hint|].
  unfold ParseSongTags. rewrite Hget, Hint.
  destruct (Z.eqb_spec track_number 0) as [|_]; [exfalso; lia|].
  destruct (Z.leb_spec track_number (QList_size songs)) as [_|];
    [|exfalso; unfold QList_size in *; lia].
  cbn [negb Q_ASSERT]. rewrite !bind_ret.
  rewrite to_guint_small by lia.
  rewrite to_int_small by (unfold INT_MAX; lia).
  unfold QList_at.
  destruct (Z.leb_spec 0 (track_number - 1)); [|exfalso; lia].
  rewrite Hsong, bind_ret, tell_then.
  destruct (harvest tags song) as [song' has]. reflexivity.
Qed.

Lemma harvest_attributes (tags : GstTagList) (song : Song) :
  let song' := (harvest tags song).1 in
  song_album song' = merged tags GST_TAG_ALBUM (song_album song) ∧
  song_albumartist song' = merged tags GST_TAG_ALBUM_ARTIST (song_albumartist song) ∧
  song_genre song' = merged tags GST_TAG_GENRE (song_genre song) ∧
  song_artist song' = merged tags GST_TAG_ARTIST (song_artist song) ∧
  song_title song' = merged tags GST_TAG_TITLE (song_title song) ∧
  song_length_nanosec song' = merged_duration tags (song_length_nanosec song) ∧
  song_year song' = song_year song.
Proof.
  unfold harvest, harvest_string, harvest_duration, merged, merged_duration.
  destruct (gst_tag_list_get_string tags GST_TAG_ALBUM),
    (gst_tag_list_get_string tags GST_TAG_ALBUM_ARTIST),
    (gst_tag_list_get_string tags GST_TAG_GENRE),
    (gst_tag_list_get_string tags GST_TAG_ARTIST),
    (gst_tag_list_get_string tags GST_TAG_TITLE),
    (gst_tag_list_get_uint64 tags GST_TAG_DURATION); repeat split.
Qed.

(** Reading the same tags into a song twice is reading them once. *)
Lemma identify_harvest_twice (url_ : QUrl) (tags : GstTagList) (n : Z) (song : Song) :
  identify url_ n (harvest tags (identify url_ n (harvest tags song).1)).1
  = identify url_ n (harvest tags song).1.
Proof.
  unfold harvest, harvest_string, harvest_duration.
  destruct (gst_tag_list_get_string tags GST_TAG_ALBUM),
    (gst_tag_list_get_string tags GST_TAG_ALBUM_ARTIST),
    (gst_tag_list_get_string tags GST_TAG_GENRE),
    (gst_tag_list_get_string tags GST_TAG_ARTIST),
    (gst_tag_list_get_string tags GST_TAG_TITLE),
    (gst_tag_list_get_uint64 tags GST_TAG_DURATION); reflexivity.
Qed.

(** X2.  A tag event whose track number [n] lies in [1..size] (a [QList]
    holds at most [INT_MAX] songs) makes [ParseSongTags] return without a
    fault, logging the tags only.  The list keeps its length; every song
    but the one at index [n - 1] is as before; that one has track number
    and id [n], the URL of track [n], the CD type and is valid. *)
Theorem ParseSongTags_touches_one_song (url_ : QUrl) (songs : list Song)
    (tags : GstTagList) (n : Z) :
  gst_tag_list_get_uint tags GST_TAG_TRACK_NUMBER = Some n →
  1 ≤ n ≤ QList_size songs →
  QList_size songs ≤ INT_MAX →
  ∃ songs' loaded song',
    ParseSongTags url_ songs tags = ([LogTags tags], Done (songs', loaded)) ∧
    length songs' = length songs ∧
    (∀ i, i ≠ Z.to_nat (n - 1) → songs' !! i = songs !! i) ∧
    songs' !! Z.to_nat (n - 1) = Some song' ∧
    song_track song' = n ∧ song_id song' = n ∧
    song_url song' = GetUrlFromTrack url_ n ∧
    song_filetype song' = Type_Cdda ∧ song_valid song' = true.
Proof.
  intros Hget Hin Hmax.
  destruct (ParseSongTags_in_range url_ songs tags n Hget Hin Hmax)
    as (song & Hsong & Hint & Hrun).
  eexists _, _, _. split; [exact Hrun|]. split; [apply length_insert|].
  split; [intros i Hi; apply list_lookup_insert_ne; congruence|].
  split; [apply list_lookup_insert_eq; eapply lookup_lt_Some, Hsong|].
  unfold identify. rewrite Hint. repeat split.
Qed.

Lemma ParseSongTags_touches_one_song_witness :
  ∃ songs' loaded song',
    ParseSongTags None (make_initial_song_list None 3) (cd_text 2 "Two" "id")
    = ([LogTags (cd_text 2 "Two" "id")], Done (songs', loaded)) ∧
    length songs' = 3%nat ∧
    (∀ i, i ≠ 1%nat → songs' !! i = make_initial_song_list None 3 !! i) ∧
    songs' !! 1%nat = Some song' ∧
    song_track song' = 2 ∧ song_id song' = 2 ∧
    song_url song' = "cdda://2" ∧
    song_filetype song' = Type_Cdda ∧ song_valid song' = true.
Proof.
  apply (ParseSongTags_touches_one_song None (make_initial_song_list None 3)
           (cd_text 2 "Two" "id") 2 eq_refl).
  - vm_compute. split; discriminate.
  - vm_compute. discriminate.
Defined.

(** X3.  On such an event [ParseSongTags] gives the song at index [n - 1]
    the album, album artist, genre, artist and title the event carries,
    and its duration, and leaves each of these as it was when the event
    does not carry it; the year is never changed.  It returns [true]
    exactly when the event carries one of the six fields. *)
Theorem ParseSongTags_merges_fields (url_ : QUrl) (songs : list Song)
    (tags : GstTagList) (n : Z) :
  gst_tag_list_get_uint tags GST_TAG_TRACK_NUMBER = Some n →
  1 ≤ n ≤ QList_size songs →
  QList_size songs ≤ INT_MAX →
  ∃ songs' song song',
    outcome (ParseSongTags url_ songs tags) = Done (songs', carries_metadata tags) ∧
    songs !! Z.to_nat (n - 1) = Some song ∧
    songs' !! Z.to_nat (n - 1) = Some song' ∧
    song_album song' = merged tags GST_TAG_ALBUM (song_album song) ∧
    song_albumartist song' = merged tags GST_TAG_ALBUM_ARTIST (song_albumartist song) ∧
    song_genre song' = merged tags GST_TAG_GENRE (song_genre song) ∧
    song_artist song' = merged tags GST_TAG_ARTIST (song_artist song) ∧
    song_title song' = merged tags GST_TAG_TITLE (song_title song) ∧
    song_length_nanosec song' = merged_duration tags (song_length_nanosec song) ∧
    song_year song' = song_year song.
Proof.
  intros Hget Hin Hmax.
  destruct (ParseSongTags_in_range url_ songs tags n Hget Hin Hmax)
    as (song & Hsong & Hint & Hrun).
  eexists _, song, _. rewrite Hrun. cbn [outcome snd].
  split; [rewrite harvest_flag; reflexivity|]. split; [exact Hsong|].
  split; [apply list_lookup_insert_eq; eapply lookup_lt_Some, Hsong|].
  apply (harvest_attributes tags song).
Qed.

Lemma ParseSongTags_merges_fields_witness :
  ∃ songs' song song',
    outcome (ParseSongTags None (make_initial_song_list None 3) (cd_text 2 "Two" "id"))
    = Done (songs', true) ∧
    make_initial_song_list None 3 !! 1%nat = Some song ∧
    songs' !! 1%nat = Some song' ∧
    song_album song' = song_album song ∧
    song_albumartist song' = song_albumartist song ∧
    song_genre song' = song_genre song ∧
    song_artist song' = song_artist song ∧
    song_title song' = "Two" ∧
    song_length_nanosec song' = song_length_nanosec song ∧
    song_year song' = song_year song.
Proof.
  apply (ParseSongTags_merges_fields None (make_initial_song_list None 3)
           (cd_text 2 "Two" "id") 2 eq_refl).
  - vm_compute. split; discriminate.
  - vm_compute. discriminate.
Defined.

(** ** [ParseSongTags] applied again, and in another order *)

Lemma ParseSongTags_done_inv (url_ : QUrl) (songs songs' : list Song)
    (tags : GstTagList) (t : list Action) (loaded : bool) :
  ParseSongTags url_ songs tags = (t, Done (songs', loaded)) →
  (gst_tag_list_get_uint tags GST_TAG_TRACK_NUMBER = None ∧
   t = [Log Error track_number_missing] ∧ songs' = songs ∧ loaded = false)
  ∨ (∃ n song,
       gst_tag_list_get_uint tags GST_TAG_TRACK_NUMBER = Some n ∧
       (n =? 0) = false ∧
       (to_int n <=? QList_size songs) = true ∧
       (0 <=? to_int (to_guint (n - 1))) = true ∧
       songs !! Z.to_nat (to_int (to_guint (n - 1))) = Some song ∧
       t = [LogTags tags] ∧
       songs' = <[Z.to_nat (to_int (to_guint (n - 1))) :=
                    identify url_ n (harvest tags song).1]> songs ∧
       loaded = (harvest tags song).2).
Proof.
  unfold ParseSongTags.
  destruct (gst_tag_list_get_uint tags GST_TAG_TRACK_NUMBER) as [n|].
  - destruct (n =? 0) eqn:Hz; [discriminate|].
    destruct (to_int n <=? QList_size songs) eqn:Hle; [|discriminate].
    cbn [negb Q_ASSERT]. rewrite !bind_ret. unfold QList_at.
    destruct (0 <=? to_int (to_guint (n - 1))) eqn:Hpos; [|discriminate].
    destruct (songs !! Z.to_nat (to_int (to_guint (n - 1)))) as [song|] eqn:Hsong;
      [|discriminate].
    rewrite bind_ret, tell_then.
    destruct (harvest tags song) as [song' has] eqn:Hh. cbn.
    intros H. inversion H; subst. right. exists n, song.
    rewrite Hh. repeat split; auto.
  - intros H. inversion H; subst. left. repeat split.
Qed.

(** X4.  Handling the same tag event a second time changes nothing: when
    [ParseSongTags] returns, a second call with the same tags on the list
    it left returns the same list, the same value and logs the same. *)
Theorem ParseSongTags_idempotent (url_ : QUrl) (songs songs' : list Song)
    (tags : GstTagList) (t : list Action) (loaded : bool) :
  ParseSongTags url_ songs tags = (t, Done (songs', loaded)) →
  ParseSongTags url_ songs' tags = (t, Done (songs', loaded)).
Proof.
  intros H.
  destruct (ParseSongTags_done_inv _ _ _ _ _ _ H)
    as [(Hn & -> & -> & ->)|(n & song & Hn & Hz & Hle & Hpos & Hsong & -> & -> & ->)];
    [exact H|].
  pose proof (lookup_lt_Some _ _ _ Hsong) as Hlt.
  unfold ParseSongTags. rewrite Hn, Hz. unfold QList_size.
  rewrite length_insert. fold (QList_size songs). rewrite Hle.
  cbn [negb Q_ASSERT]. rewrite !bind_ret. unfold QList_at. rewrite Hpos.
  rewrite list_lookup_insert_eq by exact Hlt.
  rewrite bind_ret, tell_then.
  pose proof (identify_harvest_twice url_ tags n song) as Htwice.
  pose proof (harvest_flag tags (identify url_ n (harvest tags song).1)) as Hflag.
  destruct (harvest tags (identify url_ n (harvest tags song).1)) as [song2 has2].
  cbn [fst snd] in Htwice, Hflag. cbn [trace outcome fst snd mret Run_ret].
  rewrite Htwice, list_insert_insert_eq, Hflag, harvest_flag. reflexivity.
Qed.

Lemma ParseSongTags_idempotent_witness :
  ∃ songs' t loaded,
    ParseSongTags None (make_initial_song_list None 3) (cd_text 2 "Two" "id")
    = (t, Done (songs', loaded)) ∧
    ParseSongTags None songs' (cd_text 2 "Two" "id") = (t, Done (songs', loaded)).
Proof.
  eexists _, _, _. split; [reflexivity|].
  apply (ParseSongTags_idempotent None (make_initial_song_list None 3)).
  reflexivity.
Defined.

(** X5.  Tag events for two different tracks can be handled in either
    order: the list, the values returned and the lines logged for each
    event are the same. *)
Theorem ParseSongTags_commute (url_ : QUrl) (songs : list Song)
    (tags1 tags2 : GstTagList) (n1 n2 : Z) :
  gst_tag_list_get_uint tags1 GST_TAG_TRACK_NUMBER = Some n1 →
  gst_tag_list_get_uint tags2 GST_TAG_TRACK_NUMBER = Some n2 →
  1 ≤ n1 ≤ QList_size songs →
  1 ≤ n2 ≤ QList_size songs →
  QList_size songs ≤ INT_MAX →
  n1 ≠ n2 →
  ∃ after1 after2 both loaded1 loaded2,
    ParseSongTags url_ songs tags1 = ([LogTags tags1], Done (after1, loaded1)) ∧
    ParseSongTags url_ after1 tags2 = ([LogTags tags2], Done (both, loaded2)) ∧
    ParseSongTags url_ songs tags2 = ([LogTags tags2], Done (after2, loaded2)) ∧
    ParseSongTags url_ after2 tags1 = ([LogTags tags1], Done (both, loaded1)).
Proof.
  intros Hg1 Hg2 Hin1 Hin2 Hmax Hne.
  destruct (ParseSongTags_in_range url_ songs tags1 n1 Hg1 Hin1 Hmax)
    as (song1 & Hs1 & _ & Hrun1).
  destruct (ParseSongTags_in_range url_ songs tags2 n2 Hg2 Hin2 Hmax)
    as (song2 & Hs2 & _ & Hrun2).
  assert (Z.to_nat (n1 - 1) ≠ Z.to_nat (n2 - 1)) as Hidx by lia.
  set (after1 := <[Z.to_nat (n1 - 1) := identify url_ n1 (harvest tags1 song1).1]> songs).
  set (after2 := <[Z.to_nat (n2 - 1) := identify url_ n2 (harvest tags2 song2).1]> songs).
  assert (QList_size after1 = QList_size songs) as Hsz1
    by (unfold QList_size, after1; rewrite length_insert; reflexivity).
  assert (QList_size after2 = QList_size songs) as Hsz2
    by (unfold QList_size, after2; rewrite length_insert; reflexivity).
  destruct (ParseSongTags_in_range url_ after1 tags2 n2 Hg2
              ltac:(rewrite Hsz1; exact Hin2) ltac:(rewrite Hsz1; exact Hmax))
    as (song2' & Hs2' & _ & Hrun12).
  destruct (ParseSongTags_in_range url_ after2 tags1 n1 Hg1
              ltac:(rewrite Hsz2; exact Hin1) ltac:(rewrite Hsz2; exact Hmax))
    as (song1' & Hs1' & _ & Hrun21).
  unfold after1 in Hs2'. rewrite list_lookup_insert_ne in Hs2' by exact Hidx.
  unfold after2 in Hs1'. rewrite list_lookup_insert_ne in Hs1' by auto.
  assert (song2' = song2) as -> by congruence.
  assert (song1' = song1) as -> by congruence.
  eexists after1, after2, _, _, _.
  split; [exact Hrun1|]. split; [exact Hrun12|]. split; [exact Hrun2|].
  rewrite Hrun21. unfold after1, after2.
  rewrite (list_insert_insert_ne songs _ _ _ _ Hidx). reflexivity.
Qed.

Lemma ParseSongTags_commute_witness :
  ∃ after1 after2 both loaded1 loaded2,
    ParseSongTags None (make_initial_song_list None 3) (cd_text 1 "One" "id")
    = ([LogTags (cd_text 1 "One" "id")], Done (after1, loaded1)) ∧
    ParseSongTags None after1 (cd_text 3 "Three" "id")
    = ([LogTags (cd_text 3 "Three" "id")], Done (both, loaded2)) ∧
    ParseSongTags None (make_initial_song_list None 3) (cd_text 3 "Three" "id")
    = ([LogTags (cd_text 3 "Three" "id")], Done (after2, loaded2)) ∧
    ParseSongTags None after2 (cd_text 1 "One" "id")
    = ([LogTags (cd_text 1 "One" "id")], Done (both, loaded1)).
Proof.
  apply (ParseSongTags_commute None (make_initial_song_list None 3)
           (cd_text 1 "One" "id") (cd_text 3 "Three" "id") 1 3 eq_refl eq_refl).
  - vm_compute. split; discriminate.
  - vm_compute. split; discriminate.
  - vm_compute. discriminate.
  - lia.
Defined.

(** ** The lists of a scan *)

Lemma numbered_initial (url_ : QUrl) (N : Z) :
  numbered url_ (make_initial_song_list url_ N).
Proof.
  intros i song. unfold make_initial_song_list.
  rewrite list_lookup_fmap. intros H.
  destruct (seqZ 1 N !! i) as [k|] eqn:Hk; [|discriminate].
  apply lookup_seqZ in Hk as [-> _]. cbn in H. injection H as <-.
  replace (Z.of_nat i + 1) with (1 + Z.of_nat i) by lia. repeat split.
Qed.

Lemma numbered_enrich (url_ : QUrl) (entries : list GstTocEntry) (songs : list Song) :
  numbered url_ songs → numbered url_ (zip_with enrich entries songs).
Proof.
  intros Hn i song H.
  apply lookup_zip_with_Some in H as (entry & before & -> & _ & Hb).
  exact (Hn i before Hb).
Qed.

Lemma numbered_identify (url_ : QUrl) (songs : list Song) (n : Z) (song : Song) :
  1 ≤ n → to_int n = n →
  numbered url_ songs →
  numbered url_ (<[Z.to_nat (n - 1) := identify url_ n song]> songs).
Proof.
  intros Hn Hint Hnum i song' H.
  destruct (decide (i = Z.to_nat (n - 1))) as [->|Hne].
  - apply list_lookup_insert_Some in H as [(_ & <- & _)|(Hbad & _)];
      [|contradiction].
    unfold identify. rewrite Hint.
    replace (Z.of_nat (Z.to_nat (n - 1)) + 1) with n by lia. repeat split.
  - rewrite list_lookup_insert_ne in H by auto. exact (Hnum i song' H).
Qed.

Lemma numbered_lookup (url_ : QUrl) (artist album : string)
    (results : MusicBrainzClient.ResultList) :
  numbered url_ (songs_of_results url_ artist album results 1).
Proof.
  intros i song. rewrite songs_of_results_lookup.
  destruct (results !! i) as [ret|]; [|discriminate].
  cbn. intros H. injection H as <-.
  replace (Z.of_nat i + 1) with (1 + Z.of_nat i) by lia. repeat split.
Qed.

(** [ParseSongTags] by the track number of the tags, for a list that a
    [QList] can hold. *)
Lemma ParseSongTags_classified (url_ : QUrl) (songs : list Song) (tags : GstTagList) :
  QList_size songs ≤ INT_MAX →
  match gst_tag_list_get_uint tags GST_TAG_TRACK_NUMBER with
  | None =>
      ParseSongTags url_ songs tags =
      ([Log Error track_number_missing], Done (songs, false))
  | Some n =>
      if (1 <=? n) && (n <=? QList_size songs)
      then ∃ song,
             songs !! Z.to_nat (n - 1) = Some song ∧ to_int n = n ∧
             ParseSongTags url_ songs tags =
             ([LogTags tags],
              Done (<[Z.to_nat (n - 1) := identify url_ n (harvest tags song).1]> songs,
                    (harvest tags song).2))
      else ∃ f, ParseSongTags url_ songs tags = ([], Crash f)
  end.
Proof.
  intros Hmax.
  destruct (gst_tag_list_get_uint tags GST_TAG_TRACK_NUMBER) as [n|] eqn:Hget.
  - pose proof (gst_tag_list_get_uint_range _ _ _ Hget) as Hrange.
    destruct (Z.leb_spec 1 n), (Z.leb_spec n (QList_size songs)); cbn [andb].
    + apply ParseSongTags_in_range; auto.
    + apply (ParseSongTags_out_of_range _ _ _ n Hget). right. assumption.
    + apply (ParseSongTags_out_of_range _ _ _ n Hget). left. lia.
    + apply (ParseSongTags_out_of_range _ _ _ n Hget). left. lia.
  - unfold ParseSongTags. rewrite Hget. reflexivity.
Qed.

Lemma next_track_lists (num_tracks position : Z) (st : ScanState) :
  ∃ t st1,
    next_track num_tracks position st = (t, Done st1) ∧
    initial_song_list st1 = initial_song_list st ∧
    tagged_song_list st1 = tagged_song_list st ∧
    emitted_lists t = [].
Proof.
  destruct (next_track_cases num_tracks position st) as [[k ->]| ->];
    eexists _, _; repeat split.
Qed.

Lemma emitted_lists_app (t1 t2 : list Action) :
  emitted_lists (t1 ++ t2) = emitted_lists t1 ++ emitted_lists t2.
Proof. unfold emitted_lists. rewrite signals_app. apply omap_app. Qed.

Section lists_in_loop.
Variables (url_ : QUrl) (N : Z).
Hypothesis N_fits : N ≤ INT_MAX.

(** One iteration: the body returns exactly on a message that fits the
    disc; the lists stay those of the disc, the tag-enriched list takes
    the tags, and a list the body emits is the duration-enriched one. *)
Lemma loop_body_lists (msg : GstMessage) (position : Z) (st : ScanState) :
  lists_of_disc url_ N st →
  match outcome (loop_body url_ N msg position st) with
  | Done st1 =>
      fits_disc N msg = true ∧ lists_of_disc url_ N st1 ∧
      tagged_song_list st1 = read_message url_ (tagged_song_list st) msg ∧
      ∀ songs, songs ∈ emitted_lists (trace (loop_body url_ N msg position st)) →
               songs = initial_song_list st1
  | Crash f => fits_disc N msg = false
  end.
Proof.
  intros (Hli & Hlt & Hni & Hnt).
  destruct msg as [[toc|]|tags]; cbn [loop_body fits_disc read_message].
  - destruct (gst_toc_get_entries toc) as [|e es] eqn:He.
    { rewrite handle_toc_rejected by (left; exact He). cbn.
      split; [apply Z.leb_le; lia|].
      unfold lists_of_disc; split_and!; auto. intros songs Hin. inversion Hin. }
    rewrite <- He.
    destruct (lt_eq_lt_dec (length (gst_toc_get_entries toc))
                           (length (initial_song_list st))) as [[Hlt'|Heq]|Hgt].
    + rewrite handle_toc_rejected by (right; exact Hlt'). cbn.
      split; [apply Z.leb_le; lia|].
      unfold lists_of_disc; split_and!; auto. intros songs Hin. inversion Hin.
    + rewrite handle_toc_accepted by first [exact Heq|rewrite He; discriminate].
      cbn zeta.
      cbn [outcome trace fst snd with_toc_done initial_song_list tagged_song_list].
      split; [apply Z.leb_le; lia|].
      split; [|split; [reflexivity|]].
      * unfold lists_of_disc.
        cbn [with_toc_done initial_song_list tagged_song_list].
        split_and!; auto.
        -- rewrite length_zip_with. lia.
        -- apply numbered_enrich, Hni.
      * intros songs Hin. apply list_elem_of_singleton in Hin. exact Hin.
    + rewrite handle_toc_overrun by exact Hgt. cbn. apply Z.leb_gt. lia.
  - cbn. unfold lists_of_disc; split_and!; auto. intros songs Hin. inversion Hin.
  - destruct (handle_tag_unfold url_ N tags position st) as (t0 & st0 & H0 & ->).
    destruct (read_discid_fields _ _ _ _ H0) as (Ht0 & Hi0 & _ & _).
    assert (emitted_lists t0 = []) as Ht0nil.
    { destruct (read_discid_cases tags st) as [[H _]|(d & _ & _ & H)];
        rewrite H in H0; inversion H0; reflexivity. }
    rewrite Ht0. unfold read_tags.
    pose proof (ParseSongTags_classified url_ (tagged_song_list st) tags
                  ltac:(pose proof N_fits; unfold QList_size, INT_MAX in *; lia))
      as Hparse.
    destruct (gst_tag_list_get_uint tags GST_TAG_TRACK_NUMBER) as [n|] eqn:Hget.
    + replace ((1 <=? n) && (n <=? QList_size (tagged_song_list st)))
        with ((1 <=? n) && (n <=? N)) in Hparse.
      2:{ unfold QList_size. rewrite Hlt.
          destruct (Z.leb_spec 1 n), (Z.leb_spec n N),
            (Z.leb_spec n (Z.of_nat (Z.to_nat N)));
            try reflexivity; exfalso; lia. }
      destruct ((1 <=? n) && (n <=? N)) eqn:Hin.
      * destruct Hparse as (song & Hsong & Hint & ->). cbn [outcome trace fst snd].
        rewrite Hsong. apply andb_true_iff in Hin as [H1 _]. apply Z.leb_le in H1.
        destruct (next_track_lists N position
                    (with_tags
                       (<[Z.to_nat (n - 1) := identify url_ n (harvest tags song).1]>
                          (tagged_song_list st))
                       (loaded_cd_tags st0 || (harvest tags song).2) st0))
          as (t & st1 & -> & Hi1 & Ht1 & Hnil).
        cbn [outcome trace fst snd with_tags initial_song_list tagged_song_list]
          in *.
        split; [reflexivity|]. split; [|split; [exact Ht1|]].
        -- unfold lists_of_disc. rewrite Hi1, Ht1, Hi0, length_insert.
           split_and!; auto. apply numbered_identify; auto.
        -- intros songs Hel.
           rewrite emitted_lists_app, Ht0nil, emitted_lists_app, Hnil in Hel.
           inversion Hel.
      * destruct Hparse as (f & ->). reflexivity.
    + rewrite Hparse. cbn [outcome trace fst snd].
      destruct (next_track_lists N position
                  (with_tags (tagged_song_list st) (loaded_cd_tags st0 || false) st0))
        as (t & st1 & -> & Hi1 & Ht1 & Hnil).
      cbn [outcome trace fst snd with_tags initial_song_list tagged_song_list]
        in *.
      split; [reflexivity|]. split; [|split; [exact Ht1|]].
      * unfold lists_of_disc. rewrite Hi1, Ht1, Hi0. split_and!; auto.
      * intros songs Hel.
        rewrite emitted_lists_app, Ht0nil, emitted_lists_app, Hnil in Hel.
        inversion Hel.
Qed.

(** The loop as a whole: every list it emits is a list of the disc; when
    it returns, the tag-enriched list is the one it started with, with
    the handled messages read into it in order; and it returns exactly
    when every handled message fits the disc. *)
Lemma wait_events_lists (events : list WorldEvent) (st : ScanState) :
  lists_of_disc url_ N st →
  let r := wait_events url_ N events st in
  (∀ songs, songs ∈ emitted_lists (trace r) →
            length songs = Z.to_nat N ∧ numbered url_ songs) ∧
  (∀ st', outcome r = Done st' →
          lists_of_disc url_ N st' ∧
          tagged_song_list st' =
          foldl (read_message url_) (tagged_song_list st) (handled (trace r))) ∧
  returned r = forallb (fits_disc N) (handled (trace r)).
Proof.
  revert events st.
  apply (wait_events_induction url_ N
           (λ st r,
              lists_of_disc url_ N st →
              (∀ songs, songs ∈ emitted_lists (trace r) →
                        length songs = Z.to_nat N ∧ numbered url_ songs) ∧
              (∀ st', outcome r = Done st' →
                      lists_of_disc url_ N st' ∧
                      tagged_song_list st' =
                      foldl (read_message url_) (tagged_song_list st)
                            (handled (trace r))) ∧
              returned r = forallb (fits_disc N) (handled (trace r)))).
  - intros st Hinv. split; [intros songs Hin; inversion Hin|].
    split; [|reflexivity]. intros st' H. inversion H; subst. auto.
  - intros st later r IH Hinv. exact (IH Hinv).
  - intros st msg position tb f Hp Hb Hinv.
    pose proof (loop_body_lists msg position st Hinv) as Hbody.
    rewrite Hb in Hbody. cbn [outcome snd] in Hbody.
    pose proof (loop_body_crash_quiet _ _ _ _ _ _ _ Hb) as Hq.
    change (handled (trace (Handle msg :: tb, Crash f))) with (msg :: handled tb).
    change (emitted_lists (trace (Handle msg :: tb, Crash f)))
      with (emitted_lists tb).
    unfold emitted_lists. rewrite (quiet_signals _ Hq), (quiet_handled _ Hq).
    split; [intros songs Hin; inversion Hin|].
    split; [discriminate|]. cbn [forallb]. rewrite Hbody. reflexivity.
  - intros st msg position tb st1 Hp Hb _ Hinv.
    pose proof (loop_body_lists msg position st Hinv) as Hbody.
    pose proof (loop_body_actions url_ N msg position st) as Hact.
    rewrite Hb in Hbody, Hact. cbn [outcome trace fst snd] in Hbody, Hact.
    destruct Hbody as (Hfit & Hinv1 & Htag & Hem).
    change (handled (trace (Handle msg :: tb, Done st1))) with (msg :: handled tb).
    change (emitted_lists (trace (Handle msg :: tb, Done st1)))
      with (emitted_lists tb).
    rewrite (body_actions_handled _ Hact).
    split; [|split].
    + intros songs Hin. rewrite (Hem songs Hin).
      destruct Hinv1 as (Hl & _ & Hn & _). auto.
    + intros st' H. inversion H; subst. auto.
    + cbn [forallb]. rewrite Hfit. reflexivity.
  - intros st msg position tb st1 later r Hp Hb _ IH Hinv.
    pose proof (loop_body_lists msg position st Hinv) as Hbody.
    pose proof (loop_body_actions url_ N msg position st) as Hact.
    rewrite Hb in Hbody, Hact. cbn [outcome trace fst snd] in Hbody, Hact.
    destruct Hbody as (Hfit & Hinv1 & Htag & Hem).
    destruct (IH Hinv1) as (IHem & IHdone & IHret).
    cbn [trace outcome fst snd].
    change (handled (Handle msg :: tb ++ WaitBegin :: trace r))
      with (msg :: handled (tb ++ WaitBegin :: trace r)).
    change (emitted_lists (Handle msg :: tb ++ WaitBegin :: trace r))
      with (emitted_lists (tb ++ WaitBegin :: trace r)).
    rewrite handled_app, (body_actions_handled _ Hact), emitted_lists_app.
    change (handled (WaitBegin :: trace r)) with (handled (trace r)).
    change (emitted_lists (WaitBegin :: trace r)) with (emitted_lists (trace r)).
    cbn [app]. split; [|split].
    + intros songs Hin. apply elem_of_app in Hin as [Hin|Hin].
      * rewrite (Hem songs Hin). destruct Hinv1 as (Hl & _ & Hn & _). auto.
      * exact (IHem songs Hin).
    + intros st' H. destruct (IHdone st' H) as (Hinv' & Htag').
      split; [exact Hinv'|]. cbn [foldl]. rewrite <- Htag. exact Htag'.
    + cbn [forallb]. rewrite Hfit. exact IHret.
Qed.
End lists_in_loop.

Lemma lists_of_disc_start (url_ : QUrl) (N : Z) (w : World) :
  lists_of_disc url_ N (start_state (make_initial_song_list url_ N) w).
Proof.
  unfold lists_of_disc. cbn [start_state initial_song_list tagged_song_list].
  split_and!; auto using make_initial_song_list_length, numbered_initial.
Qed.

Lemma event_loop_lists (url_ : QUrl) (N : Z) (events : list WorldEvent)
    (st : ScanState) :
  N ≤ INT_MAX →
  lists_of_disc url_ N st →
  let r := event_loop url_ N events st in
  (∀ songs, songs ∈ emitted_lists (trace r) →
            length songs = Z.to_nat N ∧ numbered url_ songs) ∧
  (∀ st', outcome r = Done st' →
          lists_of_disc url_ N st' ∧
          tagged_song_list st' =
          foldl (read_message url_) (tagged_song_list st) (handled (trace r))) ∧
  returned r = forallb (fits_disc N) (handled (trace r)).
Proof.
  intros HN Hinv. unfold event_loop. destruct (loop_condition st).
  - rewrite tell_then. exact (wait_events_lists url_ N HN events st Hinv).
  - cbn. split; [intros songs Hin; inversion Hin|].
    split; [|reflexivity]. intros st' H. inversion H; subst. auto.
Qed.

Lemma closing_signals_lists (st : ScanState) (songs : SongList) :
  songs ∈ omap song_list_of (closing_signals st) → songs = tagged_song_list st.
Proof.
  destruct (closing_signals_cases st) as [H|[H|[H|H]]]; rewrite H; cbn;
    intros Hin; try (inversion Hin; fail);
    apply list_elem_of_singleton in Hin; exact Hin.
Qed.

(** A scan that reaches its loop, for a track count an [int] holds. *)
Lemma scan_lists (this : CddaSongLoader) (w : World) (N : Z) :
  reaches_loop this w N →
  N ≤ INT_MAX →
  let run := LoadSongsFromCdda this w in
  (∀ songs, songs ∈ emitted_lists (trace run) →
            length songs = Z.to_nat N ∧ numbered (url_ this) songs) ∧
  (∀ songs, SongsMetadataLoaded songs ∈ signals (trace run) →
            songs = foldl (read_message (url_ this))
                          (make_initial_song_list (url_ this) N)
                          (handled (trace run))) ∧
  returned run = forallb (fits_disc N) (handled (trace run)).
Proof.
  intros Hreach HN. cbn zeta.
  rewrite (scan_handled _ _ _ Hreach), (scan_unfold _ _ _ Hreach). cbn zeta.
  set (songs0 := make_initial_song_list (url_ this) N).
  destruct (event_loop_lists (url_ this) N (timeline w) (start_state songs0 w) HN
              (lists_of_disc_start _ _ _)) as (Hem & Hdone & Hret).
  pose proof (event_loop_signals (url_ this) N (timeline w) (start_state songs0 w)
                filter_wf_start) as Hsig.
  unfold returned in *.
  destruct (outcome (event_loop (url_ this) N (timeline w) (start_state songs0 w)))
    as [st'|f]; cbn [trace outcome fst snd].
  - destruct (Hdone st' eq_refl) as (Hinv' & Htag).
    cbn [start_state tagged_song_list] in Htag.
    split; [|split; [|exact Hret]].
    + intros songs.
      change (emitted_lists (Emit (SongsLoaded songs0) :: ?t))
        with (songs0 :: emitted_lists t).
      rewrite emitted_lists_app. unfold emitted_lists at 2.
      rewrite emit_results_signals.
      intros Hin. apply elem_of_cons in Hin as [->|Hin].
      { split; [apply make_initial_song_list_length|apply numbered_initial]. }
      apply elem_of_app in Hin as [Hin|Hin]; [exact (Hem songs Hin)|].
      rewrite (closing_signals_lists _ _ Hin).
      destruct Hinv' as (_ & Hl & _ & Hn). auto.
    + intros songs.
      change (signals (Emit ?s :: ?t)) with (s :: signals t).
      rewrite signals_app, emit_results_signals.
      intros Hin. apply elem_of_cons in Hin as [Hin|Hin]; [discriminate|].
      apply elem_of_app in Hin as [Hin|Hin].
      { exfalso. destruct Hsig as [Hn|[l Hn]]; rewrite Hn in Hin;
          [inversion Hin|apply list_elem_of_singleton in Hin; discriminate]. }
      rewrite <- Htag. apply closing_signals_lists.
      apply (list_elem_of_omap song_list_of). eexists. split; [exact Hin|reflexivity].
  - split; [|split; [|exact Hret]].
    + intros songs.
      change (emitted_lists (Emit (SongsLoaded songs0) :: ?t))
        with (songs0 :: emitted_lists t).
      intros Hin. apply elem_of_cons in Hin as [->|Hin]; [|exact (Hem songs Hin)].
      split; [apply make_initial_song_list_length|apply numbered_initial].
    + intros songs.
      change (signals (Emit ?s :: ?t)) with (s :: signals t).
      intros Hin. apply elem_of_cons in Hin as [Hin|Hin]; [discriminate|].
      exfalso. destruct Hsig as [Hn|[l Hn]]; rewrite Hn in Hin;
        [inversion Hin|apply list_elem_of_singleton in Hin; discriminate].
Qed.

(** X6.  On a disc of [N] tracks ([N] a value of the [int] the track loop
    counts with), every song list a scan emits, with whichever of its
    three list signals, has [N] songs, and the song at index [i] has track
    number and id [i + 1], the URL of track [i + 1], the CD type and is
    valid. *)
Theorem emitted_lists_numbered (this : CddaSongLoader) (w : World) (N : Z)
    (songs : list Song) :
  reaches_loop this w N →
  N ≤ INT_MAX →
  songs ∈ emitted_lists (trace (LoadSongsFromCdda this w)) →
  length songs = Z.to_nat N ∧ numbered (url_ this) songs.
Proof.
  intros Hreach HN. exact (proj1 (scan_lists this w N Hreach HN) songs).
Qed.

Lemma emitted_lists_numbered_witness :
  let songs :=
    read_tags None
      (read_tags None (make_initial_song_list None 2) (cd_text 1 "One" "first-id"))
      (cd_text 2 "Two" "second-id") in
  length songs = 2%nat ∧ numbered None songs.
Proof.
  intros songs.
  apply (emitted_lists_numbered default_drive (disc 2 two_discids) 2 songs).
  - repeat split.
  - vm_compute. discriminate.
  - apply elem_of_cons. right. apply elem_of_cons. left. reflexivity.
Defined.

(** X7.  The tag-enriched list a scan emits is the first list with the
    tags of the handled tag events read into it, in the order in which
    they were handled.  The tables of contents have no part in it: the
    durations of an accepted table of contents are in the
    duration-enriched list only. *)
Theorem tag_list_is_tags_read_in_order (this : CddaSongLoader) (w : World) (N : Z)
    (songs : list Song) :
  reaches_loop this w N →
  N ≤ INT_MAX →
  SongsMetadataLoaded songs ∈ signals (trace (LoadSongsFromCdda this w)) →
  songs = foldl (read_message (url_ this)) (make_initial_song_list (url_ this) N)
                (handled (trace (LoadSongsFromCdda this w))).
Proof.
  intros Hreach HN. exact (proj1 (proj2 (scan_lists this w N Hreach HN)) songs).
Qed.

Lemma tag_list_is_tags_read_in_order_witness :
  let w := disc 2 (Posted (TocMessage (Some two_entry_toc)) 0 :: two_discids) in
  read_tags None
    (read_tags None (make_initial_song_list None 2) (cd_text 1 "One" "first-id"))
    (cd_text 2 "Two" "second-id")
  = foldl (read_message None) (make_initial_song_list None 2)
          (handled (trace (LoadSongsFromCdda default_drive w))).
Proof.
  intros w.
  apply (tag_list_is_tags_read_in_order default_drive w 2).
  - repeat split.
  - vm_compute. discriminate.
  - apply elem_of_cons. right. apply elem_of_cons. right.
    apply elem_of_cons. left. reflexivity.
Defined.

(** X8.  A scan that reaches its loop returns exactly when every message
    it handles fits the disc: each table of contents has at most as many
    entries as the disc has tracks, and each tag event names no track or
    a track from 1 to [N].  A message that does not fit stops the scan at
    a failed assertion or an access past the end of a list. *)
Theorem scan_returns_iff_messages_fit (this : CddaSongLoader) (w : World) (N : Z) :
  reaches_loop this w N →
  N ≤ INT_MAX →
  returned (LoadSongsFromCdda this w) =
  forallb (fits_disc N) (handled (trace (LoadSongsFromCdda this w))).
Proof.
  intros Hreach HN. exact (proj2 (proj2 (scan_lists this w N Hreach HN))).
Qed.

Lemma scan_returns_iff_messages_fit_witness :
  let w := disc 2 [Posted (TagMessage (cd_text 1 "One" "first-id")) 0;
                   Posted (TagMessage (cd_text 3 "Three" "first-id")) 1] in
  returned (LoadSongsFromCdda default_drive w) =
  forallb (fits_disc 2) (handled (trace (LoadSongsFromCdda default_drive w))).
Proof.
  intros w. apply (scan_returns_iff_messages_fit default_drive w 2).
  - repeat split.
  - vm_compute. discriminate.
Defined.

(** ** Seeks *)

Lemma seeks_app (t1 t2 : list Action) : seeks (t1 ++ t2) = seeks t1 ++ seeks t2.
Proof. apply omap_app. Qed.

Lemma filter_tag_bit (f : Z) (tags : GstTagList) :
  filter_wf f → passes_filter (TagMessage tags) f = true →
  listens_tag f = true ∧ listens_tag (Z.lxor f GST_MESSAGE_TAG) = false.
Proof.
  intros [->|[->|[->| ->]]] H; vm_compute in H; try discriminate;
    split; reflexivity.
Qed.

Lemma filter_toc_bit (f : Z) (toc : option GstToc) :
  filter_wf f → passes_filter (TocMessage toc) f = true →
  listens_tag (Z.lxor f GST_MESSAGE_TOC) = listens_tag f.
Proof.
  intros [->|[->|[->| ->]]] H; vm_compute in H; try discriminate; reflexivity.
Qed.

Section seeks_in_loop.
Variables (url_ : QUrl) (num_tracks : Z).

(** One iteration: a table of contents seeks nowhere and leaves the tag
    bit alone; a tag event seeks once, below the track count, and keeps
    listening, or does not seek and, if it returns, drops the tag bit. *)
Lemma loop_body_seeks (msg : GstMessage) (position : Z) (st : ScanState) :
  filter_wf (msg_filter st) →
  passes_filter msg (msg_filter st) = true →
  let r := loop_body url_ num_tracks msg position st in
  Forall (λ k, k < num_tracks) (seeks (trace r)) ∧
  if is_tag_message msg
  then listens_tag (msg_filter st) = true ∧
       ((∃ k, seeks (trace r) = [k]) ∨
        (seeks (trace r) = [] ∧
         ∀ st1, outcome r = Done st1 → listens_tag (msg_filter st1) = false))
  else seeks (trace r) = [] ∧
       ∀ st1, outcome r = Done st1 →
              listens_tag (msg_filter st1) = listens_tag (msg_filter st).
Proof.
  intros Hwf Hp. destruct msg as [toc|tags]; cbn [loop_body is_tag_message].
  - destruct (handle_toc_cases toc st) as [->|[[songs ->]|[f ->]]];
      cbn [trace outcome fst snd]; (split; [constructor|]);
      (split; [reflexivity|]); intros st1 H; inversion H; subst;
      [reflexivity|].
    cbn [with_toc_done msg_filter]. exact (filter_toc_bit _ _ Hwf Hp).
  - destruct (filter_tag_bit _ _ Hwf Hp) as [Hl Hl'].
    destruct (handle_tag_unfold url_ num_tracks tags position st)
      as (t0 & st0 & H0 & ->).
    assert (seeks t0 = [] ∧ msg_filter st0 = msg_filter st) as [Hs0 Hf0].
    { destruct (read_discid_cases tags st) as [[H _]|(d & _ & _ & H)];
        rewrite H in H0; inversion H0; split; reflexivity. }
    assert (seeks (trace (ParseSongTags url_ (tagged_song_list st0) tags)) = [])
      as Hsp.
    { destruct (ParseSongTags_cases url_ (tagged_song_list st0) tags)
        as [[_ ->]|[[f ->]|(tn & i & song & _ & _ & ->)]]; reflexivity. }
    destruct (outcome (ParseSongTags url_ (tagged_song_list st0) tags))
      as [[songs loaded]|f]; cbn [trace outcome fst snd];
      rewrite !seeks_app, Hs0, Hsp; cbn [app].
    + unfold next_track.
      destruct (Z.ltb_spec (to_gint64 (to_gint64 position + 1)) num_tracks)
        as [Hlt|Hge].
      * rewrite tell_then. cbn [trace outcome fst snd seeks omap seek_of].
        split; [repeat constructor; exact Hlt|]. split; [exact Hl|].
        left. eexists. reflexivity.
      * cbn [trace outcome fst snd mret Run_ret]. split; [constructor|].
        split; [exact Hl|]. right. split; [reflexivity|].
        intros st1 H. inversion H; subst.
        cbn [with_tag_done with_tags msg_filter]. rewrite Hf0. exact Hl'.
    + split; [constructor|]. split; [exact Hl|]. right.
      split; [reflexivity|]. discriminate.
Qed.

Lemma handled_tags_cons (msg : GstMessage) (t : list Action) :
  length (handled_tags (Handle msg :: t)) =
  ((if is_tag_message msg then 1 else 0) + length (handled_tags t))%nat.
Proof.
  unfold handled_tags.
  change (handled (Handle msg :: t)) with (msg :: handled t).
  rewrite filter_cons. destruct msg; cbn [is_tag_message];
    case_decide; try discriminate; try congruence; reflexivity.
Qed.

(** The loop handles no more tag events than it has sought tracks, and
    one more while it still listens for tags. *)
Lemma wait_events_seeks (events : list WorldEvent) (st : ScanState) :
  filter_wf (msg_filter st) →
  let r := wait_events url_ num_tracks events st in
  Forall (λ k, k < num_tracks) (seeks (trace r)) ∧
  (length (handled_tags (trace r)) ≤
   length (seeks (trace r)) + (if listens_tag (msg_filter st) then 1 else 0))%nat.
Proof.
  revert events st.
  apply (wait_events_induction url_ num_tracks
           (λ st r,
              filter_wf (msg_filter st) →
              Forall (λ k, k < num_tracks) (seeks (trace r)) ∧
              (length (handled_tags (trace r)) ≤
               length (seeks (trace r))
               + (if listens_tag (msg_filter st) then 1 else 0))%nat)).
  - intros st _. split; [constructor|cbn; lia].
  - intros st later r IH Hwf. exact (IH Hwf).
  - intros st msg position tb f Hp Hb Hwf.
    pose proof (loop_body_seeks msg position st Hwf Hp) as [Hlt Hcase].
    pose proof (loop_body_crash_quiet _ _ _ _ _ _ _ Hb) as Hq.
    rewrite Hb in Hlt, Hcase. cbn [trace outcome fst snd] in *.
    change (seeks (Handle msg :: tb)) with (seeks tb).
    split; [exact Hlt|]. rewrite handled_tags_cons.
    unfold handled_tags. rewrite (quiet_handled _ Hq). cbn [filter list_filter length].
    destruct (is_tag_message msg); [|lia].
    destruct Hcase as [-> _]. lia.
  - intros st msg position tb st1 Hp Hb _ Hwf.
    pose proof (loop_body_seeks msg position st Hwf Hp) as [Hlt Hcase].
    pose proof (loop_body_actions url_ num_tracks msg position st) as Hact.
    rewrite Hb in Hlt, Hcase, Hact. cbn [trace outcome fst snd] in *.
    change (seeks (Handle msg :: tb)) with (seeks tb).
    split; [exact Hlt|]. rewrite handled_tags_cons.
    unfold handled_tags. rewrite (body_actions_handled _ Hact).
    cbn [filter list_filter length].
    destruct (is_tag_message msg); [|lia].
    destruct Hcase as [-> _]. lia.
  - intros st msg position tb st1 later r Hp Hb _ IH Hwf.
    pose proof (loop_body_seeks msg position st Hwf Hp) as [Hlt Hcase].
    pose proof (loop_body_actions url_ num_tracks msg position st) as Hact.
    destruct (loop_body_step _ _ _ _ _ _ _ Hwf Hp Hb) as (Hwf1 & _).
    destruct (IH Hwf1) as [IHlt IHcount].
    rewrite Hb in Hlt, Hcase, Hact. cbn [trace outcome fst snd] in *.
    change (seeks (Handle msg :: tb ++ WaitBegin :: trace r))
      with (seeks (tb ++ WaitBegin :: trace r)).
    rewrite seeks_app.
    change (seeks (WaitBegin :: trace r)) with (seeks (trace r)).
    split; [apply Forall_app; auto|].
    rewrite handled_tags_cons, length_app.
    unfold handled_tags in *. rewrite handled_app, (body_actions_handled _ Hact).
    cbn [app].
    change (handled (WaitBegin :: trace r)) with (handled (trace r)).
    destruct (is_tag_message msg).
    + destruct Hcase as [-> [[k ->]|[-> Hdrop]]]; cbn [length].
      * destruct (listens_tag (msg_filter st1)); lia.
      * rewrite (Hdrop st1 eq_refl) in IHcount. lia.
    + destruct Hcase as [-> Hkeep]. rewrite (Hkeep st1 eq_refl) in IHcount.
      cbn [length]. lia.
Qed.
End seeks_in_loop.

Lemma emit_results_seeks (st : ScanState) : seeks (trace (emit_results st)) = [].
Proof.
  unfold emit_results, when, emit, tell.
  destruct (loaded_cd_tags st), (negb (isEmpty (musicbrainz_discid st))); reflexivity.
Qed.

Lemma scan_seeks (this : CddaSongLoader) (w : World) (N : Z) :
  reaches_loop this w N →
  Forall (λ k, k < N) (seeks (trace (LoadSongsFromCdda this w))) ∧
  (length (handled_tags (trace (LoadSongsFromCdda this w))) ≤
   length (seeks (trace (LoadSongsFromCdda this w))) + 1)%nat.
Proof.
  intros Hreach. unfold handled_tags.
  rewrite (scan_handled _ _ _ Hreach).
  assert (seeks (trace (LoadSongsFromCdda this w)) =
          seeks (trace (event_loop (url_ this) N (timeline w)
                          (start_state (make_initial_song_list (url_ this) N) w))))
    as ->.
  { rewrite (scan_unfold _ _ _ Hreach). cbn zeta.
    destruct (outcome (event_loop _ _ _ _)) as [st|f]; cbn [trace fst].
    - change (seeks (Emit ?s :: ?t)) with (seeks t).
      rewrite seeks_app, emit_results_seeks, app_nil_r. reflexivity.
    - reflexivity. }
  unfold event_loop. destruct (loop_condition _).
  - rewrite tell_then. cbn [trace fst].
    change (seeks (WaitBegin :: ?t)) with (seeks t).
    change (handled (WaitBegin :: ?t)) with (handled t).
    destruct (wait_events_seeks (url_ this) N (timeline w)
                (start_state (make_initial_song_list (url_ this) N) w)
                filter_wf_start) as [Hlt Hcount].
    split; [exact Hlt|]. unfold handled_tags in Hcount.
    cbn [start_state msg_filter] in Hcount.
    change (listens_tag (Z.lor GST_MESSAGE_TOC GST_MESSAGE_TAG)) with true in Hcount.
    exact Hcount.
  - cbn. split; [constructor|lia].
Qed.

(** X9.  A scan seeks only to tracks below the track count [N] of the
    disc: the last track position it seeks to is at most [N - 1]. *)
Theorem seeks_below_track_count (this : CddaSongLoader) (w : World) (N : Z) :
  reaches_loop this w N →
  Forall (λ k, k < N) (seeks (trace (LoadSongsFromCdda this w))).
Proof. intros Hreach. exact (proj1 (scan_seeks this w N Hreach)). Qed.

Lemma seeks_below_track_count_witness :
  seeks (trace (LoadSongsFromCdda default_drive (disc 2 two_discids))) = [1] ∧
  Forall (λ k, k < 2)
         (seeks (trace (LoadSongsFromCdda default_drive (disc 2 two_discids)))).
Proof.
  split; [reflexivity|].
  apply (seeks_below_track_count default_drive (disc 2 two_discids) 2).
  repeat split.
Defined.

(** X10.  A scan handles at most one tag event more than it seeks
    tracks: each tag event after the first was asked for by a seek, and
    once a tag event is handled without a seek, because the position
    that follows is not below the track count or because the event
    stopped the scan, no further tag event is handled. *)
Theorem one_tag_event_per_seek (this : CddaSongLoader) (w : World) (N : Z) :
  reaches_loop this w N →
  (length (handled_tags (trace (LoadSongsFromCdda this w))) ≤
   length (seeks (trace (LoadSongsFromCdda this w))) + 1)%nat.
Proof. intros Hreach. exact (proj2 (scan_seeks this w N Hreach)). Qed.

Lemma one_tag_event_per_seek_witness :
  let w := disc 2 (two_discids
                   ++ [Posted (TagMessage (cd_text 1 "Again" "third-id")) 0]) in
  length (handled_tags (trace (LoadSongsFromCdda default_drive w))) = 2%nat ∧
  (length (handled_tags (trace (LoadSongsFromCdda default_drive w))) ≤
   length (seeks (trace (LoadSongsFromCdda default_drive w))) + 1)%nat.
Proof.
  intros w. split; [reflexivity|].
  apply (one_tag_event_per_seek default_drive w 2). repeat split.
Defined.

(** ** The scan and the lookup together *)

Lemma AudioCDTagsLoaded_lists (this : CddaSongLoader) (artist album : string)
    (results : MusicBrainzClient.ResultList) (songs : list Song) :
  songs ∈ emitted_lists (trace (AudioCDTagsLoaded this artist album results)) →
  length songs = length results ∧ numbered (url_ this) songs.
Proof.
  unfold AudioCDTagsLoaded. destruct (is_null results).
  - intros Hin. inversion Hin.
  - intros Hin. apply list_elem_of_singleton in Hin. subst songs.
    split; [apply songs_of_results_length|apply numbered_lookup].
Qed.

(** X11.  The list [AudioCDTagsLoaded] emits has one song per result, and
    the song at index [i] has track number and id [i + 1], the URL of
    track [i + 1], the CD type and is valid. *)
Theorem lookup_list_numbered (this : CddaSongLoader) (artist album : string)
    (results : MusicBrainzClient.ResultList) (songs : list Song) :
  songs ∈ emitted_lists (trace (AudioCDTagsLoaded this artist album results)) →
  length songs = length results ∧ numbered (url_ this) songs.
Proof. apply AudioCDTagsLoaded_lists. Qed.

Lemma lookup_list_numbered_witness :
  let results := [lookup_result "One" 180000 1999; lookup_result "Two" 210000 1999] in
  let songs := songs_of_results (Some "/dev/sr0") "Artist" "Album" results 1 in
  length songs = 2%nat ∧ numbered (Some "/dev/sr0") songs.
Proof.
  intros results songs.
  apply (lookup_list_numbered {| url_ := Some "/dev/sr0"; may_load_ := true |}
           "Artist" "Album" results songs).
  apply list_elem_of_singleton. reflexivity.
Defined.



(** ** The tag-enriched list and the fields read *)

(** X13.  When the local [loaded_cd_tags] starts as [false] and the scan
    returns, the scan emits the tag-enriched list exactly when one of
    the tag events it handled names a track and carries one of the six
    fields [ParseSongTags] reads. *)
Theorem tag_list_emitted_iff_field_read (this : CddaSongLoader) (w : World) :
  loaded_cd_tags_initially w = false →
  outcome (LoadSongsFromCdda this w) = Done tt →
  (∃ songs, SongsMetadataLoaded songs ∈ signals (trace (LoadSongsFromCdda this w)))
  ↔ existsb harvests (handled (trace (LoadSongsFromCdda this w))) = true.
Proof. apply tag_list_emitted_iff_harvested. Qed.

Lemma tag_list_emitted_iff_field_read_witness :
  let w := disc 1 [Posted (TagMessage [(GST_TAG_TRACK_NUMBER, VUInt 1)]) 0] in
  (∃ songs, SongsMetadataLoaded songs ∈ signals (trace (LoadSongsFromCdda default_drive w)))
  ↔ existsb harvests (handled (trace (LoadSongsFromCdda default_drive w))) = true.
Proof.
  intros w.
  apply (tag_list_emitted_iff_field_read default_drive w); reflexivity.
Defined.

(** ** A scan that stops at a fault *)

Lemma scan_fault_signals (this : CddaSongLoader) (w : World) (s : Signal) :
  returned (LoadSongsFromCdda this w) = false →
  s ∈ signals (trace (LoadSongsFromCdda this w)) →
  ∃ songs, s = SongsLoaded songs ∨ s = SongsDurationLoaded songs.
Proof.
  destruct (reaches_loop_dec this w) as [[N HN]|Hno].
  - rewrite (scan_unfold _ _ _ HN). cbn zeta.
    pose proof (event_loop_signals (url_ this) N (timeline w)
                  (start_state (make_initial_song_list (url_ this) N) w)
                  filter_wf_start) as Hsig.
    destruct (outcome (event_loop _ _ _ _)) as [st|f]; [discriminate|].
    intros _. cbn [trace fst].
    change (signals (Emit ?s :: ?t)) with (s :: signals t).
    intros Hin. apply elem_of_cons in Hin as [->|Hin]; [eauto|].
    destruct Hsig as [Hn|[l Hn]]; rewrite Hn in Hin; [inversion Hin|].
    apply list_elem_of_singleton in Hin. eauto.
  - destruct (scan_stopped _ _ Hno) as [->|[_ ->]]; discriminate.
Qed.

(** X14.  A message that does not fit the disc costs the scan what it has
    read: when one of the handled messages does not fit, the scan emits
    neither the tag-enriched list nor the disc identifier, whatever the
    tag events handled before have carried; its only signals are the
    first list and, if a table of contents was accepted before, the
    duration-enriched list. *)
Theorem unfit_message_loses_tags (this : CddaSongLoader) (w : World) (N : Z)
    (s : Signal) :
  reaches_loop this w N →
  N ≤ INT_MAX →
  forallb (fits_disc N) (handled (trace (LoadSongsFromCdda this w))) = false →
  s ∈ signals (trace (LoadSongsFromCdda this w)) →
  ∃ songs, s = SongsLoaded songs ∨ s = SongsDurationLoaded songs.
Proof.
  intros Hreach HN Hfit. apply scan_fault_signals.
  rewrite (proj2 (proj2 (scan_lists this w N Hreach HN))). exact Hfit.
Qed.

Lemma unfit_message_loses_tags_witness :
  let w := disc 2 [Posted (TagMessage (cd_text 1 "One" "first-id")) 0;
                   Posted (TagMessage (cd_text 3 "Three" "first-id")) 1] in
  infos (trace (LoadSongsFromCdda default_drive w)) = ["MusicBrainz discid: first-id"] ∧
  ∃ songs, SongsLoaded (make_initial_song_list None 2) = SongsLoaded songs ∨
           SongsLoaded (make_initial_song_list None 2) = SongsDurationLoaded songs.
Proof.
  intros w. split; [reflexivity|].
  apply (unfit_message_loses_tags default_drive w 2).
  - repeat split.
  - vm_compute. discriminate.
  - reflexivity.
  - apply elem_of_cons. left. reflexivity.
Defined.
